(** * CdrWriter: a shallow embedding of [src/CdrWriter.ts]

    The writer of the CDR codec is a class with a growable byte buffer and
    two cursors.  Its private fields become a record, its methods become
    computations in a state-and-exception monad over that record: a method
    that throws leaves in the record whatever it had already mutated, as the
    JavaScript object does.

    Conventions of the embedding:
    - a JavaScript [number] that holds an integer is a [Z], a [bigint] is a
      [Z]; the conversions the platform applies (ToInt32, ToUint32, ...) are
      written out;
    - a byte is a [Z] (every byte the writer stores is in [0, 256));
    - a JavaScript string is the list of its UTF-16 code units;
    - a floating-point argument is a [spec_float];
    - memory is not a limit: [new ArrayBuffer(n)] returns a buffer for every
      [n >= 0], where the platform throws a RangeError for a length it
      cannot allocate; so a method that grows the buffer does not fail for
      that in the model;
    - the entries of a generic array given to a 64-bit array method are
      integers, so that [BigInt(entry)] does not throw. *)

From Stdlib Require Import ZArith Lia Bool.
From Stdlib Require Import Floats.SpecFloat.
From stdpp Require Import base list.

Local Open Scope Z_scope.

(** ** The platform: numbers, views and the text encoder *)

Module JS.

(** ToInt32, ToUint32 and friends of ECMAScript, on integers. *)
Definition ToInt32 (x : Z) : Z := (x + 2 ^ 31) mod 2 ^ 32 - 2 ^ 31.
Definition ToUint32 (x : Z) : Z := x mod 2 ^ 32.
Definition ToUint16 (x : Z) : Z := x mod 2 ^ 16.
Definition ToUint8 (x : Z) : Z := x mod 2 ^ 8.
Definition ToBigUint64 (x : Z) : Z := x mod 2 ^ 64.

(** [a | b], [a & b], [a << n], [a >> n]: the operands are taken through
    ToInt32, the shift count is masked to five bits, the result is an
    int32. *)
Definition bor (a b : Z) : Z := Z.lor (ToInt32 a) (ToInt32 b).
Definition band (a b : Z) : Z := Z.land (ToInt32 a) (ToInt32 b).
Definition shl (a n : Z) : Z := ToInt32 (Z.shiftl (ToInt32 a) (n mod 32)).
Definition sar (a n : Z) : Z := Z.shiftr (ToInt32 a) (n mod 32).

(** [a % b] truncates towards zero and is NaN ([None]) when [b] is 0. *)
Definition rem (a b : Z) : option Z :=
  if b =? 0 then None else Some (Z.rem a b).

(** [v] on [n] bytes, least significant byte first. *)
Fixpoint le_bytes (n : nat) (v : Z) : list Z :=
  match n with
  | O => []
  | S k => v mod 256 :: le_bytes k (v / 256)
  end.

(** The bytes a [DataView] setter stores for the [n]-byte value [v]. *)
Definition encode (littleEndian : bool) (n : nat) (v : Z) : list Z :=
  if littleEndian then le_bytes n v else reverse (le_bytes n v).

(** IEEE 754 bit pattern of a float with [mw] mantissa bits and [ew]
    exponent bits; NaN is the canonical quiet NaN. *)
Definition float_bits (mw ew : Z) (f : spec_float) : Z :=
  let sign (s : bool) := if s then 2 ^ (mw + ew) else 0 in
  let emin := 3 - 2 ^ (ew - 1) - (mw + 1) in
  match f with
  | S754_zero s => sign s
  | S754_infinity s => sign s + (2 ^ ew - 1) * 2 ^ mw
  | S754_nan => (2 ^ ew - 1) * 2 ^ mw + 2 ^ (mw - 1)
  | S754_finite s m e =>
      if 2 ^ mw <=? Z.pos m
      then sign s + (e - emin + 1) * 2 ^ mw + (Z.pos m - 2 ^ mw)
      else sign s + Z.pos m
  end.

Definition float64_bits (f : spec_float) : Z := float_bits 52 11 f.

(** [setFloat32] first rounds the double to the nearest binary32. *)
Definition to_float32 (f : spec_float) : spec_float :=
  match f with
  | S754_finite s m e => binary_normalize 24 128 (cond_Zopp s (Z.pos m)) e s
  | _ => f
  end.

Definition float32_bits (f : spec_float) : Z := float_bits 23 8 (to_float32 f).

(** The double 1.0. *)
Definition one : spec_float := S754_finite false (2 ^ 52) (-52).

(** *** TextEncoder *)

(** Code points of a string of UTF-16 code units; a surrogate that is
    not part of a pair becomes U+FFFD, as in the conversion to a
    USVString.  The second component is the number of code units the
    code point took. *)
Fixpoint code_points (units : list Z) : list (Z * Z) :=
  match units with
  | [] => []
  | u :: rest =>
      if (0xD800 <=? u) && (u <=? 0xDBFF) then
        match rest with
        | v :: rest' =>
            if (0xDC00 <=? v) && (v <=? 0xDFFF)
            then (0x10000 + (u - 0xD800) * 0x400 + (v - 0xDC00), 2)
                   :: code_points rest'
            else (0xFFFD, 1) :: code_points rest
        | [] => [(0xFFFD, 1)]
        end
      else if (0xDC00 <=? u) && (u <=? 0xDFFF) then (0xFFFD, 1) :: code_points rest
      else (u, 1) :: code_points rest
  end.

Definition utf8_of_code_point (c : Z) : list Z :=
  if c <? 0x80 then [c]
  else if c <? 0x800 then [0xC0 + c / 64; 0x80 + c mod 64]
  else if c <? 0x10000 then
    [0xE0 + c / 4096; 0x80 + (c / 64) mod 64; 0x80 + c mod 64]
  else
    [0xF0 + c / 262144; 0x80 + (c / 4096) mod 64;
     0x80 + (c / 64) mod 64; 0x80 + c mod 64].

(** [TextEncoder.encode]: the whole string in UTF-8. *)
Definition utf8 (units : list Z) : list Z :=
  flat_map (fun cp => utf8_of_code_point (fst cp)) (code_points units).

(** [TextEncoder.encodeInto(source, destination)]: the bytes stored in a
    destination of [room] bytes, whole code points only, stopping at the
    first one that does not fit. *)
Fixpoint encodeInto_points (cps : list (Z * Z)) (room : Z) : list Z :=
  match cps with
  | [] => []
  | cp :: rest =>
      let bs := utf8_of_code_point (fst cp) in
      if Z.of_nat (length bs) <=? room
      then bs ++ encodeInto_points rest (room - Z.of_nat (length bs))
      else []
  end.

Definition encodeInto (units : list Z) (room : Z) : list Z :=
  encodeInto_points (code_points units) room.

End JS.

(** ** Constants of the sibling modules

    [EncapsulationKind.ts], [getEncapsulationKindInfo.ts], [lengthCodes.ts]
    and [reservedPIDs.ts] are imported by the writer. *)

(** Modelled from the spec: the enumeration [EncapsulationKind] of
    [EncapsulationKind.ts], with the kind bytes of the table of encapsulation
    kinds. *)
Inductive EncapsulationKind : Set :=
  | CDR_BE | CDR_LE | PL_CDR_BE | PL_CDR_LE
  | CDR2_BE | CDR2_LE | PL_CDR2_BE | PL_CDR2_LE | D_CDR2_BE | D_CDR2_LE.

Definition kind_byte (k : EncapsulationKind) : Z :=
  match k with
  | CDR_BE => 0x00 | CDR_LE => 0x01 | PL_CDR_BE => 0x02 | PL_CDR_LE => 0x03
  | CDR2_BE => 0x10 | CDR2_LE => 0x11 | PL_CDR2_BE => 0x12 | PL_CDR2_LE => 0x13
  | D_CDR2_BE => 0x14 | D_CDR2_LE => 0x15
  end.

Record EncapsulationKindInfo := {
  info_isCDR2 : bool;
  info_littleEndian : bool;
}.

(** Modelled from the spec: [getEncapsulationKindInfo] of
    [getEncapsulationKindInfo.ts], the two fields the writer reads, from the
    Endian and Version columns of the table of encapsulation kinds. *)
Definition getEncapsulationKindInfo (k : EncapsulationKind) : EncapsulationKindInfo :=
  {| info_isCDR2 :=
       match k with
       | CDR_BE | CDR_LE | PL_CDR_BE | PL_CDR_LE => false
       | _ => true
       end;
     info_littleEndian :=
       match k with
       | CDR_LE | PL_CDR_LE | CDR2_LE | PL_CDR2_LE | D_CDR2_LE => true
       | _ => false
       end |}.

(** Modelled from the spec: [getLengthCodeForObjectSize] of [lengthCodes.ts],
    "0 for 1, 1 for 2, 2 for 4, 3 for 8, otherwise 4". *)
Definition getLengthCodeForObjectSize (objectSize : Z) : Z :=
  if objectSize =? 1 then 0
  else if objectSize =? 2 then 1
  else if objectSize =? 4 then 2
  else if objectSize =? 8 then 3
  else 4.

(** Modelled from the spec: the table [lengthCodeToObjectSizes] of
    [lengthCodes.ts], the fixed object sizes of length codes 0 to 3. *)
Definition lengthCodeToObjectSizes (lengthCode : Z) : Z :=
  if lengthCode =? 0 then 1
  else if lengthCode =? 1 then 2
  else if lengthCode =? 2 then 4
  else 8.

(** Modelled from the spec: the reserved parameter ids of [reservedPIDs.ts]. *)
Definition EXTENDED_PID : Z := 0x3F01.
Definition SENTINEL_PID : Z := 0x3F02.

(** ** The writer *)

(** What a method can throw: [RangeError] comes from the platform (a view
    or an array accessed out of bounds, a negative buffer length), the other
    two are the [Error]s of [#memberHeaderV2].  An allocation the platform
    refuses is not among them, see the conventions. *)
Inductive Error : Set := RangeError | IdTooLarge | BadLengthCode.

(** The private fields.  [#array] and [#view] are views of the whole of
    [#buffer] and are replaced together with it, so the three are one field;
    the capacity of the writer is the length of [buffer]. *)
Record CdrWriter := {
  littleEndian : bool;
  hostLittleEndian : bool;
  isCDR2 : bool;
  eightByteAlignment : Z;
  buffer : list Z;
  offset : Z;
  origin : Z;
}.

Definition byteLength (buf : list Z) : Z := Z.of_nat (length buf).

(** The getters [data] and [size]. *)
Definition data (w : CdrWriter) : list Z := take (Z.to_nat (offset w)) (buffer w).
Definition size (w : CdrWriter) : Z := offset w.

Definition set_buffer (b : list Z) (w : CdrWriter) : CdrWriter :=
  {| littleEndian := littleEndian w; hostLittleEndian := hostLittleEndian w;
     isCDR2 := isCDR2 w; eightByteAlignment := eightByteAlignment w;
     buffer := b; offset := offset w; origin := origin w |}.

Definition set_offset (o : Z) (w : CdrWriter) : CdrWriter :=
  {| littleEndian := littleEndian w; hostLittleEndian := hostLittleEndian w;
     isCDR2 := isCDR2 w; eightByteAlignment := eightByteAlignment w;
     buffer := buffer w; offset := o; origin := origin w |}.

Definition set_origin (o : Z) (w : CdrWriter) : CdrWriter :=
  {| littleEndian := littleEndian w; hostLittleEndian := hostLittleEndian w;
     isCDR2 := isCDR2 w; eightByteAlignment := eightByteAlignment w;
     buffer := buffer w; offset := offset w; origin := o |}.

(** A method is a function of the object: it ends normally or throws, and
    in both cases leaves the object as it mutated it. *)
Definition M (A : Type) : Type := CdrWriter -> (Error + A) * CdrWriter.

Definition ret {A} (a : A) : M A := fun w => (inr a, w).
Definition throw {A} (e : Error) : M A := fun w => (inl e, w).
Definition bind {A B} (c : M A) (k : A -> M B) : M B :=
  fun w => match c w with
           | (inr a, w') => k a w'
           | (inl e, w') => (inl e, w')
           end.
Definition this : M CdrWriter := fun w => (inr w, w).
Definition update (f : CdrWriter -> CdrWriter) : M unit := fun w => (inr tt, f w).

Declare Scope writer_scope.
Delimit Scope writer_scope with writer.
Notation "c1 ;; c2" := (bind c1 (fun _ => c2))
  (at level 100, c2 at level 200, right associativity) : writer_scope.
Notation "x <- c1 ;; c2" := (bind c1 (fun x => c2))
  (at level 100, c1 at next level, c2 at level 200, right associativity) : writer_scope.
Local Open Scope writer_scope.

(** *** Buffer primitives of the platform *)

(** [DataView.prototype.setX(byteOffset, ...)] storing the bytes [bs]: a
    RangeError unless they fit in the view. *)
Definition view_store (byteOffset : Z) (bs : list Z) (buf : list Z) : Error + list Z :=
  if (0 <=? byteOffset) && (byteOffset + byteLength bs <=? byteLength buf)
  then inr (list_inserts (Z.to_nat byteOffset) bs buf)
  else inl RangeError.

(** [Uint8Array.prototype.set(source, offset)]: a RangeError unless the
    source fits; every element is stored through ToUint8. *)
Definition array_store (source : list Z) (off : Z) (buf : list Z) : Error + list Z :=
  if (0 <=? off) && (off + byteLength source <=? byteLength buf)
  then inr (list_inserts (Z.to_nat off) (map JS.ToUint8 source) buf)
  else inl RangeError.

(** An index argument of [fill], relative to the end when negative and
    clamped to the array. *)
Definition relative_index (len i : Z) : Z :=
  if i <? 0 then Z.max (len + i) 0 else Z.min i len.

(** [Uint8Array.prototype.fill(value, start, end)]. *)
Definition array_fill (value start end_ : Z) (buf : list Z) : list Z :=
  let k := relative_index (byteLength buf) start in
  let final := relative_index (byteLength buf) end_ in
  list_inserts (Z.to_nat k) (replicate (Z.to_nat (final - k)) (JS.ToUint8 value)) buf.

(** A platform call that may throw, run on [#buffer]. *)
Definition on_buffer (f : list Z -> Error + list Z) : M unit :=
  fun w => match f (buffer w) with
           | inr b => (inr tt, set_buffer b w)
           | inl e => (inl e, w)
           end.

Definition setUint8 (byteOffset value : Z) : M unit :=
  on_buffer (view_store byteOffset (JS.encode true 1 (JS.ToUint8 value))).
Definition setInt8 (byteOffset value : Z) : M unit :=
  on_buffer (view_store byteOffset (JS.encode true 1 (JS.ToUint8 value))).
Definition setUint16 (byteOffset value : Z) (le : bool) : M unit :=
  on_buffer (view_store byteOffset (JS.encode le 2 (JS.ToUint16 value))).
Definition setInt16 (byteOffset value : Z) (le : bool) : M unit :=
  on_buffer (view_store byteOffset (JS.encode le 2 (JS.ToUint16 value))).
Definition setUint32 (byteOffset value : Z) (le : bool) : M unit :=
  on_buffer (view_store byteOffset (JS.encode le 4 (JS.ToUint32 value))).
Definition setInt32 (byteOffset value : Z) (le : bool) : M unit :=
  on_buffer (view_store byteOffset (JS.encode le 4 (JS.ToUint32 value))).
Definition setBigUint64 (byteOffset value : Z) (le : bool) : M unit :=
  on_buffer (view_store byteOffset (JS.encode le 8 (JS.ToBigUint64 value))).
Definition setBigInt64 (byteOffset value : Z) (le : bool) : M unit :=
  on_buffer (view_store byteOffset (JS.encode le 8 (JS.ToBigUint64 value))).
Definition setFloat32 (byteOffset : Z) (value : spec_float) (le : bool) : M unit :=
  on_buffer (view_store byteOffset (JS.encode le 4 (JS.float32_bits value))).
Definition setFloat64 (byteOffset : Z) (value : spec_float) (le : bool) : M unit :=
  on_buffer (view_store byteOffset (JS.encode le 8 (JS.float64_bits value))).

(** *** Growth and alignment *)

(** [#resize]: a fresh zero-filled buffer of [capacity] bytes that starts
    with the old content, unless the buffer is already that large.  The
    allocation [new ArrayBuffer(capacity)] is taken to succeed: [capacity]
    exceeds the length of the buffer here, so it is not negative, and memory
    is not a limit. *)
Definition resize (capacity : Z) (buf : list Z) : list Z :=
  if byteLength buf >=? capacity then buf
  else buf ++ replicate (Z.to_nat (capacity - byteLength buf)) 0.

(** [#resizeIfNeeded], as a function of the value [off] read from [#offset]:
    [None] is [undefined], the value of the field before the constructor
    assigns it.  Then [capacity] is NaN and [byteLength < capacity] is false. *)
Definition resizeIfNeeded_at (off : option Z) (additionalBytes : Z) (buf : list Z) : list Z :=
  match off with
  | None => buf
  | Some o =>
      let capacity := o + additionalBytes in
      if byteLength buf <? capacity then
        let doubled := byteLength buf * 2 in
        let newCapacity := if doubled >? capacity then doubled else capacity in
        resize newCapacity buf
      else buf
  end.

Definition resizeIfNeeded (additionalBytes : Z) : M unit :=
  w <- this ;;
  update (set_buffer (resizeIfNeeded_at (Some (offset w)) additionalBytes (buffer w))).

(** The number of padding bytes [align] computes. *)
Definition padding (w : CdrWriter) (size : Z) : Z :=
  match JS.rem (offset w - origin w) size with
  | Some alignment => if alignment >? 0 then size - alignment else 0
  | None => 0
  end.

(** [align(size, bytesToWrite = size)]. *)
Definition align (size : Z) (bytesToWrite : option Z) : M unit :=
  w <- this ;;
  let bytesToWrite := default size bytesToWrite in
  let padding := padding w size in
  resizeIfNeeded (padding + bytesToWrite) ;;
  update (fun w => set_buffer (array_fill 0 (offset w) (offset w + padding) (buffer w)) w) ;;
  update (fun w => set_offset (offset w + padding) w).

(** *** Construction *)

Definition DEFAULT_CAPACITY : Z := 16.
Definition BUFFER_COPY_THRESHOLD : Z := 10.

Record CdrWriterOpts := {
  opt_buffer : option (list Z);
  opt_size : option Z;
  opt_kind : option EncapsulationKind;
}.

(** [new ArrayBuffer(length)]. *)
Definition new_ArrayBuffer (len : Z) : Error + list Z :=
  if len <? 0 then inl RangeError else inr (replicate (Z.to_nat len) 0).

(** The buffer the constructor starts from. *)
Definition initial_buffer (options : CdrWriterOpts) : Error + list Z :=
  match opt_buffer options with
  | Some b => inr b
  | None =>
      match opt_size options with
      | Some n => new_ArrayBuffer n
      | None => new_ArrayBuffer DEFAULT_CAPACITY
      end
  end.

(** The constructor; [isBigEndian] is the result of the byte-order probe of
    the host.  [#resizeIfNeeded(4)] runs before [#offset] is assigned. *)
Definition constructor (isBigEndian : bool) (options : CdrWriterOpts) : Error + CdrWriter :=
  match initial_buffer options with
  | inl e => inl e
  | inr buffer0 =>
      let kind := default CDR_LE (opt_kind options) in
      let info := getEncapsulationKindInfo kind in
      let buffer1 := resizeIfNeeded_at None 4 buffer0 in
      match view_store 0 (JS.encode true 1 (JS.ToUint8 0)) buffer1 with
      | inl e => inl e
      | inr buffer2 =>
          match view_store 1 (JS.encode true 1 (JS.ToUint8 (kind_byte kind))) buffer2 with
          | inl e => inl e
          | inr buffer3 =>
              match view_store 2 (JS.encode false 2 (JS.ToUint16 0)) buffer3 with
              | inl e => inl e
              | inr buffer4 =>
                  inr {| littleEndian := info_littleEndian info;
                         hostLittleEndian := negb isBigEndian;
                         isCDR2 := info_isCDR2 info;
                         eightByteAlignment := if info_isCDR2 info then 4 else 8;
                         buffer := buffer4;
                         offset := 4;
                         origin := 4 |}
              end
          end
      end
  end.

(** *** Scalars *)

Definition advance (n : Z) : M unit := update (fun w => set_offset (offset w + n) w).

Definition int8 (value : Z) : M unit :=
  resizeIfNeeded 1 ;;
  w <- this ;;
  setInt8 (offset w) value ;;
  advance 1.

Definition uint8 (value : Z) : M unit :=
  resizeIfNeeded 1 ;;
  w <- this ;;
  setUint8 (offset w) value ;;
  advance 1.

Definition int16 (value : Z) : M unit :=
  align 2 None ;;
  w <- this ;;
  setInt16 (offset w) value (littleEndian w) ;;
  advance 2.

Definition uint16 (value : Z) : M unit :=
  align 2 None ;;
  w <- this ;;
  setUint16 (offset w) value (littleEndian w) ;;
  advance 2.

Definition int32 (value : Z) : M unit :=
  align 4 None ;;
  w <- this ;;
  setInt32 (offset w) value (littleEndian w) ;;
  advance 4.

Definition uint32 (value : Z) : M unit :=
  align 4 None ;;
  w <- this ;;
  setUint32 (offset w) value (littleEndian w) ;;
  advance 4.

Definition int64 (value : Z) : M unit :=
  w <- this ;;
  align (eightByteAlignment w) (Some 8) ;;
  w <- this ;;
  setBigInt64 (offset w) value (littleEndian w) ;;
  advance 8.

Definition uint64 (value : Z) : M unit :=
  w <- this ;;
  align (eightByteAlignment w) (Some 8) ;;
  w <- this ;;
  setBigUint64 (offset w) value (littleEndian w) ;;
  advance 8.

Definition uint16BE (value : Z) : M unit :=
  align 2 None ;;
  w <- this ;;
  setUint16 (offset w) value false ;;
  advance 2.

Definition uint32BE (value : Z) : M unit :=
  align 4 None ;;
  w <- this ;;
  setUint32 (offset w) value false ;;
  advance 4.

Definition uint64BE (value : Z) : M unit :=
  w <- this ;;
  align (eightByteAlignment w) (Some 8) ;;
  w <- this ;;
  setBigUint64 (offset w) value false ;;
  advance 8.

Definition float32 (value : spec_float) : M unit :=
  align 4 None ;;
  w <- this ;;
  setFloat32 (offset w) value (littleEndian w) ;;
  advance 4.

Definition float64 (value : spec_float) : M unit :=
  w <- this ;;
  align (eightByteAlignment w) (Some 8) ;;
  w <- this ;;
  setFloat64 (offset w) value (littleEndian w) ;;
  advance 8.

(** *** Strings *)

(** [textEncoder.encodeInto(value, new Uint8Array(buffer, off, len))]: the
    view is a RangeError unless it lies in the buffer; the encoder then
    stores what fits in its [len] bytes. *)
Definition encodeInto_view (value : list Z) (off len : Z) (buf : list Z) : Error + list Z :=
  if (0 <=? off) && (off + len <=? byteLength buf)
  then inr (list_inserts (Z.to_nat off) (JS.encodeInto value len) buf)
  else inl RangeError.

(** [string(value, writeLength = true)]; [value.length] counts UTF-16 code
    units. *)
Definition string (value : list Z) (writeLength : bool) : M unit :=
  let strlen := Z.of_nat (length value) in
  (if writeLength then uint32 (strlen + 1) else ret tt) ;;
  resizeIfNeeded (strlen + 1) ;;
  w <- this ;;
  on_buffer (encodeInto_view value (offset w) strlen) ;;
  setUint8 (offset w + strlen) 0 ;;
  advance (strlen + 1).

(** *** Headers *)

Definition dHeader (objectSize : Z) : M unit :=
  let header := objectSize in
  uint32 header.

Definition resetOrigin : M unit := update (fun w => set_origin (offset w) w).

Definition memberHeaderV1 (mustUnderstand : bool) (id objectSize : Z) : M unit :=
  align 4 None ;;
  let mustUnderstandFlag := if mustUnderstand then JS.shl 1 14 else 0 in
  let shouldUseExtendedPID := (id >? 0x3f00) || (objectSize >? 0xffff) in
  (if negb shouldUseExtendedPID then
     let idHeader := JS.bor mustUnderstandFlag id in
     uint16 idHeader ;;
     let objectSizeHeader := JS.band objectSize 0xffff in
     uint16 objectSizeHeader
   else
     let extendedHeader := JS.bor mustUnderstandFlag EXTENDED_PID in
     uint16 extendedHeader ;;
     uint16 8 ;;
     uint32 id ;;
     uint32 objectSize) ;;
  resetOrigin.

Definition sentinelHeader : M unit :=
  w <- this ;;
  if negb (isCDR2 w) then
    align 4 None ;;
    uint16 SENTINEL_PID ;;
    uint16 0
  else ret tt.

Definition memberHeaderV2 (mustUnderstand : bool) (id objectSize : Z)
    (lengthCode : option Z) : M unit :=
  if id >? 0x0fffffff then throw IdTooLarge
  else
    let mustUnderstandFlag := if mustUnderstand then JS.shl 1 31 else 0 in
    let finalLengthCode := default (getLengthCodeForObjectSize objectSize) lengthCode in
    let header := JS.bor (JS.bor mustUnderstandFlag (JS.shl finalLengthCode 28)) id in
    uint32 header ;;
    if (finalLengthCode =? 0) || (finalLengthCode =? 1)
       || (finalLengthCode =? 2) || (finalLengthCode =? 3) then
      let shouldBeSize := lengthCodeToObjectSizes finalLengthCode in
      if negb (objectSize =? shouldBeSize) then throw BadLengthCode else ret tt
    else if (finalLengthCode =? 4) || (finalLengthCode =? 5) then
      uint32 objectSize
    else if finalLengthCode =? 6 then
      if negb (Z.rem objectSize 4 =? 0) then throw BadLengthCode
      else uint32 (JS.sar objectSize 2)
    else if finalLengthCode =? 7 then
      if negb (Z.rem objectSize 8 =? 0) then throw BadLengthCode
      else uint32 (JS.sar objectSize 3)
    else throw BadLengthCode.

Definition emHeader (mustUnderstand : bool) (id objectSize : Z)
    (lengthCode : option Z) : M unit :=
  w <- this ;;
  if isCDR2 w
  then memberHeaderV2 mustUnderstand id objectSize lengthCode
  else memberHeaderV1 mustUnderstand id objectSize.

Definition sequenceLength (value : Z) : M unit := uint32 value.

(** *** Typed arrays *)

(** The argument of an array method: a typed array of the matching element
    type, or a generic array. *)
Inductive ArrayArg (A : Type) : Type :=
  | TypedArray (elems : list A)
  | GenericArray (elems : list A).
Arguments TypedArray {A} elems.
Arguments GenericArray {A} elems.

Definition elements {A} (value : ArrayArg A) : list A :=
  match value with TypedArray l | GenericArray l => l end.

Definition instanceof_typed {A} (value : ArrayArg A) : bool :=
  match value with TypedArray _ => true | GenericArray _ => false end.

Definition array_length {A} (value : ArrayArg A) : Z := Z.of_nat (length (elements value)).

(** [for (const entry of value) this.scalar(entry)]. *)
Fixpoint forEach {A} (scalar : A -> M unit) (l : list A) : M unit :=
  match l with
  | [] => ret tt
  | entry :: rest => scalar entry ;; forEach scalar rest
  end.

(** The memory of a typed array on a host: every element in the byte order
    of the host; [bits] is the pattern an element is stored as. *)
Definition host_bytes {A} (hostLE : bool) (BYTES_PER_ELEMENT : Z) (bits : A -> Z)
    (l : list A) : list Z :=
  flat_map (fun x => JS.encode hostLE (Z.to_nat BYTES_PER_ELEMENT) (bits x)) l.

(** The body shared by the eight array methods of width two and more. *)
Definition wideArray {A} (BYTES_PER_ELEMENT : Z) (bits : A -> Z) (scalar : A -> M unit)
    (value : ArrayArg A) (writeLength : bool) : M unit :=
  (if writeLength then sequenceLength (array_length value) else ret tt) ;;
  w <- this ;;
  if instanceof_typed value
     && eqb (littleEndian w) (hostLittleEndian w)
     && (array_length value >=? BUFFER_COPY_THRESHOLD)
  then
    let byteLength := array_length value * BYTES_PER_ELEMENT in
    align BYTES_PER_ELEMENT (Some byteLength) ;;
    w <- this ;;
    on_buffer (array_store
                 (host_bytes (hostLittleEndian w) BYTES_PER_ELEMENT bits (elements value))
                 (offset w)) ;;
    advance byteLength
  else forEach scalar (elements value).

Definition int8Array (value : ArrayArg Z) (writeLength : bool) : M unit :=
  (if writeLength then sequenceLength (array_length value) else ret tt) ;;
  resizeIfNeeded (array_length value) ;;
  w <- this ;;
  on_buffer (array_store (elements value) (offset w)) ;;
  advance (array_length value).

Definition uint8Array (value : ArrayArg Z) (writeLength : bool) : M unit :=
  (if writeLength then sequenceLength (array_length value) else ret tt) ;;
  resizeIfNeeded (array_length value) ;;
  w <- this ;;
  on_buffer (array_store (elements value) (offset w)) ;;
  advance (array_length value).

Definition int16Array := wideArray 2 JS.ToUint16 int16.
Definition uint16Array := wideArray 2 JS.ToUint16 uint16.
Definition int32Array := wideArray 4 JS.ToUint32 int32.
Definition uint32Array := wideArray 4 JS.ToUint32 uint32.
Definition int64Array := wideArray 8 JS.ToBigUint64 int64.
Definition uint64Array := wideArray 8 JS.ToBigUint64 uint64.
Definition float32Array := wideArray 4 JS.float32_bits float32.
Definition float64Array := wideArray 8 JS.float64_bits float64.

(** ** Call sequences *)

(** One call of a public method. *)
Inductive Op : Type :=
  | Int8 (value : Z) | Uint8 (value : Z)
  | Int16 (value : Z) | Uint16 (value : Z)
  | Int32 (value : Z) | Uint32 (value : Z)
  | Int64 (value : Z) | Uint64 (value : Z)
  | Uint16BE (value : Z) | Uint32BE (value : Z) | Uint64BE (value : Z)
  | Float32 (value : spec_float) | Float64 (value : spec_float)
  | String (value : list Z) (writeLength : bool)
  | DHeader (objectSize : Z)
  | EmHeader (mustUnderstand : bool) (id objectSize : Z) (lengthCode : option Z)
  | SentinelHeader
  | SequenceLength (value : Z)
  | Int8Array (value : ArrayArg Z) (writeLength : bool)
  | Uint8Array (value : ArrayArg Z) (writeLength : bool)
  | Int16Array (value : ArrayArg Z) (writeLength : bool)
  | Uint16Array (value : ArrayArg Z) (writeLength : bool)
  | Int32Array (value : ArrayArg Z) (writeLength : bool)
  | Uint32Array (value : ArrayArg Z) (writeLength : bool)
  | Int64Array (value : ArrayArg Z) (writeLength : bool)
  | Uint64Array (value : ArrayArg Z) (writeLength : bool)
  | Float32Array (value : ArrayArg spec_float) (writeLength : bool)
  | Float64Array (value : ArrayArg spec_float) (writeLength : bool)
  | Align (size : Z) (bytesToWrite : option Z).

Definition call (op : Op) : M unit :=
  match op with
  | Int8 v => int8 v | Uint8 v => uint8 v
  | Int16 v => int16 v | Uint16 v => uint16 v
  | Int32 v => int32 v | Uint32 v => uint32 v
  | Int64 v => int64 v | Uint64 v => uint64 v
  | Uint16BE v => uint16BE v | Uint32BE v => uint32BE v | Uint64BE v => uint64BE v
  | Float32 v => float32 v | Float64 v => float64 v
  | String v wl => string v wl
  | DHeader s => dHeader s
  | EmHeader mu id s lc => emHeader mu id s lc
  | SentinelHeader => sentinelHeader
  | SequenceLength v => sequenceLength v
  | Int8Array v wl => int8Array v wl
  | Uint8Array v wl => uint8Array v wl
  | Int16Array v wl => int16Array v wl
  | Uint16Array v wl => uint16Array v wl
  | Int32Array v wl => int32Array v wl
  | Uint32Array v wl => uint32Array v wl
  | Int64Array v wl => int64Array v wl
  | Uint64Array v wl => uint64Array v wl
  | Float32Array v wl => float32Array v wl
  | Float64Array v wl => float64Array v wl
  | Align s b => align s b
  end.

(** A chain of calls; it stops at the first one that throws. *)
Definition calls (ops : list Op) : M unit := forEach call ops.


(** ** Specification vocabulary *)

(** The fields no method assigns after construction. *)
Definition same_config (w w' : CdrWriter) : Prop :=
  littleEndian w' = littleEndian w /\ hostLittleEndian w' = hostLittleEndian w
  /\ isCDR2 w' = isCDR2 w /\ eightByteAlignment w' = eightByteAlignment w.

(** The cursor invariant of the data model. *)
Definition cursor_inv (w : CdrWriter) : Prop :=
  origin w <= offset w /\ offset w <= byteLength (buffer w).

(** A writer as the constructor and the methods leave it: the cursors are
    positions in the buffer and the 64-bit alignment is the one of the
    encapsulation. *)
Definition wf (w : CdrWriter) : Prop :=
  0 <= origin w /\ cursor_inv w
  /\ eightByteAlignment w = (if isCDR2 w then 4 else 8).

(** [w'] is [w] with the bytes [bs] appended to the output: nothing before
    the old cursor changed, the cursor moved by the length of [bs], the
    origin stayed. *)
Definition appended (w w' : CdrWriter) (bs : list Z) : Prop :=
  data w' = data w ++ bs
  /\ offset w' = offset w + byteLength bs
  /\ offset w' <= byteLength (buffer w')
  /\ origin w' = origin w
  /\ same_config w w'.

(** [n] zero bytes. *)
Definition zeros (n : Z) : list Z := replicate (Z.to_nat n) 0.

(** The writer after [align(size, bytesToWrite)]. *)
Definition aligned (size bytesToWrite : Z) (w : CdrWriter) : CdrWriter :=
  let p := padding w size in
  let grown := resizeIfNeeded_at (Some (offset w)) (p + bytesToWrite) (buffer w) in
  set_offset (offset w + p)
    (set_buffer (array_fill 0 (offset w) (offset w + p) grown) w).

(** The computation [c] run on [w] ends normally and appends [bs]. *)
Definition emits (c : M unit) (w : CdrWriter) (bs : list Z) : Prop :=
  exists w', c w = (inr tt, w') /\ appended w w' bs.

(** The table of the data model: the width of the primitive a scalar call
    writes and the alignment [W] it is written at, for an XCDR2
    ([cdr2 = true]) or an XCDR1 stream.  [None] for a call that is not a
    scalar write. *)
Definition scalar_shape (cdr2 : bool) (op : Op) : option (Z * Z) :=
  match op with
  | Int8 _ | Uint8 _ => Some (1, 1)
  | Int16 _ | Uint16 _ | Uint16BE _ => Some (2, 2)
  | Int32 _ | Uint32 _ | Uint32BE _ | Float32 _ => Some (4, 4)
  | Int64 _ | Uint64 _ | Uint64BE _ | Float64 _ => Some (8, if cdr2 then 4 else 8)
  | _ => None
  end.

(** The value bytes of a scalar call, in the byte order it is stored in. *)
Definition scalar_value (w : CdrWriter) (op : Op) : list Z :=
  match op with
  | Int8 v | Uint8 v => JS.encode true 1 (JS.ToUint8 v)
  | Int16 v | Uint16 v => JS.encode (littleEndian w) 2 (JS.ToUint16 v)
  | Uint16BE v => JS.encode false 2 (JS.ToUint16 v)
  | Int32 v | Uint32 v => JS.encode (littleEndian w) 4 (JS.ToUint32 v)
  | Uint32BE v => JS.encode false 4 (JS.ToUint32 v)
  | Float32 f => JS.encode (littleEndian w) 4 (JS.float32_bits f)
  | Int64 v | Uint64 v => JS.encode (littleEndian w) 8 (JS.ToBigUint64 v)
  | Uint64BE v => JS.encode false 8 (JS.ToBigUint64 v)
  | Float64 f => JS.encode (littleEndian w) 8 (JS.float64_bits f)
  | _ => []
  end.

(** The computation [c] run on [w] ends normally and only appends bytes. *)
Definition emits_some (c : M unit) (w : CdrWriter) : Prop := exists bs, emits c w bs.

(** The arguments of a call are sizes and counts where the method takes
    them as such: [align] takes a byte width and a byte count. *)
Definition op_ok (op : Op) : Prop :=
  match op with
  | Align size bytesToWrite => 0 <= size /\ 0 <= default size bytesToWrite
  | _ => True
  end.

(** What a call may do to the writer, whether it returns or throws: the
    written part of the buffer is kept, the cursor does not move back, the
    origin stays or is reset to the cursor. *)
Definition op_post (w w' : CdrWriter) : Prop :=
  wf w' /\ same_config w w'
  /\ offset w <= offset w'
  /\ take (Z.to_nat (offset w)) (buffer w') = take (Z.to_nat (offset w)) (buffer w)
  /\ (origin w' = origin w \/ origin w' = offset w').

(** The part of [string] after the optional length: make room, encode into
    the buffer, terminate, advance. *)
Definition string_body (value : list Z) : M unit :=
  let strlen := Z.of_nat (length value) in
  resizeIfNeeded (strlen + 1) ;;
  w <- this ;;
  on_buffer (encodeInto_view value (offset w) strlen) ;;
  setUint8 (offset w + strlen) 0 ;;
  advance (strlen + 1).

(** The buffer [string_body] leaves. *)
Definition string_buffer (value : list Z) (w : CdrWriter) : list Z :=
  let strlen := Z.of_nat (length value) in
  list_inserts (Z.to_nat (offset w + strlen)) [0]
    (list_inserts (Z.to_nat (offset w)) (JS.encodeInto value strlen)
       (resizeIfNeeded_at (Some (offset w)) (strlen + 1) (buffer w))).

(** A string of ASCII characters. *)
Definition ascii (value : list Z) : Prop := Forall (fun u => 0 <= u < 0x80) value.

(** The XCDR1 member header as the parameter-list format lays it out: the
    short form, 4 bytes, when the id and the size fit, else the extended
    form, 12 bytes. *)
Definition emheader1 (le mustUnderstand : bool) (id objectSize : Z) : list Z :=
  let flag := if mustUnderstand then 0x4000 else 0 in
  if (id <=? 0x3F00) && (objectSize <=? 0xFFFF)
  then JS.encode le 2 (Z.lor flag id mod 2 ^ 16)
       ++ JS.encode le 2 (objectSize mod 2 ^ 16)
  else JS.encode le 2 (Z.lor flag EXTENDED_PID)
       ++ JS.encode le 2 8
       ++ JS.encode le 4 (id mod 2 ^ 32)
       ++ JS.encode le 4 (objectSize mod 2 ^ 32).

(** The first word of the XCDR2 member header, as a uint32. *)
Definition emheader2_word (mustUnderstand : bool) (lengthCode id : Z) : Z :=
  Z.lor (Z.lor (if mustUnderstand then 0x80000000 else 0) (Z.shiftl lengthCode 28)) id
  mod 2 ^ 32.

(** The [switch] of [#memberHeaderV2], after the first word is written. *)
Definition lengthCode_switch (finalLengthCode objectSize : Z) : M unit :=
  if (finalLengthCode =? 0) || (finalLengthCode =? 1)
     || (finalLengthCode =? 2) || (finalLengthCode =? 3) then
    let shouldBeSize := lengthCodeToObjectSizes finalLengthCode in
    if negb (objectSize =? shouldBeSize) then throw BadLengthCode else ret tt
  else if (finalLengthCode =? 4) || (finalLengthCode =? 5) then
    uint32 objectSize
  else if finalLengthCode =? 6 then
    if negb (Z.rem objectSize 4 =? 0) then throw BadLengthCode
    else uint32 (JS.sar objectSize 2)
  else if finalLengthCode =? 7 then
    if negb (Z.rem objectSize 8 =? 0) then throw BadLengthCode
    else uint32 (JS.sar objectSize 3)
  else throw BadLengthCode.

(** ** Example writers *)

(** [new CdrWriter({ kind })] on a little-endian host. *)
Definition new_writer (kind : EncapsulationKind) : Error + CdrWriter :=
  constructor false {| opt_buffer := None; opt_size := None; opt_kind := Some kind |}.

(** The writer [new CdrWriter({ kind })] returns: sixteen bytes, the header
    written, both cursors at 4. *)
Definition fresh (kind : EncapsulationKind) : CdrWriter :=
  let info := getEncapsulationKindInfo kind in
  {| littleEndian := info_littleEndian info;
     hostLittleEndian := true;
     isCDR2 := info_isCDR2 info;
     eightByteAlignment := if info_isCDR2 info then 4 else 8;
     buffer := [0; kind_byte kind; 0; 0; 0; 0; 0; 0; 0; 0; 0; 0; 0; 0; 0; 0];
     offset := 4;
     origin := 4 |}.

(** A computation that throws on [w] leaves the cursor and the output
    where they were. *)
Definition error_leaves_cursor (c : M unit) (w : CdrWriter) : Prop :=
  forall e w', c w = (inl e, w') -> offset w' = offset w /\ data w' = data w.

(** ** The getter [kind] *)

(** [DataView.prototype.getUint8(byteOffset)]. *)
Definition getUint8 (byteOffset : Z) (buf : list Z) : Error + Z :=
  if (0 <=? byteOffset) && (byteOffset + 1 <=? byteLength buf)
  then match buf !! Z.to_nat byteOffset with
       | Some b => inr b
       | None => inl RangeError
       end
  else inl RangeError.

(** The getter [kind]: the byte at position 1. *)
Definition kind (w : CdrWriter) : Error + Z := getUint8 1 (buffer w).

(** ** Relations every method keeps *)

(** Whatever the writer and the outcome, running [c] relates the writer
    before to the writer after by [R]. *)
Definition keeps (R : CdrWriter -> CdrWriter -> Prop) {A : Type} (c : M A) : Prop :=
  forall w r w', c w = (r, w') -> R w w'.

(** The capacity did not shrink and the configuration is the same. *)
Definition capacity_config (w w' : CdrWriter) : Prop :=
  byteLength (buffer w) <= byteLength (buffer w') /\ same_config w w'.

(** The origin is the same. *)
Definition same_origin (w w' : CdrWriter) : Prop := origin w' = origin w.

(** A call of [emHeader]. *)
Definition is_emHeader (op : Op) : bool :=
  match op with EmHeader _ _ _ _ => true | _ => false end.

(** From [w] to [w']: the written part of the buffer is kept and the
    cursor did not move back. *)
Definition extends (w w' : CdrWriter) : Prop :=
  wf w'
  /\ offset w <= offset w'
  /\ take (Z.to_nat (offset w)) (buffer w') = take (Z.to_nat (offset w)) (buffer w).

(** ** Arrays and strings, byte by byte *)

(** The count written before an array or a string when [writeLength] is
    set: padding to a multiple of 4, then the uint32. *)
Definition length_prefix (w : CdrWriter) (writeLength : bool) (n : Z) : list Z :=
  if writeLength
  then zeros (padding w 4) ++ JS.encode (littleEndian w) 4 (JS.ToUint32 n)
  else [].

(** The condition of the fast path of the array methods. *)
Definition fast_path {A} (w : CdrWriter) (value : ArrayArg A) : bool :=
  instanceof_typed value
  && eqb (littleEndian w) (hostLittleEndian w)
  && (array_length value >=? BUFFER_COPY_THRESHOLD).

(** For a call of an array method of width two and more: the width of an
    element, the alignment of the scalar of the element type, the bit
    patterns of the elements, whether the fast path is taken and whether
    the count is written. *)
Definition array_parts (w : CdrWriter) (op : Op) : option (Z * Z * list Z * bool * bool) :=
  match op with
  | Int16Array v wl | Uint16Array v wl =>
      Some (2, 2, map JS.ToUint16 (elements v), fast_path w v, wl)
  | Int32Array v wl | Uint32Array v wl =>
      Some (4, 4, map JS.ToUint32 (elements v), fast_path w v, wl)
  | Float32Array v wl =>
      Some (4, 4, map JS.float32_bits (elements v), fast_path w v, wl)
  | Int64Array v wl | Uint64Array v wl =>
      Some (8, eightByteAlignment w, map JS.ToBigUint64 (elements v), fast_path w v, wl)
  | Float64Array v wl =>
      Some (8, eightByteAlignment w, map JS.float64_bits (elements v), fast_path w v, wl)
  | _ => None
  end.

(** The elements of an array as they are stored: [width] bytes each, one
    after the other, in the byte order [le]. *)
Definition element_bytes (le : bool) (width : Z) (patterns : list Z) : list Z :=
  flat_map (JS.encode le (Z.to_nat width)) patterns.

(** The padding [align] computes when the cursor is [delta] bytes further. *)
Definition padding_after (w : CdrWriter) (delta size : Z) : Z :=
  padding (set_offset (offset w + delta) w) size.


(** The [len] bytes a buffer holds from the position [from] on, where a
    position past its end holds 0, as it does once [#resize] has allocated
    it. *)
Definition bytes_at (buf : list Z) (from len : Z) : list Z :=
  take (Z.to_nat len) (drop (Z.to_nat from) (buf ++ zeros (from + len))).
(** ** Lists and bytes *)

Lemma byteLength_app (a b : list Z) : byteLength (a ++ b) = byteLength a + byteLength b.
Proof. unfold byteLength. rewrite length_app. lia. Qed.

Lemma byteLength_nonneg (a : list Z) : 0 <= byteLength a.
Proof. unfold byteLength. lia. Qed.

Lemma byteLength_zeros n : 0 <= n -> byteLength (zeros n) = n.
Proof. intros. unfold byteLength, zeros. rewrite length_replicate. lia. Qed.

Lemma byteLength_inserts i (k l : list Z) : byteLength (list_inserts i k l) = byteLength l.
Proof. unfold byteLength. by rewrite length_inserts. Qed.

Lemma length_le_bytes n v : length (JS.le_bytes n v) = n.
Proof. revert v. induction n as [|n IH]; intros v; simpl; [done | by rewrite IH]. Qed.

Lemma byteLength_encode le n v : byteLength (JS.encode le n v) = Z.of_nat n.
Proof.
  unfold byteLength, JS.encode. destruct le.
  - by rewrite length_le_bytes.
  - by rewrite length_reverse, length_le_bytes.
Qed.

(** Storing [k] at [i] rewrites exactly the positions [i .. i + |k|). *)
Lemma list_inserts_split (i : nat) (k l : list Z) :
  (i + length k <= length l)%nat ->
  list_inserts i k l = take i l ++ k ++ drop (i + length k) l.
Proof.
  intros Hlen.
  rewrite <- (take_drop i l) at 1.
  assert (Hi : length (take i l) = i) by (rewrite length_take; lia).
  rewrite <- Hi at 1.
  replace (length (take i l)) with (length (take i l) + 0)%nat by lia.
  rewrite list_inserts_app_r. f_equal.
  rewrite <- (take_drop (length k) (drop i l)) at 1.
  rewrite list_inserts_0_r.
  - by rewrite drop_drop.
  - rewrite length_take, length_drop. lia.
Qed.

Lemma take_inserts_below (i n : nat) (k l : list Z) :
  (n <= i)%nat -> take n (list_inserts i k l) = take n l.
Proof.
  intros Hn. apply list_eq. intros j.
  destruct (decide (j < n)%nat) as [Hj|Hj].
  - rewrite !lookup_take_lt by done. apply list_lookup_inserts_lt. lia.
  - rewrite !lookup_take_ge by lia. done.
Qed.

Lemma take_inserts_end (i : nat) (k l : list Z) :
  (i + length k <= length l)%nat ->
  take (i + length k) (list_inserts i k l) = take i l ++ k.
Proof.
  intros Hlen. rewrite list_inserts_split by done.
  rewrite app_assoc.
  apply take_app_length'. rewrite length_app, length_take. lia.
Qed.

(** ** Growth *)

Lemma resize_extends capacity buf :
  resize capacity buf = buf ++ zeros (capacity - byteLength buf).
Proof.
  unfold resize, zeros. destruct (Z.geb_spec (byteLength buf) capacity) as [H|H].
  - replace (Z.to_nat (capacity - byteLength buf)) with 0%nat by lia.
    simpl. by rewrite app_nil_r.
  - done.
Qed.

Lemma byteLength_resize capacity buf :
  byteLength (resize capacity buf) = Z.max capacity (byteLength buf).
Proof.
  unfold resize. destruct (Z.geb_spec (byteLength buf) capacity) as [H|H]; [lia|].
  rewrite byteLength_app. unfold byteLength at 2. rewrite length_replicate. lia.
Qed.

(** What [#resizeIfNeeded] does to the buffer once [#offset] is assigned:
    nothing when the bytes fit, otherwise the buffer is extended with zeros
    to [max (2 * capacity) (offset + additionalBytes)] bytes. *)
Lemma resizeIfNeeded_at_spec o n buf :
  let buf' := resizeIfNeeded_at (Some o) n buf in
  (byteLength buf < o + n ->
     byteLength buf' = Z.max (2 * byteLength buf) (o + n)
     /\ buf' = buf ++ zeros (byteLength buf' - byteLength buf))
  /\ (o + n <= byteLength buf -> buf' = buf).
Proof.
  simpl. unfold resizeIfNeeded_at.
  destruct (Z.ltb_spec (byteLength buf) (o + n)) as [H|H]; split; intros H'; try lia; try done.
  set (c := if byteLength buf * 2 >? o + n then byteLength buf * 2 else o + n).
  assert (Hc : c = Z.max (2 * byteLength buf) (o + n)).
  { unfold c. destruct (Z.gtb_spec (byteLength buf * 2) (o + n)); lia. }
  rewrite byteLength_resize. split; [lia|].
  rewrite resize_extends. f_equal. f_equal. lia.
Qed.

Lemma resizeIfNeeded_at_extends o n buf :
  exists k, 0 <= k /\ resizeIfNeeded_at (Some o) n buf = buf ++ zeros k
            /\ o + n <= byteLength buf + k.
Proof.
  destruct (resizeIfNeeded_at_spec o n buf) as [Hgrow Hfit].
  destruct (Z.lt_ge_cases (byteLength buf) (o + n)) as [H|H].
  - destruct (Hgrow H) as [Hlen Heq].
    exists (byteLength (resizeIfNeeded_at (Some o) n buf) - byteLength buf).
    split; [rewrite Hlen; lia|]. split; [done|lia].
  - exists 0. rewrite (Hfit H). unfold zeros. simpl. rewrite app_nil_r.
    repeat split; [lia | lia].
Qed.

(** ** Appending to the output *)

Lemma appended_refl w : offset w <= byteLength (buffer w) -> appended w w [].
Proof.
  intros H. unfold appended, same_config. rewrite app_nil_r.
  change (byteLength []) with 0. repeat split; lia || done.
Qed.

Lemma appended_trans w w1 w2 a b :
  appended w w1 a -> appended w1 w2 b -> appended w w2 (a ++ b).
Proof.
  intros (Hd1 & Ho1 & Hc1 & Hg1 & Hl1 & Hh1 & Hi1 & He1)
         (Hd2 & Ho2 & Hc2 & Hg2 & Hl2 & Hh2 & Hi2 & He2).
  unfold appended, same_config. rewrite byteLength_app.
  repeat split; try congruence; try lia.
  by rewrite Hd2, Hd1, app_assoc.
Qed.

Lemma appended_wf w w' bs : wf w -> appended w w' bs -> wf w'.
Proof.
  intros (H0 & [H1 H2] & H8) (Hd & Ho & Hc & Hg & Hl & Hh & Hi & He).
  pose proof (byteLength_nonneg bs).
  unfold wf, cursor_inv. rewrite Hg, Hi, He. repeat split; lia || done.
Qed.

(** Nothing below the old cursor changes. *)
Lemma appended_frame w w' bs :
  0 <= offset w <= byteLength (buffer w) ->
  appended w w' bs ->
  take (Z.to_nat (offset w)) (buffer w') = take (Z.to_nat (offset w)) (buffer w).
Proof.
  intros Hw (Hd & Ho & Hc & _).
  pose proof (byteLength_nonneg bs).
  change (take (Z.to_nat (offset w)) (buffer w)) with (data w).
  assert (Hlen : length (data w) = Z.to_nat (offset w)).
  { unfold data. rewrite length_take. unfold byteLength in Hw. lia. }
  transitivity (take (Z.to_nat (offset w)) (data w')).
  - unfold data. rewrite take_take. f_equal. lia.
  - rewrite Hd. by apply take_app_length'.
Qed.

Lemma emits_bind (c1 : M unit) (k : unit -> M unit) w a b :
  emits c1 w a ->
  (forall w1, c1 w = (inr tt, w1) -> emits (k tt) w1 b) ->
  emits (bind c1 k) w (a ++ b).
Proof.
  intros (w1 & Hrun & Happ) Hk.
  destruct (Hk w1 Hrun) as (w2 & Hrun2 & Happ2).
  exists w2. split.
  - unfold bind. by rewrite Hrun.
  - by eapply appended_trans.
Qed.

Lemma emits_this (k : CdrWriter -> M unit) w bs :
  emits (k w) w bs -> emits (bind this k) w bs.
Proof. done. Qed.

Lemma emits_ret w : offset w <= byteLength (buffer w) -> emits (ret tt) w [].
Proof. intros H. exists w. split; [done | by apply appended_refl]. Qed.

(** ** Alignment *)

Lemma padding_spec w size :
  origin w <= offset w -> 0 < size ->
  0 <= padding w size < size /\ (offset w + padding w size - origin w) mod size = 0.
Proof.
  intros Ho Hs. unfold padding, JS.rem.
  destruct (Z.eqb_spec size 0) as [?|_]; [lia|].
  rewrite Z.rem_mod_nonneg by lia.
  pose proof (Z.mod_pos_bound (offset w - origin w) size Hs) as Hb.
  pose proof (Z.div_mod (offset w - origin w) size ltac:(lia)) as Hdm.
  destruct (Z.gtb_spec ((offset w - origin w) mod size) 0) as [Hr|Hr].
  - split; [lia|].
    replace (offset w + (size - (offset w - origin w) mod size) - origin w)
      with (((offset w - origin w) / size + 1) * size) by lia.
    apply Z_mod_mult.
  - split; [lia|]. rewrite Z.add_0_r. lia.
Qed.

Lemma padding_nonneg w size : origin w <= offset w -> 0 <= size -> 0 <= padding w size.
Proof.
  intros Ho Hs. destruct (Z.eq_dec size 0) as [->|Hne].
  - done.
  - pose proof (padding_spec w size Ho ltac:(lia)). lia.
Qed.

Lemma padding_aligned w size :
  origin w <= offset w -> 0 < size -> (offset w - origin w) mod size = 0 ->
  padding w size = 0.
Proof.
  intros Ho Hs Hm. unfold padding, JS.rem.
  destruct (Z.eqb_spec size 0) as [?|_]; [lia|].
  rewrite Z.rem_mod_nonneg by lia. by rewrite Hm.
Qed.

Lemma align_run size b w : align size b w = (inr tt, aligned size (default size b) w).
Proof. reflexivity. Qed.

Lemma array_fill_zeros (off p : Z) (buf : list Z) :
  0 <= off -> 0 <= p -> off + p <= byteLength buf ->
  array_fill 0 off (off + p) buf = list_inserts (Z.to_nat off) (zeros p) buf.
Proof.
  intros Ho Hp Hl. unfold array_fill, relative_index, zeros.
  destruct (Z.ltb_spec off 0); [lia|]. destruct (Z.ltb_spec (off + p) 0); [lia|].
  rewrite !Z.min_l by lia. do 2 f_equal. lia.
Qed.

(** [align] appends the padding, all zero, and leaves room for the bytes
    announced. *)
Lemma aligned_spec w size btw :
  wf w -> 0 <= size -> 0 <= btw ->
  appended w (aligned size btw w) (zeros (padding w size))
  /\ offset (aligned size btw w) + btw <= byteLength (buffer (aligned size btw w)).
Proof.
  intros (H0 & [H1 H2] & H8) Hs Hb.
  pose proof (padding_nonneg w size H1 Hs) as Hp.
  unfold aligned. set (p := padding w size) in *.
  destruct (resizeIfNeeded_at_extends (offset w) (p + btw) (buffer w))
    as (k & Hk & -> & Hroom).
  assert (Hlen : byteLength (buffer w ++ zeros k) = byteLength (buffer w) + k).
  { by rewrite byteLength_app, byteLength_zeros. }
  rewrite array_fill_zeros by lia.
  unfold appended, same_config, data. simpl.
  rewrite byteLength_inserts, byteLength_zeros, Hlen by lia.
  repeat split; try lia; try done.
  replace (Z.to_nat (offset w + p)) with (Z.to_nat (offset w) + length (zeros p))%nat.
  2:{ unfold zeros. rewrite length_replicate. lia. }
  rewrite take_inserts_end.
  - f_equal. apply take_app_le. unfold byteLength in H2. lia.
  - rewrite length_app. unfold zeros. rewrite !length_replicate.
    unfold byteLength in *. lia.
Qed.

Lemma align_emits w size b :
  wf w -> 0 <= size -> 0 <= default size b ->
  emits (align size b) w (zeros (padding w size)).
Proof.
  intros Hw Hs Hb. exists (aligned size (default size b) w).
  split; [apply align_run | by apply aligned_spec].
Qed.

Lemma resizeIfNeeded_emits w n :
  offset w <= byteLength (buffer w) ->
  exists w', resizeIfNeeded n w = (inr tt, w') /\ appended w w' []
             /\ offset w + n <= byteLength (buffer w').
Proof.
  intros Hw.
  exists (set_buffer (resizeIfNeeded_at (Some (offset w)) n (buffer w)) w).
  split; [reflexivity|].
  destruct (resizeIfNeeded_at_extends (offset w) n (buffer w)) as (k & Hk & -> & Hroom).
  unfold appended, same_config, data. simpl.
  rewrite byteLength_app, byteLength_zeros, app_nil_r by lia.
  change (byteLength []) with 0.
  repeat split; try lia; try done.
  apply take_app_le. unfold byteLength in Hw. lia.
Qed.

(** ** Stores *)

Lemma stored_appended w off bs n :
  off = offset w -> n = byteLength bs ->
  0 <= offset w -> offset w + n <= byteLength (buffer w) ->
  appended w (set_offset (offset w + n) (set_buffer (list_inserts (Z.to_nat off) bs (buffer w)) w)) bs.
Proof.
  intros -> -> H0 Hroom.
  unfold appended, same_config, data. simpl. rewrite byteLength_inserts.
  repeat split; try lia; try done.
  unfold byteLength in *.
  replace (Z.to_nat (offset w + Z.of_nat (length bs)))
    with (Z.to_nat (offset w) + length bs)%nat by lia.
  apply take_inserts_end. lia.
Qed.

Lemma view_store_emits w bs n :
  n = byteLength bs -> 0 <= offset w -> offset w + n <= byteLength (buffer w) ->
  emits (on_buffer (view_store (offset w) bs) ;; advance n) w bs.
Proof.
  intros Hn H0 Hroom.
  exists (set_offset (offset w + n)
            (set_buffer (list_inserts (Z.to_nat (offset w)) bs (buffer w)) w)).
  split.
  - unfold bind, on_buffer, view_store.
    destruct (Z.leb_spec 0 (offset w)); [|lia].
    destruct (Z.leb_spec (offset w + byteLength bs) (byteLength (buffer w))); [|lia].
    reflexivity.
  - by apply stored_appended.
Qed.

Lemma array_store_emits w src n :
  n = byteLength src -> 0 <= offset w -> offset w + n <= byteLength (buffer w) ->
  emits (on_buffer (array_store src (offset w)) ;; advance n) w (map JS.ToUint8 src).
Proof.
  intros Hn H0 Hroom.
  exists (set_offset (offset w + n)
            (set_buffer (list_inserts (Z.to_nat (offset w)) (map JS.ToUint8 src) (buffer w)) w)).
  split.
  - unfold bind, on_buffer, array_store.
    destruct (Z.leb_spec 0 (offset w)); [|lia].
    destruct (Z.leb_spec (offset w + byteLength src) (byteLength (buffer w))); [|lia].
    reflexivity.
  - apply stored_appended; try done. unfold byteLength. rewrite length_map. done.
Qed.

(** ** Scalars *)

Lemma same_config_aligned size btw w : same_config w (aligned size btw w).
Proof. by unfold same_config. Qed.

(** The pattern of every scalar of width two and more: align, store at the
    cursor, advance. *)
Lemma aligned_store_emits w size (b : option Z) n (bs : CdrWriter -> list Z) :
  wf w -> 0 <= size -> default size b = n ->
  (forall w1, same_config w w1 -> bs w1 = bs w) ->
  n = byteLength (bs w) ->
  emits (align size b ;; w1 <- this ;; on_buffer (view_store (offset w1) (bs w1)) ;; advance n)
        w (zeros (padding w size) ++ bs w).
Proof.
  intros Hw Hs Hb Hbs Hn.
  pose proof (byteLength_nonneg (bs w)) as Hnn.
  apply emits_bind; [apply align_emits; try done; lia|].
  intros w1 Hrun. rewrite align_run in Hrun. injection Hrun as <-.
  rewrite Hb.
  destruct (aligned_spec w size n Hw Hs ltac:(lia)) as [Happ Hroom].
  pose proof (appended_wf _ _ _ Hw Happ) as (H0 & [H1 H2] & _).
  apply emits_this.
  rewrite (Hbs _ (same_config_aligned size n w)).
  apply view_store_emits; try done. lia.
Qed.

Ltac aligned_scalar size b n bs :=
  match goal with
  | |- emits _ ?w _ =>
      apply (aligned_store_emits w size b n bs);
      [ done | lia | done
      | (intros ? (? & ? & ? & ?); simpl; congruence)
      | (symmetry; apply byteLength_encode) ]
  end.

Lemma int16_emits w v : wf w ->
  emits (int16 v) w (zeros (padding w 2) ++ JS.encode (littleEndian w) 2 (JS.ToUint16 v)).
Proof.
  intros Hw. unfold int16, setInt16.
  aligned_scalar 2 (@None Z) 2 (fun w1 => JS.encode (littleEndian w1) 2 (JS.ToUint16 v)).
Qed.

Lemma uint16_emits w v : wf w ->
  emits (uint16 v) w (zeros (padding w 2) ++ JS.encode (littleEndian w) 2 (JS.ToUint16 v)).
Proof.
  intros Hw. unfold uint16, setUint16.
  aligned_scalar 2 (@None Z) 2 (fun w1 => JS.encode (littleEndian w1) 2 (JS.ToUint16 v)).
Qed.

Lemma uint16BE_emits w v : wf w ->
  emits (uint16BE v) w (zeros (padding w 2) ++ JS.encode false 2 (JS.ToUint16 v)).
Proof.
  intros Hw. unfold uint16BE, setUint16.
  aligned_scalar 2 (@None Z) 2 (fun _ : CdrWriter => JS.encode false 2 (JS.ToUint16 v)).
Qed.

Lemma int32_emits w v : wf w ->
  emits (int32 v) w (zeros (padding w 4) ++ JS.encode (littleEndian w) 4 (JS.ToUint32 v)).
Proof.
  intros Hw. unfold int32, setInt32.
  aligned_scalar 4 (@None Z) 4 (fun w1 => JS.encode (littleEndian w1) 4 (JS.ToUint32 v)).
Qed.

Lemma uint32_emits w v : wf w ->
  emits (uint32 v) w (zeros (padding w 4) ++ JS.encode (littleEndian w) 4 (JS.ToUint32 v)).
Proof.
  intros Hw. unfold uint32, setUint32.
  aligned_scalar 4 (@None Z) 4 (fun w1 => JS.encode (littleEndian w1) 4 (JS.ToUint32 v)).
Qed.

Lemma uint32BE_emits w v : wf w ->
  emits (uint32BE v) w (zeros (padding w 4) ++ JS.encode false 4 (JS.ToUint32 v)).
Proof.
  intros Hw. unfold uint32BE, setUint32.
  aligned_scalar 4 (@None Z) 4 (fun _ : CdrWriter => JS.encode false 4 (JS.ToUint32 v)).
Qed.

Lemma float32_emits w f : wf w ->
  emits (float32 f) w (zeros (padding w 4) ++ JS.encode (littleEndian w) 4 (JS.float32_bits f)).
Proof.
  intros Hw. unfold float32, setFloat32.
  aligned_scalar 4 (@None Z) 4 (fun w1 => JS.encode (littleEndian w1) 4 (JS.float32_bits f)).
Qed.

Lemma eightByteAlignment_nonneg w : wf w -> 0 <= eightByteAlignment w.
Proof. intros (_ & _ & ->). destruct (isCDR2 w); lia. Qed.

Lemma int64_emits w v : wf w ->
  emits (int64 v) w (zeros (padding w (eightByteAlignment w))
                     ++ JS.encode (littleEndian w) 8 (JS.ToBigUint64 v)).
Proof.
  intros Hw. pose proof (eightByteAlignment_nonneg w Hw).
  unfold int64, setBigInt64. apply emits_this.
  aligned_scalar (eightByteAlignment w) (Some 8) 8
    (fun w1 => JS.encode (littleEndian w1) 8 (JS.ToBigUint64 v)).
Qed.

Lemma uint64_emits w v : wf w ->
  emits (uint64 v) w (zeros (padding w (eightByteAlignment w))
                      ++ JS.encode (littleEndian w) 8 (JS.ToBigUint64 v)).
Proof.
  intros Hw. pose proof (eightByteAlignment_nonneg w Hw).
  unfold uint64, setBigUint64. apply emits_this.
  aligned_scalar (eightByteAlignment w) (Some 8) 8
    (fun w1 => JS.encode (littleEndian w1) 8 (JS.ToBigUint64 v)).
Qed.

Lemma uint64BE_emits w v : wf w ->
  emits (uint64BE v) w (zeros (padding w (eightByteAlignment w))
                        ++ JS.encode false 8 (JS.ToBigUint64 v)).
Proof.
  intros Hw. pose proof (eightByteAlignment_nonneg w Hw).
  unfold uint64BE, setBigUint64. apply emits_this.
  aligned_scalar (eightByteAlignment w) (Some 8) 8
    (fun _ : CdrWriter => JS.encode false 8 (JS.ToBigUint64 v)).
Qed.

Lemma float64_emits w f : wf w ->
  emits (float64 f) w (zeros (padding w (eightByteAlignment w))
                       ++ JS.encode (littleEndian w) 8 (JS.float64_bits f)).
Proof.
  intros Hw. pose proof (eightByteAlignment_nonneg w Hw).
  unfold float64, setFloat64. apply emits_this.
  aligned_scalar (eightByteAlignment w) (Some 8) 8
    (fun w1 => JS.encode (littleEndian w1) 8 (JS.float64_bits f)).
Qed.

(** The two one-byte scalars do not align: they make room for one byte
    and store it. *)
Lemma byte_store_emits w bs :
  wf w -> byteLength bs = 1 ->
  emits (resizeIfNeeded 1 ;; w1 <- this ;; on_buffer (view_store (offset w1) bs) ;; advance 1)
        w bs.
Proof.
  intros Hw Hbs. destruct Hw as (H0 & [H1 H2] & H8).
  destruct (resizeIfNeeded_emits w 1 H2) as (w1 & Hrun & Happ & Hroom).
  change bs with ([] ++ bs).
  apply emits_bind; [by exists w1|].
  intros w1' Hrun'. rewrite Hrun in Hrun'. injection Hrun' as <-.
  apply emits_this.
  destruct Happ as (_ & Ho & _). change (byteLength []) with 0 in Ho.
  apply view_store_emits; try done; lia.
Qed.

Lemma int8_emits w v : wf w -> emits (int8 v) w (JS.encode true 1 (JS.ToUint8 v)).
Proof. intros Hw. unfold int8, setInt8. by apply byte_store_emits. Qed.

Lemma uint8_emits w v : wf w -> emits (uint8 v) w (JS.encode true 1 (JS.ToUint8 v)).
Proof. intros Hw. unfold uint8, setUint8. by apply byte_store_emits. Qed.

Lemma byteLength_scalar_value w op width W :
  scalar_shape (isCDR2 w) op = Some (width, W) -> byteLength (scalar_value w op) = width.
Proof.
  destruct op; intros H; simpl in H; try discriminate; injection H as <- <-;
    unfold scalar_value; by rewrite byteLength_encode.
Qed.


(** The bytes of every scalar call: zero padding up to its alignment, then
    the value. *)
Lemma scalar_call_emits w op width W :
  wf w -> scalar_shape (isCDR2 w) op = Some (width, W) ->
  emits (call op) w (zeros (padding w W) ++ scalar_value w op).
Proof.
  intros Hw Hshape. pose proof Hw as (_ & [Hoo _] & H8).
  assert (Hp1 : padding w 1 = 0) by (pose proof (padding_spec w 1 Hoo); lia).
  destruct op; simpl in Hshape; try discriminate;
    injection Hshape as <- <-; simpl call; simpl scalar_value; rewrite <- ?H8.
  - rewrite Hp1. by apply int8_emits.
  - rewrite Hp1. by apply uint8_emits.
  - by apply int16_emits.
  - by apply uint16_emits.
  - by apply int32_emits.
  - by apply uint32_emits.
  - by apply int64_emits.
  - by apply uint64_emits.
  - by apply uint16BE_emits.
  - by apply uint32BE_emits.
  - by apply uint64BE_emits.
  - by apply float32_emits.
  - by apply float64_emits.
Qed.

Lemma scalar_write_shape w op width W :
  wf w -> scalar_shape (isCDR2 w) op = Some (width, W) ->
  exists bs, emits (call op) w bs.
Proof. intros Hw Hs. eexists. by eapply scalar_call_emits. Qed.

Lemma scalar_shape_divides cdr2 op width W :
  scalar_shape cdr2 op = Some (width, W) -> 0 < W /\ width mod W = 0.
Proof.
  destruct op; simpl; intros H; try discriminate; injection H as <- <-;
    try destruct cdr2; done.
Qed.


(** ** Every method appends *)

Lemma emits_some_bind (c1 : M unit) (k : unit -> M unit) w :
  wf w -> emits_some c1 w ->
  (forall w1, wf w1 -> same_config w w1 -> emits_some (k tt) w1) ->
  emits_some (bind c1 k) w.
Proof.
  intros Hw (a & w1 & Hrun & Happ) Hk.
  destruct (Hk w1) as (b & Hb).
  - by eapply appended_wf.
  - by destruct Happ as (_ & _ & _ & _ & ?).
  - exists (a ++ b). apply emits_bind; [by exists w1|].
    intros w1' Hrun'. rewrite Hrun in Hrun'. by injection Hrun' as <-.
Qed.

Lemma emits_some_ret w : wf w -> emits_some (ret tt) w.
Proof. intros (_ & [_ H] & _). exists []. by apply emits_ret. Qed.

Lemma uint32_emits_some w v : wf w -> emits_some (uint32 v) w.
Proof. intros Hw. eexists. by apply uint32_emits. Qed.

Lemma uint16_emits_some w v : wf w -> emits_some (uint16 v) w.
Proof. intros Hw. eexists. by apply uint16_emits. Qed.

Lemma align_emits_some w size b :
  wf w -> 0 <= size -> 0 <= default size b -> emits_some (align size b) w.
Proof. intros. eexists. by apply align_emits. Qed.

Lemma scalar_emits_some w op :
  wf w -> is_Some (scalar_shape (isCDR2 w) op) -> emits_some (call op) w.
Proof.
  intros Hw [[width W] Hshape].
  destruct (scalar_write_shape w op width W Hw Hshape) as (bs & Hbs). by exists bs.
Qed.

Lemma bind_ok {A B} (c : M A) (k : A -> M B) w a w1 :
  c w = (inr a, w1) -> bind c k w = k a w1.
Proof. intros H. unfold bind. by rewrite H. Qed.

Lemma appended_of_frame w w' :
  0 <= offset w -> offset w <= offset w' -> offset w' <= byteLength (buffer w') ->
  take (Z.to_nat (offset w)) (buffer w') = take (Z.to_nat (offset w)) (buffer w) ->
  origin w' = origin w -> same_config w w' ->
  appended w w' (drop (Z.to_nat (offset w)) (data w')).
Proof.
  intros H0 Hle Hcap Hframe Hg Hc. unfold appended. repeat split; try done.
  - rewrite <- (take_drop (Z.to_nat (offset w)) (data w')) at 1. f_equal.
    unfold data. rewrite take_take, <- Hframe. f_equal. lia.
  - unfold byteLength in *. unfold data. rewrite length_drop, length_take. lia.
  - apply Hc.
  - apply Hc.
  - apply Hc.
  - apply Hc.
Qed.

(** *** Strings *)

Lemma byteLength_encodeInto_points cps room :
  0 <= room -> byteLength (JS.encodeInto_points cps room) <= room.
Proof.
  revert room. induction cps as [|cp cps IH]; intros room Hr; simpl; [done|].
  destruct (Z.leb_spec (Z.of_nat (length (JS.utf8_of_code_point cp.1))) room) as [H|H].
  - rewrite byteLength_app. specialize (IH (room - Z.of_nat (length (JS.utf8_of_code_point cp.1)))).
    unfold byteLength in *. lia.
  - done.
Qed.

Lemma bind_this {B} (k : CdrWriter -> M B) w : bind this k w = k w w.
Proof. reflexivity. Qed.

Lemma bind_this_emits (k : CdrWriter -> M unit) w bs :
  emits (bind this k) w bs <-> emits (k w) w bs.
Proof. done. Qed.

Lemma on_buffer_ok f w b : f (buffer w) = inr b -> on_buffer f w = (inr tt, set_buffer b w).
Proof. intros H. unfold on_buffer. by rewrite H. Qed.

Lemma view_store_ok off bs buf :
  0 <= off -> off + byteLength bs <= byteLength buf ->
  view_store off bs buf = inr (list_inserts (Z.to_nat off) bs buf).
Proof.
  intros H0 H1. unfold view_store.
  destruct (Z.leb_spec 0 off); [|lia].
  by destruct (Z.leb_spec (off + byteLength bs) (byteLength buf)); [|lia].
Qed.

Lemma encodeInto_view_ok value off len buf :
  0 <= off -> off + len <= byteLength buf ->
  encodeInto_view value off len buf
  = inr (list_inserts (Z.to_nat off) (JS.encodeInto value len) buf).
Proof.
  intros H0 H1. unfold encodeInto_view.
  destruct (Z.leb_spec 0 off); [|lia].
  by destruct (Z.leb_spec (off + len) (byteLength buf)); [|lia].
Qed.

Lemma string_body_run w value :
  wf w ->
  let strlen := Z.of_nat (length value) in
  string_body value w
  = (inr tt, set_offset (offset w + (strlen + 1)) (set_buffer (string_buffer value w) w))
  /\ offset w + strlen + 1 <= byteLength (string_buffer value w).
Proof.
  intros (H0 & [H1 H2] & H8) strlen.
  destruct (resizeIfNeeded_at_extends (offset w) (strlen + 1) (buffer w))
    as (k & Hk & Hbuf & Hroom).
  set (buf1 := resizeIfNeeded_at (Some (offset w)) (strlen + 1) (buffer w)) in *.
  assert (Hlen : byteLength buf1 = byteLength (buffer w) + k).
  { by rewrite Hbuf, byteLength_app, byteLength_zeros. }
  set (buf2 := list_inserts (Z.to_nat (offset w)) (JS.encodeInto value strlen) buf1).
  split.
  - unfold string_body. fold strlen.
    rewrite (bind_ok _ _ w tt (set_buffer buf1 w) eq_refl).
    rewrite bind_this.
    rewrite (bind_ok _ _ _ tt (set_buffer buf2 w)).
    2:{ apply (on_buffer_ok _ (set_buffer buf1 w)). simpl.
        apply encodeInto_view_ok; lia. }
    unfold setUint8.
    rewrite (bind_ok _ _ _ tt (set_buffer (string_buffer value w) w)).
    2:{ apply (on_buffer_ok _ (set_buffer buf2 w)). simpl.
        apply view_store_ok; [lia|]. unfold buf2. rewrite byteLength_inserts.
        change (byteLength [JS.ToUint8 0 `mod` 256]) with 1. lia. }
    reflexivity.
  - unfold string_buffer. fold strlen. fold buf1. rewrite !byteLength_inserts, Hlen. lia.
Qed.

Lemma string_buffer_frame w value :
  wf w ->
  take (Z.to_nat (offset w)) (string_buffer value w) = take (Z.to_nat (offset w)) (buffer w).
Proof.
  intros (H0 & [H1 H2] & H8). unfold string_buffer.
  destruct (resizeIfNeeded_at_extends (offset w) (Z.of_nat (length value) + 1) (buffer w))
    as (k & Hk & -> & Hroom).
  rewrite !take_inserts_below by lia.
  apply take_app_le. unfold byteLength in H2. lia.
Qed.

Lemma string_body_emits_some w value : wf w -> emits_some (string_body value) w.
Proof.
  intros Hw. destruct (string_body_run w value Hw) as [Hrun Hroom].
  pose proof Hw as (H0 & [H1 H2] & H8).
  eexists. eexists. split; [exact Hrun|].
  apply appended_of_frame; simpl; try done; try lia.
  by apply string_buffer_frame.
Qed.

Lemma string_unfold value writeLength :
  string value writeLength
  = ((if writeLength then uint32 (Z.of_nat (length value) + 1) else ret tt) ;;
     string_body value).
Proof. reflexivity. Qed.

Lemma string_emits_some w value writeLength : wf w -> emits_some (string value writeLength) w.
Proof.
  intros Hw. rewrite string_unfold. apply emits_some_bind; [done| |].
  - destruct writeLength; [by apply uint32_emits_some | by apply emits_some_ret].
  - intros w1 Hw1 _. by apply string_body_emits_some.
Qed.

(** ** Bit operations of the platform, modulo a power of two *)

Lemma ToInt32_mod x : JS.ToInt32 x mod 2 ^ 32 = x mod 2 ^ 32.
Proof.
  unfold JS.ToInt32. rewrite Zminus_mod_idemp_l.
  replace (x + 2 ^ 31 - 2 ^ 31) with x by lia. done.
Qed.

Lemma mod_mod_pow2 x (n m : Z) :
  0 <= n <= m -> (x mod 2 ^ m) mod 2 ^ n = x mod 2 ^ n.
Proof.
  intros H. replace m with (n + (m - n)) by lia.
  rewrite Z.pow_add_r by lia.
  rewrite Z.rem_mul_r by lia.
  rewrite (Z.mul_comm (2 ^ n)), Z_mod_plus_full. apply Z.mod_mod. lia.
Qed.

Lemma ToInt32_mod_pow2 x n : 0 <= n <= 32 -> JS.ToInt32 x mod 2 ^ n = x mod 2 ^ n.
Proof.
  intros H. rewrite <- (mod_mod_pow2 (JS.ToInt32 x) n 32) by done.
  rewrite ToInt32_mod. by apply mod_mod_pow2.
Qed.

Lemma lor_mod_pow2 a b n :
  0 <= n -> Z.lor a b mod 2 ^ n = Z.lor (a mod 2 ^ n) (b mod 2 ^ n).
Proof.
  intros H. rewrite <- !Z.land_ones by done. apply Z.land_lor_distr_l.
Qed.

(** [a | b] stored in an [n]-bit field, [n <= 32], is the bitwise or of the
    integers. *)
Lemma bor_mod_pow2 a b n :
  0 <= n <= 32 -> JS.bor a b mod 2 ^ n = Z.lor a b mod 2 ^ n.
Proof.
  intros H. unfold JS.bor. rewrite lor_mod_pow2 by lia.
  rewrite !ToInt32_mod_pow2 by done. by rewrite <- lor_mod_pow2 by lia.
Qed.

Lemma shl_mod_pow2 a k :
  0 <= k < 32 -> JS.shl a k mod 2 ^ 32 = Z.shiftl a k mod 2 ^ 32.
Proof.
  intros H. unfold JS.shl. rewrite ToInt32_mod.
  rewrite (Z.mod_small k 32) by lia.
  rewrite !Z.shiftl_mul_pow2 by lia.
  rewrite <- Zmult_mod_idemp_l, ToInt32_mod, Zmult_mod_idemp_l. done.
Qed.

Lemma band_ffff x : JS.band x 0xffff mod 2 ^ 16 = x mod 2 ^ 16.
Proof.
  unfold JS.band. change (JS.ToInt32 0xffff) with (Z.ones 16).
  rewrite Z.land_ones by lia. rewrite Z.mod_mod by lia.
  by apply ToInt32_mod_pow2.
Qed.

(** For a size below 2^31, [objectSize >> k] is the quotient by 2^k. *)
Lemma sar_small x k :
  0 <= x < 2 ^ 31 -> 0 <= k < 32 -> JS.sar x k = x / 2 ^ k.
Proof.
  intros Hx Hk. unfold JS.sar, JS.ToInt32.
  rewrite (Z.mod_small k 32) by lia.
  rewrite (Z.mod_small (x + 2 ^ 31)) by lia.
  rewrite Z.shiftr_div_pow2 by lia. f_equal. lia.
Qed.

(** ** Member headers *)

Lemma emits_bind_wf (c1 : M unit) (k : unit -> M unit) w a b :
  wf w -> emits c1 w a ->
  (forall w1, wf w1 -> same_config w w1 ->
              offset w1 = offset w + byteLength a -> origin w1 = origin w ->
              emits (k tt) w1 b) ->
  emits (bind c1 k) w (a ++ b).
Proof.
  intros Hw Hc1 Hk. apply emits_bind; [done|].
  intros w1 Hrun. destruct Hc1 as (w1' & Hrun' & Happ).
  rewrite Hrun in Hrun'. injection Hrun' as <-.
  pose proof (appended_wf _ _ _ Hw Happ).
  destruct Happ as (_ & Ho & _ & Hg & Hc). by apply Hk.
Qed.

Lemma uint16_emits_aligned w v :
  wf w -> (offset w - origin w) mod 2 = 0 ->
  emits (uint16 v) w (JS.encode (littleEndian w) 2 (JS.ToUint16 v)).
Proof.
  intros Hw Hm. pose proof Hw as (_ & [Ho _] & _).
  pose proof (uint16_emits w v Hw) as H.
  by rewrite (padding_aligned w 2 Ho ltac:(lia) Hm) in H.
Qed.

Lemma uint32_emits_aligned w v :
  wf w -> (offset w - origin w) mod 4 = 0 ->
  emits (uint32 v) w (JS.encode (littleEndian w) 4 (JS.ToUint32 v)).
Proof.
  intros Hw Hm. pose proof Hw as (_ & [Ho _] & _).
  pose proof (uint32_emits w v Hw) as H.
  by rewrite (padding_aligned w 4 Ho ltac:(lia) Hm) in H.
Qed.

Lemma mod_4_2 x : x mod 4 = 0 -> x mod 2 = 0.
Proof.
  intros H. rewrite (Z.div_mod x 4) by lia. rewrite H, Z.add_0_r.
  replace (4 * (x / 4)) with ((2 * (x / 4)) * 2) by lia. apply Z_mod_mult.
Qed.

Lemma mod_add_multiple x k n : 0 < n -> x mod n = 0 -> k mod n = 0 -> (x + k) mod n = 0.
Proof. intros Hn Hx Hk. rewrite Z.add_mod, Hx, Hk by lia. by apply Z.mod_0_l; lia. Qed.

(** The body of [#memberHeaderV1] before the origin reset, from an aligned
    cursor. *)
Lemma memberHeaderV1_fields_emit w (mu : bool) id objectSize :
  wf w -> (offset w - origin w) mod 4 = 0 ->
  emits
    (if negb ((id >? 0x3f00) || (objectSize >? 0xffff)) then
       uint16 (JS.bor (if mu then JS.shl 1 14 else 0) id) ;;
       uint16 (JS.band objectSize 0xffff)
     else
       uint16 (JS.bor (if mu then JS.shl 1 14 else 0) EXTENDED_PID) ;;
       uint16 8 ;;
       uint32 id ;;
       uint32 objectSize)
    w (emheader1 (littleEndian w) mu id objectSize).
Proof.
  intros Hw Hal. unfold emheader1.
  replace ((id <=? 0x3F00) && (objectSize <=? 0xFFFF))
    with (negb ((id >? 0x3f00) || (objectSize >? 0xffff))).
  2:{ rewrite negb_orb, !Z.gtb_ltb, <- !Z.leb_antisym. done. }
  assert (Hflag : (if mu then JS.shl 1 14 else 0) = (if mu then 0x4000 else 0)).
  { by destruct mu. }
  rewrite Hflag.
  destruct (negb ((id >? 0x3f00) || (objectSize >? 0xffff))).
  - apply emits_bind_wf; [done| |].
    + rewrite <- (bor_mod_pow2 _ _ 16) by lia.
      apply uint16_emits_aligned; [done | by apply mod_4_2].
    + intros w1 Hw1 (Hle & _) Ho Hg. rewrite byteLength_encode in Ho.
      rewrite <- Hle, <- band_ffff.
      apply uint16_emits_aligned; [done|].
      replace (offset w1 - origin w1) with (offset w - origin w + 2) by lia.
      apply mod_add_multiple; [lia | by apply mod_4_2 | done].
  - apply emits_bind_wf; [done| |].
    + replace (Z.lor (if mu then 0x4000 else 0) EXTENDED_PID)
        with (JS.ToUint16 (JS.bor (if mu then 0x4000 else 0) EXTENDED_PID))
        by (by destruct mu).
      apply uint16_emits_aligned; [done | by apply mod_4_2].
    + intros w1 Hw1 (Hle1 & _) Ho1 Hg1. rewrite byteLength_encode in Ho1.
      rewrite <- Hle1.
      apply emits_bind_wf; [done| |].
      * apply (uint16_emits_aligned w1 8); [done|].
        replace (offset w1 - origin w1) with (offset w - origin w + 2) by lia.
        apply mod_add_multiple; [lia | by apply mod_4_2 | done].
      * intros w2 Hw2 (Hle2 & _) Ho2 Hg2. rewrite byteLength_encode in Ho2.
        rewrite <- Hle2.
        apply emits_bind_wf; [done| |].
        -- apply uint32_emits_aligned; [done|].
           replace (offset w2 - origin w2) with (offset w - origin w + 4) by lia.
           by apply mod_add_multiple.
        -- intros w3 Hw3 (Hle3 & _) Ho3 Hg3. rewrite byteLength_encode in Ho3.
           rewrite <- Hle3.
           apply uint32_emits_aligned; [done|].
           replace (offset w3 - origin w3) with (offset w - origin w + 8) by lia.
           by apply mod_add_multiple.
Qed.

Lemma byteLength_emheader1 le mu id objectSize :
  byteLength (emheader1 le mu id objectSize)
  = if (id <=? 0x3F00) && (objectSize <=? 0xFFFF) then 4 else 12.
Proof.
  unfold emheader1. destruct ((id <=? 0x3F00) && (objectSize <=? 0xFFFF));
    rewrite ?byteLength_app, !byteLength_encode; lia.
Qed.

(** [#memberHeaderV1]: padding and header are appended, then the origin is
    the cursor. *)
Lemma memberHeaderV1_run w (mu : bool) id objectSize :
  wf w ->
  exists w1,
    memberHeaderV1 mu id objectSize w = (inr tt, set_origin (offset w1) w1)
    /\ appended w w1 (zeros (padding w 4) ++ emheader1 (littleEndian w) mu id objectSize).
Proof.
  intros Hw. pose proof Hw as (H0 & [H1 H2] & H8).
  destruct (padding_spec w 4 H1 ltac:(lia)) as [Hp Hmod].
  assert (Hbody : emits
    (align 4 None ;;
     if negb ((id >? 0x3f00) || (objectSize >? 0xffff)) then
       uint16 (JS.bor (if mu then JS.shl 1 14 else 0) id) ;;
       uint16 (JS.band objectSize 0xffff)
     else
       uint16 (JS.bor (if mu then JS.shl 1 14 else 0) EXTENDED_PID) ;;
       uint16 8 ;;
       uint32 id ;;
       uint32 objectSize)
    w (zeros (padding w 4) ++ emheader1 (littleEndian w) mu id objectSize)).
  { apply emits_bind_wf; [done | by apply align_emits |].
    intros w1 Hw1 (Hle & _) Ho Hg. rewrite byteLength_zeros in Ho by lia.
    rewrite <- Hle. apply memberHeaderV1_fields_emit; [done|].
    rewrite Ho, Hg. done. }
  destruct Hbody as (w1 & Hrun & Happ). exists w1. split; [|done].
  unfold memberHeaderV1. unfold bind in *.
  destruct (align 4 None w) as [[e|[]] wa]; [done|].
  simpl in *. by rewrite Hrun.
Qed.

Lemma memberHeaderV2_unfold (mu : bool) id objectSize lengthCode :
  memberHeaderV2 mu id objectSize lengthCode
  = if id >? 0x0fffffff then throw IdTooLarge
    else
      let lc := default (getLengthCodeForObjectSize objectSize) lengthCode in
      uint32 (JS.bor (JS.bor (if mu then JS.shl 1 31 else 0) (JS.shl lc 28)) id) ;;
      lengthCode_switch lc objectSize.
Proof. reflexivity. Qed.

(** The word [mustUnderstandFlag | (finalLengthCode << 28) | id], stored as
    a uint32, has the flag in bit 31, the length code from bit 28 and the
    id below. *)
Lemma emheader2_word_js (mu : bool) lc id :
  JS.ToUint32 (JS.bor (JS.bor (if mu then JS.shl 1 31 else 0) (JS.shl lc 28)) id)
  = emheader2_word mu lc id.
Proof.
  unfold JS.ToUint32, emheader2_word.
  rewrite bor_mod_pow2 by lia.
  rewrite (lor_mod_pow2 (JS.bor _ _)) by lia.
  rewrite bor_mod_pow2 by lia.
  rewrite (lor_mod_pow2 (if mu then JS.shl 1 31 else 0)) by lia.
  rewrite shl_mod_pow2 by lia.
  replace ((if mu then JS.shl 1 31 else 0) mod 2 ^ 32)
    with ((if mu then 0x80000000 else 0) mod 2 ^ 32) by (by destruct mu).
  by rewrite <- !lor_mod_pow2 by lia.
Qed.

Lemma memberHeaderV2_too_large w (mu : bool) id objectSize lengthCode :
  0x0FFFFFFF < id -> memberHeaderV2 mu id objectSize lengthCode w = (inl IdTooLarge, w).
Proof.
  intros H. rewrite memberHeaderV2_unfold.
  destruct (Z.gtb_spec id 0xfffffff); [done | lia].
Qed.

(** With an id that fits, the first word is appended and the switch runs
    from a cursor that is a multiple of 4 from the origin. *)
Lemma memberHeaderV2_run w (mu : bool) id objectSize lengthCode :
  wf w -> id <= 0x0FFFFFFF ->
  let lc := default (getLengthCodeForObjectSize objectSize) lengthCode in
  exists w1,
    appended w w1 (zeros (padding w 4) ++ JS.encode (littleEndian w) 4 (emheader2_word mu lc id))
    /\ wf w1 /\ (offset w1 - origin w1) mod 4 = 0
    /\ memberHeaderV2 mu id objectSize lengthCode w = lengthCode_switch lc objectSize w1.
Proof.
  intros Hw Hid lc. pose proof Hw as (H0 & [H1 H2] & H8).
  destruct (padding_spec w 4 H1 ltac:(lia)) as [Hp Hmod].
  destruct (uint32_emits w
              (JS.bor (JS.bor (if mu then JS.shl 1 31 else 0) (JS.shl lc 28)) id) Hw)
    as (w1 & Hrun & Happ).
  rewrite emheader2_word_js in Happ.
  exists w1. split; [done|]. split; [by eapply appended_wf|]. split.
  - destruct Happ as (_ & Ho & _ & Hg & _).
    rewrite byteLength_app, byteLength_zeros, byteLength_encode in Ho by lia.
    replace (offset w1 - origin w1) with ((offset w + padding w 4 - origin w) + 4) by lia.
    by apply mod_add_multiple.
  - rewrite memberHeaderV2_unfold.
    destruct (Z.gtb_spec id 0xfffffff); [lia|].
    cbv zeta. fold lc. by rewrite (bind_ok _ _ w tt w1 Hrun).
Qed.

Lemma switch_fixed lc objectSize w :
  0 <= lc <= 3 ->
  lengthCode_switch lc objectSize w
  = (if objectSize =? 2 ^ lc then inr tt else inl BadLengthCode, w).
Proof.
  intros H. assert (Hc : lc = 0 \/ lc = 1 \/ lc = 2 \/ lc = 3) by lia.
  destruct Hc as [-> | [-> | [-> | ->]]]; unfold lengthCode_switch, lengthCodeToObjectSizes; simpl.
  - change (2 ^ 0) with 1. by destruct (objectSize =? 1).
  - change (2 ^ 1) with 2. by destruct (objectSize =? 2).
  - change (2 ^ 2) with 4. by destruct (objectSize =? 4).
  - change (2 ^ 3) with 8. by destruct (objectSize =? 8).
Qed.

Lemma switch_nextint lc objectSize : 4 <= lc <= 5 -> lengthCode_switch lc objectSize = uint32 objectSize.
Proof. intros H. assert (Hc : lc = 4 \/ lc = 5) by lia. by destruct Hc as [-> | ->]. Qed.

Lemma switch_6 objectSize :
  lengthCode_switch 6 objectSize
  = if Z.rem objectSize 4 =? 0 then uint32 (JS.sar objectSize 2) else throw BadLengthCode.
Proof. unfold lengthCode_switch. simpl. by destruct (Z.rem objectSize 4 =? 0). Qed.

Lemma switch_7 objectSize :
  lengthCode_switch 7 objectSize
  = if Z.rem objectSize 8 =? 0 then uint32 (JS.sar objectSize 3) else throw BadLengthCode.
Proof. unfold lengthCode_switch. simpl. by destruct (Z.rem objectSize 8 =? 0). Qed.

Lemma switch_other lc objectSize :
  ~ 0 <= lc <= 7 -> lengthCode_switch lc objectSize = throw BadLengthCode.
Proof.
  intros H. unfold lengthCode_switch.
  repeat match goal with
         | |- context [lc =? ?k] => destruct (Z.eqb_spec lc k); [lia|]
         end.
  done.
Qed.

(** The switch either returns after appending the second word, if any, or
    throws [BadLengthCode] without touching the writer. *)
Lemma switch_outcome lc objectSize w :
  wf w -> (offset w - origin w) mod 4 = 0 ->
  emits_some (lengthCode_switch lc objectSize) w
  \/ lengthCode_switch lc objectSize w = (inl BadLengthCode, w).
Proof.
  intros Hw Hal.
  assert (Hu : forall v, emits_some (uint32 v) w) by (intros; by apply uint32_emits_some).
  destruct (decide (0 <= lc <= 7)) as [Hlc|Hlc].
  - assert (Hc : 0 <= lc <= 3 \/ 4 <= lc <= 5 \/ lc = 6 \/ lc = 7) by lia.
    destruct Hc as [Hc|[Hc|[Hc|Hc]]]; [| |subst lc|subst lc].
    + pose proof (switch_fixed lc objectSize w Hc) as Hrun.
      destruct (objectSize =? 2 ^ lc); [left|by right].
      exists [], w. split; [done|]. apply appended_refl. apply Hw.
    + rewrite switch_nextint by done. by left.
    + rewrite switch_6. destruct (Z.rem objectSize 4 =? 0); [by left | by right].
    + rewrite switch_7. destruct (Z.rem objectSize 8 =? 0); [by left | by right].
  - right. by rewrite switch_other.
Qed.

Lemma emHeader_dispatch w (mu : bool) id objectSize lengthCode :
  emHeader mu id objectSize lengthCode w
  = if isCDR2 w then memberHeaderV2 mu id objectSize lengthCode w
    else memberHeaderV1 mu id objectSize w.
Proof. unfold emHeader. rewrite bind_this. by destruct (isCDR2 w). Qed.

(** ** Arrays *)

Lemma forEach_emits_some {A} (scalar : A -> M unit) (l : list A) w :
  (forall x w1, wf w1 -> emits_some (scalar x) w1) ->
  wf w -> emits_some (forEach scalar l) w.
Proof.
  intros Hs. revert w. induction l as [|x l IH]; intros w Hw; simpl.
  - by apply emits_some_ret.
  - apply emits_some_bind; [done | by apply Hs |]. intros w1 Hw1 _. by apply IH.
Qed.

Lemma byteLength_host_bytes {A} hostLE BPE (bits : A -> Z) (l : list A) :
  0 <= BPE -> byteLength (host_bytes hostLE BPE bits l) = Z.of_nat (length l) * BPE.
Proof.
  intros H. unfold host_bytes. induction l as [|x l IH]; simpl; [done|].
  rewrite byteLength_app, byteLength_encode, IH. lia.
Qed.

(** The fast path: align to the element width, copy the memory of the typed
    array, advance. *)
Lemma fast_path_emits w BPE n (src : CdrWriter -> list Z) :
  wf w -> 0 <= BPE -> 0 <= n ->
  (forall w1, same_config w w1 -> src w1 = src w) ->
  n = byteLength (src w) ->
  emits (align BPE (Some n) ;; w1 <- this ;;
         on_buffer (array_store (src w1) (offset w1)) ;; advance n)
        w (zeros (padding w BPE) ++ map JS.ToUint8 (src w)).
Proof.
  intros Hw Hs Hn Hsrc Hlen.
  apply emits_bind; [by apply align_emits|].
  intros w1 Hrun. rewrite align_run in Hrun. injection Hrun as <-. simpl default.
  destruct (aligned_spec w BPE n Hw Hs Hn) as [Happ Hroom].
  pose proof (appended_wf _ _ _ Hw Happ) as (H0 & [H1 H2] & _).
  apply emits_this.
  rewrite (Hsrc _ (same_config_aligned BPE n w)).
  apply array_store_emits; try done. lia.
Qed.

Lemma room_array_store_emits w (src : list Z) :
  wf w ->
  emits (resizeIfNeeded (byteLength src) ;; w1 <- this ;;
         on_buffer (array_store src (offset w1)) ;; advance (byteLength src))
        w (map JS.ToUint8 src).
Proof.
  intros Hw. destruct Hw as (H0 & [H1 H2] & H8).
  destruct (resizeIfNeeded_emits w (byteLength src) H2) as (w1 & Hrun & Happ & Hroom).
  change (map JS.ToUint8 src) with ([] ++ map JS.ToUint8 src).
  apply emits_bind; [by exists w1|].
  intros w1' Hrun'. rewrite Hrun in Hrun'. injection Hrun' as <-.
  apply emits_this.
  destruct Happ as (_ & Ho & _). change (byteLength []) with 0 in Ho.
  apply array_store_emits; try done; lia.
Qed.

Lemma byteArray_emits_some w (value : ArrayArg Z) (writeLength : bool) :
  wf w ->
  emits_some ((if writeLength then sequenceLength (array_length value) else ret tt) ;;
              resizeIfNeeded (array_length value) ;; w1 <- this ;;
              on_buffer (array_store (elements value) (offset w1)) ;;
              advance (array_length value)) w.
Proof.
  intros Hw. apply emits_some_bind; [done| |].
  - destruct writeLength; [by apply uint32_emits_some | by apply emits_some_ret].
  - intros w1 Hw1 _. eexists. by apply room_array_store_emits.
Qed.

Lemma wideArray_emits_some {A} w BPE (bits : A -> Z) (scalar : A -> M unit)
    (value : ArrayArg A) (writeLength : bool) :
  wf w -> 0 <= BPE ->
  (forall x w1, wf w1 -> emits_some (scalar x) w1) ->
  emits_some (wideArray BPE bits scalar value writeLength) w.
Proof.
  intros Hw HB Hs. unfold wideArray. apply emits_some_bind; [done| |].
  - destruct writeLength; [by apply uint32_emits_some | by apply emits_some_ret].
  - intros w1 Hw1 _. unfold emits_some. setoid_rewrite bind_this_emits.
    destruct (instanceof_typed value && eqb (littleEndian w1) (hostLittleEndian w1)
              && (array_length value >=? BUFFER_COPY_THRESHOLD)).
    + eexists.
      apply (fast_path_emits w1 BPE (array_length value * BPE)
               (fun w2 => host_bytes (hostLittleEndian w2) BPE bits (elements value)));
        try done.
      * unfold array_length. lia.
      * by intros w2 (_ & -> & _).
      * by rewrite byteLength_host_bytes.
    + by apply forEach_emits_some.
Qed.

(** ** Every call *)

Lemma sentinelHeader_emits_some w : wf w -> emits_some sentinelHeader w.
Proof.
  intros Hw. unfold sentinelHeader, emits_some. setoid_rewrite bind_this_emits.
  destruct (isCDR2 w); simpl.
  - by apply emits_some_ret.
  - apply emits_some_bind; [done | by apply align_emits_some |].
    intros w1 Hw1 _. apply emits_some_bind; [done | by apply uint16_emits_some |].
    intros w2 Hw2 _. by apply uint16_emits_some.
Qed.

Lemma op_post_refl w : wf w -> op_post w w.
Proof.
  intros Hw. unfold op_post, same_config.
  repeat split; first [done | lia | by left | apply Hw].
Qed.

Lemma appended_post w w' bs : wf w -> appended w w' bs -> op_post w w'.
Proof.
  intros Hw Happ. pose proof (appended_wf _ _ _ Hw Happ) as Hw'.
  pose proof Hw as (H0 & [H1 H2] & _).
  pose proof (appended_frame w w' bs ltac:(lia) Happ) as Hframe.
  destruct Happ as (_ & Ho & _ & Hg & Hc).
  pose proof (byteLength_nonneg bs).
  unfold op_post. repeat split; first [done | lia | by left | apply Hw' | apply Hc].
Qed.

Lemma emits_some_post (c : M unit) w : wf w -> emits_some c w -> op_post w (snd (c w)).
Proof.
  intros Hw (bs & w' & Hrun & Happ). rewrite Hrun. simpl. by eapply appended_post.
Qed.

Lemma reset_post w w1 bs :
  wf w -> appended w w1 bs -> op_post w (set_origin (offset w1) w1).
Proof.
  intros Hw Happ. destruct (appended_post w w1 bs Hw Happ)
    as ((H0 & [H1 H2] & H8) & Hc & Ho & Hf & _).
  unfold op_post, wf, cursor_inv. simpl.
  pose proof Hw as (? & [? ?] & _).
  repeat split; first [done | lia | by right | apply Hc].
Qed.

Lemma emHeader_post w (mu : bool) id objectSize lengthCode :
  wf w -> op_post w (snd (emHeader mu id objectSize lengthCode w)).
Proof.
  intros Hw. rewrite emHeader_dispatch. destruct (isCDR2 w).
  - destruct (Z.lt_ge_cases 0x0FFFFFFF id) as [Hid|Hid].
    + rewrite memberHeaderV2_too_large by done. by apply op_post_refl.
    + destruct (memberHeaderV2_run w mu id objectSize lengthCode Hw ltac:(lia))
        as (w1 & Happ1 & Hw1 & Hal & ->).
      destruct (switch_outcome (default (getLengthCodeForObjectSize objectSize) lengthCode)
                  objectSize w1 Hw1 Hal) as [(bs & w2 & Hrun & Happ2) | Hrun];
        rewrite Hrun; simpl.
      * eapply appended_post; [done|]. by eapply appended_trans.
      * by eapply appended_post.
  - destruct (memberHeaderV1_run w mu id objectSize Hw) as (w1 & -> & Happ).
    simpl. by eapply reset_post.
Qed.

(** Whatever the call and its outcome, the writer stays well formed, keeps
    what it had written and does not move its cursor back. *)
Lemma call_post w op : wf w -> op_ok op -> op_post w (snd (call op w)).
Proof.
  intros Hw Hok.
  assert (Hscalar : forall op', is_Some (scalar_shape (isCDR2 w) op') ->
                                op_post w (snd (call op' w))).
  { intros op' Hs. apply emits_some_post; [done|]. by apply scalar_emits_some. }
  assert (Hwide : forall A BPE (bits : A -> Z) (scalar : A -> M unit) value wl,
            0 <= BPE -> (forall x w1, wf w1 -> emits_some (scalar x) w1) ->
            op_post w (snd (wideArray BPE bits scalar value wl w))).
  { intros. apply emits_some_post; [done|]. by apply wideArray_emits_some. }
  destruct op; try (apply Hscalar; simpl; by eexists).
  - apply emits_some_post; [done|]. by apply string_emits_some.
  - apply emits_some_post; [done|]. by apply uint32_emits_some.
  - by apply emHeader_post.
  - apply emits_some_post; [done|]. by apply sentinelHeader_emits_some.
  - apply emits_some_post; [done|]. by apply uint32_emits_some.
  - apply emits_some_post; [done|]. by apply byteArray_emits_some.
  - apply emits_some_post; [done|]. by apply byteArray_emits_some.
  - apply Hwide; [lia|]. intros x w1 Hw1. eexists. by apply int16_emits.
  - apply Hwide; [lia|]. intros x w1 Hw1. eexists. by apply uint16_emits.
  - apply Hwide; [lia|]. intros x w1 Hw1. eexists. by apply int32_emits.
  - apply Hwide; [lia|]. intros x w1 Hw1. eexists. by apply uint32_emits.
  - apply Hwide; [lia|]. intros x w1 Hw1. eexists. by apply int64_emits.
  - apply Hwide; [lia|]. intros x w1 Hw1. eexists. by apply uint64_emits.
  - apply Hwide; [lia|]. intros x w1 Hw1. eexists. by apply float32_emits.
  - apply Hwide; [lia|]. intros x w1 Hw1. eexists. by apply float64_emits.
  - destruct Hok as [Hs Hb]. apply emits_some_post; [done|]. by apply align_emits_some.
Qed.

(** ** Construction *)

Lemma view_store_inr off bs buf b :
  view_store off bs buf = inr b ->
  b = list_inserts (Z.to_nat off) bs buf /\ 0 <= off /\ off + byteLength bs <= byteLength buf.
Proof.
  unfold view_store.
  destruct (Z.leb_spec 0 off); [|done].
  destruct (Z.leb_spec (off + byteLength bs) (byteLength buf)); [|done].
  by intros [= <-].
Qed.

Lemma constructor_spec isBigEndian options w :
  constructor isBigEndian options = inr w ->
  wf w /\ offset w = 4 /\ origin w = 4 /\ 4 <= byteLength (buffer w).
Proof.
  unfold constructor. destruct (initial_buffer options) as [e|buffer0]; [done|].
  simpl resizeIfNeeded_at.
  destruct (view_store 0 _ buffer0) as [e|buffer2] eqn:E2; [done|].
  destruct (view_store 1 _ buffer2) as [e|buffer3] eqn:E3; [done|].
  destruct (view_store 2 _ buffer3) as [e|buffer4] eqn:E4; [done|].
  intros [= <-]. unfold wf, cursor_inv. simpl.
  assert (Hlen : 4 <= byteLength buffer4).
  { apply view_store_inr in E4 as (-> & _ & H).
    rewrite byteLength_inserts. rewrite byteLength_encode in H. lia. }
  repeat split; try done; lia.
Qed.


Lemma calls_wf ops w w' :
  wf w -> Forall op_ok ops -> calls ops w = (inr tt, w') -> wf w'.
Proof.
  unfold calls. intros Hw Hok. revert w Hw.
  induction Hok as [|op ops Hop Hops IH]; intros w Hw; simpl.
  - by intros [= <-].
  - unfold bind. pose proof (call_post w op Hw Hop) as Hpost.
    destruct (call op w) as [[e|[]] wa]; [done|]. simpl in Hpost.
    apply IH. apply Hpost.
Qed.

Lemma new_writer_fresh kind : new_writer kind = inr (fresh kind).
Proof. by destruct kind. Qed.

Lemma fresh_wf kind : wf (fresh kind).
Proof.
  unfold wf, cursor_inv. simpl. change (byteLength _) with 16.
  repeat split; try lia. 
Qed.

Lemma view_store_inl off bs buf e :
  view_store off bs buf = inl e ->
  e = RangeError /\ (off < 0 \/ byteLength buf < off + byteLength bs).
Proof.
  unfold view_store.
  destruct (Z.leb_spec 0 off); [|intros [= <-]; split; [done | lia]].
  destruct (Z.leb_spec (off + byteLength bs) (byteLength buf)); [done|].
  intros [= <-]. split; [done | lia].
Qed.

(** The header the constructor writes: a zero byte, the kind, two zero
    option bytes. *)
Lemma constructor_data isBigEndian options w :
  constructor isBigEndian options = inr w ->
  let kind := default CDR_LE (opt_kind options) in
  data w = [0; kind_byte kind; 0; 0]
  /\ littleEndian w = info_littleEndian (getEncapsulationKindInfo kind)
  /\ isCDR2 w = info_isCDR2 (getEncapsulationKindInfo kind).
Proof.
  intros Hnew kind. unfold constructor in Hnew. fold kind in Hnew.
  destruct (initial_buffer options) as [e|buffer0]; [done|].
  simpl resizeIfNeeded_at in Hnew.
  destruct (view_store 0 _ buffer0) as [e|buffer2] eqn:E2; [done|].
  destruct (view_store 1 _ buffer2) as [e|buffer3] eqn:E3; [done|].
  destruct (view_store 2 _ buffer3) as [e|buffer4] eqn:E4; [done|].
  injection Hnew as <-.
  apply view_store_inr in E2 as (-> & _ & _).
  apply view_store_inr in E3 as (-> & _ & _).
  apply view_store_inr in E4 as (-> & _ & H).
  rewrite !byteLength_inserts, byteLength_encode in H.
  split; [|done]. unfold data. cbn [offset buffer].
  destruct buffer0 as [|a [|b [|c [|d rest]]]];
    try (unfold byteLength in H; simpl in H; lia).
  by destruct kind.
Qed.

(** Every writer a program can hold is well formed: the constructor
    returned it, and a chain of calls ran on it without throwing. *)
Lemma reachable_wf isBigEndian options w0 ops w :
  constructor isBigEndian options = inr w0 ->
  Forall op_ok ops ->
  calls ops w0 = (inr tt, w) ->
  wf w.
Proof.
  intros Hnew Hok Hrun.
  destruct (constructor_spec _ _ _ Hnew) as (Hw0 & _).
  by apply (calls_wf ops w0 w).
Qed.

(** ** Strings of ASCII characters

    For these the number of code units is the number of UTF-8 bytes, and
    [string] writes the counted, terminated UTF-8 encoding. *)

Lemma code_points_ascii value :
  ascii value -> JS.code_points value = map (fun u => (u, 1)) value.
Proof.
  induction 1 as [|u value Hu _ IH]; simpl; [done|].
  destruct (Z.leb_spec 0xD800 u); [lia|]. destruct (Z.leb_spec 0xDC00 u); [lia|].
  simpl. by rewrite IH.
Qed.

Lemma utf8_ascii value : ascii value -> JS.utf8 value = value.
Proof.
  intros H. unfold JS.utf8. rewrite code_points_ascii by done.
  induction H as [|u value Hu _ IH]; simpl; [done|].
  unfold JS.utf8_of_code_point at 1. simpl.
  destruct (Z.ltb_spec u 0x80); [|lia]. simpl. by rewrite IH.
Qed.

Lemma encodeInto_ascii value room :
  ascii value -> Z.of_nat (length value) <= room -> JS.encodeInto value room = value.
Proof.
  intros H. unfold JS.encodeInto. rewrite code_points_ascii by done.
  revert room. induction H as [|u value Hu _ IH]; intros room Hroom; simpl; [done|].
  unfold JS.utf8_of_code_point. simpl.
  destruct (Z.ltb_spec u 0x80); [|lia]. simpl.
  cbn [length] in Hroom.
  change (Z.of_nat 1) with 1. destruct (Z.leb_spec 1 room); [|lia].
  rewrite IH; [done | lia].
Qed.

Lemma string_body_emits_ascii w value :
  wf w -> ascii value -> emits (string_body value) w (value ++ [0]).
Proof.
  intros Hw Ha. destruct (string_body_run w value Hw) as [Hrun Hroom].
  pose proof (string_buffer_frame w value Hw) as Hframe.
  pose proof Hw as (H0 & [H1 H2] & H8).
  eexists. split; [exact Hrun|].
  unfold appended, same_config, data. cbn [offset buffer origin littleEndian
    hostLittleEndian isCDR2 eightByteAlignment set_offset set_buffer].
  rewrite byteLength_app. change (byteLength [0]) with 1. unfold byteLength at 1.
  repeat split; try done; try lia.
  unfold string_buffer in *.
  rewrite encodeInto_ascii in * by (done || lia).
  set (buf1 := resizeIfNeeded_at _ _ _) in *.
  rewrite !byteLength_inserts in Hroom. unfold byteLength in Hroom.
  replace (Z.to_nat (offset w + (Z.of_nat (length value) + 1)))
    with (Z.to_nat (offset w + Z.of_nat (length value)) + length [0%Z])%nat
    by (simpl; lia).
  rewrite take_inserts_end by (rewrite length_inserts; simpl; lia).
  rewrite app_assoc. f_equal.
  replace (Z.to_nat (offset w + Z.of_nat (length value)))
    with (Z.to_nat (offset w) + length value)%nat by lia.
  rewrite take_inserts_end by lia. f_equal.
  rewrite <- Hframe.
  replace (Z.to_nat (offset w + Z.of_nat (length value)))
    with (Z.to_nat (offset w) + length value)%nat by lia.
  by rewrite !take_inserts_below by lia.
Qed.

(** The claim about [string], for ASCII strings. *)
Lemma string_ascii_emits w value :
  wf w -> ascii value ->
  emits (string value true) w
    (zeros (padding w 4)
     ++ JS.encode (littleEndian w) 4 (JS.ToUint32 (byteLength (JS.utf8 value) + 1))
     ++ JS.utf8 value ++ [0]).
Proof.
  intros Hw Ha. rewrite utf8_ascii by done. rewrite string_unfold.
  rewrite (app_assoc (zeros _)).
  apply emits_bind_wf; [done | by apply uint32_emits |].
  intros w1 Hw1 _ _ _. by apply string_body_emits_ascii.
Qed.

(** ["abc"] with its length, little-endian: [04 00 00 00 61 62 63 00]. *)
Lemma string_abc kind :
  info_littleEndian (getEncapsulationKindInfo kind) = true ->
  emits (string [0x61; 0x62; 0x63] true) (fresh kind)
        [0x04; 0x00; 0x00; 0x00; 0x61; 0x62; 0x63; 0x00].
Proof.
  intros Hle.
  pose proof (string_ascii_emits (fresh kind) [0x61; 0x62; 0x63] (fresh_wf kind)) as H.
  unfold fresh in *. rewrite Hle in *. apply H.
  unfold ascii. repeat constructor; lia.
Qed.

(** ** The two paths of the array methods

    When the scalar of the element type aligns to the element width, the
    copy of the typed array and the loop over its elements append the same
    bytes.  This covers the 16- and 32-bit arrays, and the 64-bit arrays
    under XCDR1. *)

Lemma le_bytes_range n v : Forall (fun b => 0 <= b < 256) (JS.le_bytes n v).
Proof.
  revert v. induction n as [|n IH]; intros v; simpl; constructor.
  - apply Z.mod_pos_bound. lia.
  - apply IH.
Qed.

Lemma encode_range le n v : Forall (fun b => 0 <= b < 256) (JS.encode le n v).
Proof.
  unfold JS.encode. destruct le; [apply le_bytes_range|].
  rewrite Forall_reverse. apply le_bytes_range.
Qed.

Lemma map_ToUint8_range (l : list Z) :
  Forall (fun b => 0 <= b < 256) l -> map JS.ToUint8 l = l.
Proof.
  induction 1 as [|b l Hb _ IH]; simpl; [done|].
  rewrite IH. f_equal. unfold JS.ToUint8. by apply Z.mod_small.
Qed.

Lemma host_bytes_range {A} hostLE BPE (bits : A -> Z) (l : list A) :
  Forall (fun b => 0 <= b < 256) (host_bytes hostLE BPE bits l).
Proof.
  unfold host_bytes. induction l as [|x l IH]; simpl; [constructor|].
  apply Forall_app. split; [apply encode_range | done].
Qed.

(** The loop from an aligned cursor: no padding at all. *)
Lemma forEach_emits_aligned {A} w BPE (bits : A -> Z) (scalar : A -> M unit) (l : list A) :
  0 < BPE ->
  (forall x w1, wf w1 -> same_config w w1 ->
     emits (scalar x) w1
       (zeros (padding w1 BPE) ++ JS.encode (littleEndian w1) (Z.to_nat BPE) (bits x))) ->
  wf w -> (offset w - origin w) mod BPE = 0 ->
  emits (forEach scalar l) w (host_bytes (littleEndian w) BPE bits l).
Proof.
  intros HB. revert w. induction l as [|x l IH]; intros w Hs Hw Hal.
  - apply emits_ret. apply Hw.
  - change (host_bytes (littleEndian w) BPE bits (x :: l))
      with (JS.encode (littleEndian w) (Z.to_nat BPE) (bits x)
            ++ host_bytes (littleEndian w) BPE bits l).
    cbn [forEach]. apply emits_bind_wf; [done| |].
    + pose proof (Hs x w Hw ltac:(by unfold same_config)) as H.
      pose proof Hw as (_ & [Ho _] & _).
      by rewrite (padding_aligned w BPE Ho HB Hal) in H.
    + intros w1 Hw1 Hc Ho Hg. rewrite byteLength_encode in Ho.
      destruct Hc as (Hle & Hc').
      rewrite <- Hle. apply IH; [|done|].
      * intros y w2 Hw2 (H1 & H2 & H3 & H4). apply Hs; [done|].
        destruct Hc' as (? & ? & ?). unfold same_config. repeat split; congruence.
      * replace (offset w1 - origin w1) with ((offset w - origin w) + BPE) by lia.
        apply mod_add_multiple; [done | done | by apply Z_mod_same_full].
Qed.

(** The loop from any cursor, over at least one element: the padding of
    the first element, then the elements. *)
Lemma forEach_emits_padded {A} w BPE (bits : A -> Z) (scalar : A -> M unit) (l : list A) :
  0 < BPE -> l <> [] ->
  (forall x w1, wf w1 -> same_config w w1 ->
     emits (scalar x) w1
       (zeros (padding w1 BPE) ++ JS.encode (littleEndian w1) (Z.to_nat BPE) (bits x))) ->
  wf w ->
  emits (forEach scalar l) w (zeros (padding w BPE) ++ host_bytes (littleEndian w) BPE bits l).
Proof.
  intros HB Hne Hs Hw. destruct l as [|x l]; [done|].
  change (host_bytes (littleEndian w) BPE bits (x :: l))
    with (JS.encode (littleEndian w) (Z.to_nat BPE) (bits x)
          ++ host_bytes (littleEndian w) BPE bits l).
  rewrite app_assoc. cbn [forEach].
  pose proof Hw as (_ & [Ho _] & _).
  destruct (padding_spec w BPE Ho HB) as [Hp Hmod].
  apply emits_bind_wf; [done | by apply Hs |].
  intros w1 Hw1 Hc Hoff Hg.
  rewrite byteLength_app, byteLength_zeros, byteLength_encode in Hoff by lia.
  destruct Hc as (Hle & Hc').
  rewrite <- Hle. apply forEach_emits_aligned; [done| |done|].
  - intros y w2 Hw2 (H1 & H2 & H3 & H4). apply Hs; [done|].
    destruct Hc' as (? & ? & ?). unfold same_config. repeat split; congruence.
  - replace (offset w1 - origin w1)
      with ((offset w + padding w BPE - origin w) + BPE) by lia.
    apply mod_add_multiple; [done | done | by apply Z_mod_same_full].
Qed.

(** The fast path and the slow path of an array method append the same
    bytes, when the fast path may be taken. *)
Lemma wideArray_paths_agree {A} w BPE (bits : A -> Z) (scalar : A -> M unit)
    (elems : list A) (writeLength : bool) :
  0 < BPE ->
  (forall x w1, wf w1 -> same_config w w1 ->
     emits (scalar x) w1
       (zeros (padding w1 BPE) ++ JS.encode (littleEndian w1) (Z.to_nat BPE) (bits x))) ->
  wf w ->
  littleEndian w = hostLittleEndian w ->
  BUFFER_COPY_THRESHOLD <= Z.of_nat (length elems) ->
  exists bs,
    emits (wideArray BPE bits scalar (TypedArray elems) writeLength) w bs
    /\ emits (wideArray BPE bits scalar (GenericArray elems) writeLength) w bs.
Proof.
  intros HB Hs Hw Hend Hn.
  assert (Hne : elems <> []).
  { intros ->. unfold BUFFER_COPY_THRESHOLD in Hn. simpl in Hn. lia. }
  assert (Hlen : emits_some (if writeLength
                             then sequenceLength (Z.of_nat (length elems)) else ret tt) w).
  { destruct writeLength; [by apply uint32_emits_some | by apply emits_some_ret]. }
  destruct Hlen as (a & w1 & Hrun & Happ).
  pose proof (appended_wf _ _ _ Hw Happ) as Hw1.
  assert (Hc : same_config w w1) by apply Happ.
  pose proof Hc as (Hle & Hhost & _).
  assert (Hs1 : forall x w2, wf w2 -> same_config w1 w2 ->
     emits (scalar x) w2
       (zeros (padding w2 BPE) ++ JS.encode (littleEndian w2) (Z.to_nat BPE) (bits x))).
  { intros x w2 Hw2 (H1 & H2 & H3 & H4). apply Hs; [done|].
    destruct Hc as (? & ? & ? & ?). unfold same_config. repeat split; congruence. }
  exists (a ++ zeros (padding w1 BPE) ++ host_bytes (littleEndian w1) BPE bits elems).
  split.
  - unfold wideArray. apply emits_bind; [by exists w1|].
    intros w1' Hrun'.
    change (array_length (TypedArray elems)) with (Z.of_nat (length elems)) in *.
    rewrite Hrun in Hrun'. injection Hrun' as <-.
    apply bind_this_emits. cbn [instanceof_typed elements].
    rewrite Hle, Hhost, Hend, eqb_reflx.
    destruct (Z.geb_spec (Z.of_nat (length elems)) BUFFER_COPY_THRESHOLD); [|lia].
    cbn [andb].
    rewrite <- (map_ToUint8_range (host_bytes (hostLittleEndian w) BPE bits elems))
      by apply host_bytes_range.
    rewrite <- Hhost.
    apply (fast_path_emits w1 BPE (Z.of_nat (length elems) * BPE)
             (fun w2 => host_bytes (hostLittleEndian w2) BPE bits elems));
      try done; try lia.
    + by intros w2 (_ & -> & _).
    + rewrite byteLength_host_bytes; lia.
  - unfold wideArray. apply emits_bind; [by exists w1|].
    intros w1' Hrun'.
    change (array_length (GenericArray elems)) with (Z.of_nat (length elems)) in *.
    rewrite Hrun in Hrun'. injection Hrun' as <-.
    apply bind_this_emits. cbn [instanceof_typed andb elements].
    by apply forEach_emits_padded.
Qed.

Lemma int16Array_paths_agree w elems writeLength :
  wf w -> littleEndian w = hostLittleEndian w ->
  BUFFER_COPY_THRESHOLD <= Z.of_nat (length elems) ->
  exists bs, emits (int16Array (TypedArray elems) writeLength) w bs
             /\ emits (int16Array (GenericArray elems) writeLength) w bs.
Proof.
  intros. apply wideArray_paths_agree; try done. intros x w1 Hw1 _. by apply int16_emits.
Qed.

Lemma uint16Array_paths_agree w elems writeLength :
  wf w -> littleEndian w = hostLittleEndian w ->
  BUFFER_COPY_THRESHOLD <= Z.of_nat (length elems) ->
  exists bs, emits (uint16Array (TypedArray elems) writeLength) w bs
             /\ emits (uint16Array (GenericArray elems) writeLength) w bs.
Proof.
  intros. apply wideArray_paths_agree; try done. intros x w1 Hw1 _. by apply uint16_emits.
Qed.

Lemma int32Array_paths_agree w elems writeLength :
  wf w -> littleEndian w = hostLittleEndian w ->
  BUFFER_COPY_THRESHOLD <= Z.of_nat (length elems) ->
  exists bs, emits (int32Array (TypedArray elems) writeLength) w bs
             /\ emits (int32Array (GenericArray elems) writeLength) w bs.
Proof.
  intros. apply wideArray_paths_agree; try done. intros x w1 Hw1 _. by apply int32_emits.
Qed.

Lemma uint32Array_paths_agree w elems writeLength :
  wf w -> littleEndian w = hostLittleEndian w ->
  BUFFER_COPY_THRESHOLD <= Z.of_nat (length elems) ->
  exists bs, emits (uint32Array (TypedArray elems) writeLength) w bs
             /\ emits (uint32Array (GenericArray elems) writeLength) w bs.
Proof.
  intros. apply wideArray_paths_agree; try done. intros x w1 Hw1 _. by apply uint32_emits.
Qed.

Lemma float32Array_paths_agree w elems writeLength :
  wf w -> littleEndian w = hostLittleEndian w ->
  BUFFER_COPY_THRESHOLD <= Z.of_nat (length elems) ->
  exists bs, emits (float32Array (TypedArray elems) writeLength) w bs
             /\ emits (float32Array (GenericArray elems) writeLength) w bs.
Proof.
  intros. apply wideArray_paths_agree; try done. intros x w1 Hw1 _. by apply float32_emits.
Qed.

Lemma eightByteAlignment_xcdr1 w w1 :
  isCDR2 w = false -> wf w1 -> same_config w w1 -> eightByteAlignment w1 = 8.
Proof. intros Hv (_ & _ & ->) (_ & _ & -> & _). by rewrite Hv. Qed.

Lemma int64Array_paths_agree_xcdr1 w elems writeLength :
  wf w -> isCDR2 w = false -> littleEndian w = hostLittleEndian w ->
  BUFFER_COPY_THRESHOLD <= Z.of_nat (length elems) ->
  exists bs, emits (int64Array (TypedArray elems) writeLength) w bs
             /\ emits (int64Array (GenericArray elems) writeLength) w bs.
Proof.
  intros Hw Hv ? ?. apply wideArray_paths_agree; try done. intros x w1 Hw1 Hc.
  rewrite <- (eightByteAlignment_xcdr1 w w1 Hv Hw1 Hc) at 1. by apply int64_emits.
Qed.

Lemma uint64Array_paths_agree_xcdr1 w elems writeLength :
  wf w -> isCDR2 w = false -> littleEndian w = hostLittleEndian w ->
  BUFFER_COPY_THRESHOLD <= Z.of_nat (length elems) ->
  exists bs, emits (uint64Array (TypedArray elems) writeLength) w bs
             /\ emits (uint64Array (GenericArray elems) writeLength) w bs.
Proof.
  intros Hw Hv ? ?. apply wideArray_paths_agree; try done. intros x w1 Hw1 Hc.
  rewrite <- (eightByteAlignment_xcdr1 w w1 Hv Hw1 Hc) at 1. by apply uint64_emits.
Qed.

Lemma float64Array_paths_agree_xcdr1 w elems writeLength :
  wf w -> isCDR2 w = false -> littleEndian w = hostLittleEndian w ->
  BUFFER_COPY_THRESHOLD <= Z.of_nat (length elems) ->
  exists bs, emits (float64Array (TypedArray elems) writeLength) w bs
             /\ emits (float64Array (GenericArray elems) writeLength) w bs.
Proof.
  intros Hw Hv ? ?. apply wideArray_paths_agree; try done. intros x w1 Hw1 Hc.
  rewrite <- (eightByteAlignment_xcdr1 w w1 Hv Hw1 Hc) at 1. by apply float64_emits.
Qed.

(** ** What no method ever changes

    The methods are built from a few steps: reading the object, assigning
    [#offset], replacing or storing into [#buffer], and, in
    [#memberHeaderV1] only, assigning [#origin].  A relation these steps
    keep is kept by every method, from every writer and whether the method
    returns or throws. *)

Section Keeps.

Variable R : CdrWriter -> CdrWriter -> Prop.
Hypothesis R_refl : forall w, R w w.
Hypothesis R_trans : forall a b c, R a b -> R b c -> R a c.
Hypothesis R_offset : forall o w, R w (set_offset o w).
Hypothesis R_buffer :
  forall b w, byteLength (buffer w) <= byteLength b -> R w (set_buffer b w).

Lemma keeps_ret {A} (a : A) : keeps R (ret a).
Proof. intros w r w' [= <- <-]. apply R_refl. Qed.

Lemma keeps_throw {A} e : keeps R (@throw A e).
Proof. intros w r w' [= <- <-]. apply R_refl. Qed.

Lemma keeps_this : keeps R this.
Proof. intros w r w' [= <- <-]. apply R_refl. Qed.

Lemma keeps_bind {A B} (c : M A) (k : A -> M B) :
  keeps R c -> (forall a, keeps R (k a)) -> keeps R (bind c k).
Proof.
  intros Hc Hk w r w'. unfold bind.
  destruct (c w) as [[e|a] w1] eqn:E.
  - intros [= <- <-]. by eapply Hc.
  - intros Hrun. eapply R_trans; [by eapply Hc | by eapply Hk].
Qed.

Lemma keeps_advance n : keeps R (advance n).
Proof. intros w r w' [= <- <-]. apply R_offset. Qed.

Lemma keeps_on_buffer f :
  (forall buf b, f buf = inr b -> byteLength buf <= byteLength b) ->
  keeps R (on_buffer f).
Proof.
  intros Hf w r w'. unfold on_buffer. destruct (f (buffer w)) as [e|b] eqn:E.
  - intros [= <- <-]. apply R_refl.
  - intros [= <- <-]. apply R_buffer. by apply Hf.
Qed.

Lemma view_store_length off bs buf b :
  view_store off bs buf = inr b -> byteLength buf <= byteLength b.
Proof. intros H. apply view_store_inr in H as (-> & _). rewrite byteLength_inserts. lia. Qed.

Lemma array_store_length src off buf b :
  array_store src off buf = inr b -> byteLength buf <= byteLength b.
Proof.
  unfold array_store. destruct (_ && _); [|done].
  intros [= <-]. rewrite byteLength_inserts. lia.
Qed.

Lemma encodeInto_view_length value off len buf b :
  encodeInto_view value off len buf = inr b -> byteLength buf <= byteLength b.
Proof.
  unfold encodeInto_view. destruct (_ && _); [|done].
  intros [= <-]. rewrite byteLength_inserts. lia.
Qed.

Lemma resizeIfNeeded_at_length o n buf :
  byteLength buf <= byteLength (resizeIfNeeded_at (Some o) n buf).
Proof.
  destruct (resizeIfNeeded_at_extends o n buf) as (k & Hk & -> & _).
  rewrite byteLength_app, byteLength_zeros; lia.
Qed.

Lemma keeps_resizeIfNeeded n : keeps R (resizeIfNeeded n).
Proof.
  intros w r w' [= <- <-]. apply R_buffer. apply resizeIfNeeded_at_length.
Qed.

Lemma keeps_align size b : keeps R (align size b).
Proof.
  unfold align. apply keeps_bind; [apply keeps_this|]. intros w0.
  apply keeps_bind; [apply keeps_resizeIfNeeded|]. intros _.
  apply keeps_bind; [|intros _; apply keeps_advance].
  intros w r w' [= <- <-]. apply R_buffer.
  unfold array_fill. rewrite byteLength_inserts. lia.
Qed.

Lemma keeps_store off bs : keeps R (on_buffer (view_store off bs)).
Proof. apply keeps_on_buffer. apply view_store_length. Qed.

(** The shape of the scalars: an alignment or a growth, then a store at the
    cursor, then an advance. *)
Lemma keeps_scalar (first : M unit) (bs : CdrWriter -> list Z) n :
  keeps R first ->
  keeps R (first ;; w <- this ;; on_buffer (view_store (offset w) (bs w)) ;; advance n).
Proof.
  intros H. apply keeps_bind; [done|]. intros _.
  apply keeps_bind; [apply keeps_this|]. intros w.
  apply keeps_bind; [apply keeps_store | intros _; apply keeps_advance].
Qed.

Lemma keeps_int8 v : keeps R (int8 v).
Proof. apply (keeps_scalar _ (fun _ => _)). apply keeps_resizeIfNeeded. Qed.

Lemma keeps_uint8 v : keeps R (uint8 v).
Proof. apply (keeps_scalar _ (fun _ => _)). apply keeps_resizeIfNeeded. Qed.

Lemma keeps_int16 v : keeps R (int16 v).
Proof. apply (keeps_scalar _ (fun w => JS.encode (littleEndian w) 2 _)). apply keeps_align. Qed.

Lemma keeps_uint16 v : keeps R (uint16 v).
Proof. apply (keeps_scalar _ (fun w => JS.encode (littleEndian w) 2 _)). apply keeps_align. Qed.

Lemma keeps_int32 v : keeps R (int32 v).
Proof. apply (keeps_scalar _ (fun w => JS.encode (littleEndian w) 4 _)). apply keeps_align. Qed.

Lemma keeps_uint32 v : keeps R (uint32 v).
Proof. apply (keeps_scalar _ (fun w => JS.encode (littleEndian w) 4 _)). apply keeps_align. Qed.

Lemma keeps_uint16BE v : keeps R (uint16BE v).
Proof. apply (keeps_scalar _ (fun _ => _)). apply keeps_align. Qed.

Lemma keeps_uint32BE v : keeps R (uint32BE v).
Proof. apply (keeps_scalar _ (fun _ => _)). apply keeps_align. Qed.

Lemma keeps_float32 v : keeps R (float32 v).
Proof. apply (keeps_scalar _ (fun w => JS.encode (littleEndian w) 4 _)). apply keeps_align. Qed.

Lemma keeps_int64 v : keeps R (int64 v).
Proof.
  apply keeps_bind; [apply keeps_this|]. intros w.
  apply (keeps_scalar _ (fun w => JS.encode (littleEndian w) 8 _)). apply keeps_align.
Qed.

Lemma keeps_uint64 v : keeps R (uint64 v).
Proof.
  apply keeps_bind; [apply keeps_this|]. intros w.
  apply (keeps_scalar _ (fun w => JS.encode (littleEndian w) 8 _)). apply keeps_align.
Qed.

Lemma keeps_uint64BE v : keeps R (uint64BE v).
Proof.
  apply keeps_bind; [apply keeps_this|]. intros w.
  apply (keeps_scalar _ (fun _ => _)). apply keeps_align.
Qed.

Lemma keeps_float64 v : keeps R (float64 v).
Proof.
  apply keeps_bind; [apply keeps_this|]. intros w.
  apply (keeps_scalar _ (fun w => JS.encode (littleEndian w) 8 _)). apply keeps_align.
Qed.

Lemma keeps_length_prefix (writeLength : bool) n :
  keeps R (if writeLength then sequenceLength n else ret tt).
Proof. destruct writeLength; [apply keeps_uint32 | apply keeps_ret]. Qed.

Lemma keeps_string value writeLength : keeps R (string value writeLength).
Proof.
  unfold string. apply keeps_bind.
  { destruct writeLength; [apply keeps_uint32 | apply keeps_ret]. }
  intros _. apply keeps_bind; [apply keeps_resizeIfNeeded|]. intros _.
  apply keeps_bind; [apply keeps_this|]. intros w.
  apply keeps_bind.
  { apply keeps_on_buffer. apply encodeInto_view_length. }
  intros _. apply keeps_bind; [apply keeps_store | intros _; apply keeps_advance].
Qed.

Lemma keeps_sentinelHeader : keeps R sentinelHeader.
Proof.
  unfold sentinelHeader. apply keeps_bind; [apply keeps_this|]. intros w.
  destruct (negb (isCDR2 w)); [|apply keeps_ret].
  apply keeps_bind; [apply keeps_align|]. intros _.
  apply keeps_bind; [apply keeps_uint16 | intros _; apply keeps_uint16].
Qed.

Lemma keeps_lengthCode_switch lc objectSize : keeps R (lengthCode_switch lc objectSize).
Proof.
  unfold lengthCode_switch.
  repeat match goal with
         | |- keeps R (if ?b then _ else _) => destruct b
         | |- keeps R (let _ := _ in _) => cbv zeta
         end;
    first [apply keeps_throw | apply keeps_ret | apply keeps_uint32].
Qed.

Lemma keeps_memberHeaderV2 (mu : bool) id objectSize lengthCode :
  keeps R (memberHeaderV2 mu id objectSize lengthCode).
Proof.
  rewrite memberHeaderV2_unfold. destruct (id >? 0xfffffff); [apply keeps_throw|].
  apply keeps_bind; [apply keeps_uint32 | intros _; apply keeps_lengthCode_switch].
Qed.

Lemma keeps_forEach {A} (scalar : A -> M unit) (l : list A) :
  (forall x, keeps R (scalar x)) -> keeps R (forEach scalar l).
Proof.
  intros Hs. induction l as [|x l IH]; simpl; [apply keeps_ret|].
  apply keeps_bind; [apply Hs | by intros _].
Qed.

Lemma keeps_byteArray (value : ArrayArg Z) (writeLength : bool) :
  keeps R ((if writeLength then sequenceLength (array_length value) else ret tt) ;;
           resizeIfNeeded (array_length value) ;; w <- this ;;
           on_buffer (array_store (elements value) (offset w)) ;;
           advance (array_length value)).
Proof.
  apply keeps_bind; [apply keeps_length_prefix|]. intros _.
  apply keeps_bind; [apply keeps_resizeIfNeeded|]. intros _.
  apply keeps_bind; [apply keeps_this|]. intros w.
  apply keeps_bind; [|intros _; apply keeps_advance].
  apply keeps_on_buffer. apply array_store_length.
Qed.

Lemma keeps_wideArray {A} BPE (bits : A -> Z) (scalar : A -> M unit)
    (value : ArrayArg A) (writeLength : bool) :
  (forall x, keeps R (scalar x)) ->
  keeps R (wideArray BPE bits scalar value writeLength).
Proof.
  intros Hs. unfold wideArray.
  apply keeps_bind; [apply keeps_length_prefix|]. intros _.
  apply keeps_bind; [apply keeps_this|]. intros w.
  destruct (_ && _); [|by apply keeps_forEach].
  apply keeps_bind; [apply keeps_align|]. intros _.
  apply keeps_bind; [apply keeps_this|]. intros w1.
  apply keeps_bind; [|intros _; apply keeps_advance].
  apply keeps_on_buffer. apply array_store_length.
Qed.

(** Every call but [emHeader]. *)
Lemma keeps_call_but_emHeader op : is_emHeader op = false -> keeps R (call op).
Proof.
  destruct op; simpl; try done; intros _.
  - apply keeps_int8.
  - apply keeps_uint8.
  - apply keeps_int16.
  - apply keeps_uint16.
  - apply keeps_int32.
  - apply keeps_uint32.
  - apply keeps_int64.
  - apply keeps_uint64.
  - apply keeps_uint16BE.
  - apply keeps_uint32BE.
  - apply keeps_uint64BE.
  - apply keeps_float32.
  - apply keeps_float64.
  - apply keeps_string.
  - apply keeps_uint32.
  - apply keeps_sentinelHeader.
  - apply keeps_uint32.
  - apply keeps_byteArray.
  - apply keeps_byteArray.
  - apply keeps_wideArray, keeps_int16.
  - apply keeps_wideArray, keeps_uint16.
  - apply keeps_wideArray, keeps_int32.
  - apply keeps_wideArray, keeps_uint32.
  - apply keeps_wideArray, keeps_int64.
  - apply keeps_wideArray, keeps_uint64.
  - apply keeps_wideArray, keeps_float32.
  - apply keeps_wideArray, keeps_float64.
  - apply keeps_align.
Qed.

(** [#memberHeaderV1] assigns [#origin]. *)
Lemma keeps_memberHeaderV1 (mu : bool) id objectSize :
  (forall w, R w (set_origin (offset w) w)) ->
  keeps R (memberHeaderV1 mu id objectSize).
Proof.
  intros Hreset. unfold memberHeaderV1.
  apply keeps_bind; [apply keeps_align|]. intros _. cbv zeta.
  apply keeps_bind.
  - destruct (negb _).
    + apply keeps_bind; [apply keeps_uint16 | intros _; apply keeps_uint16].
    + apply keeps_bind; [apply keeps_uint16|]. intros _.
      apply keeps_bind; [apply keeps_uint16|]. intros _.
      apply keeps_bind; [apply keeps_uint32 | intros _; apply keeps_uint32].
  - intros _ w r w' [= <- <-]. apply Hreset.
Qed.

Lemma keeps_call op :
  (forall w, R w (set_origin (offset w) w)) -> keeps R (call op).
Proof.
  intros Hreset. destruct (is_emHeader op) eqn:E; [|by apply keeps_call_but_emHeader].
  destruct op; try done. simpl. unfold emHeader.
  apply keeps_bind; [apply keeps_this|]. intros w.
  destruct (isCDR2 w); [apply keeps_memberHeaderV2 | by apply keeps_memberHeaderV1].
Qed.

Lemma keeps_calls ops :
  (forall w, R w (set_origin (offset w) w)) -> keeps R (calls ops).
Proof. intros Hreset. apply keeps_forEach. intros op. by apply keeps_call. Qed.

End Keeps.

Lemma same_config_refl w : same_config w w.
Proof. by unfold same_config. Qed.

Lemma same_config_trans a b c : same_config a b -> same_config b c -> same_config a c.
Proof.
  intros (? & ? & ? & ?) (? & ? & ? & ?). unfold same_config. repeat split; congruence.
Qed.


Lemma calls_keeps_capacity_config ops : keeps capacity_config (calls ops).
Proof.
  apply keeps_calls.
  - intros w. split; [lia | apply same_config_refl].
  - intros a b c [H1 H2] [H3 H4]. split; [lia | by eapply same_config_trans].
  - intros o w. split; [simpl; lia | by unfold same_config].
  - intros b w H. split; [done | by unfold same_config].
  - intros w. split; [simpl; lia | by unfold same_config].
Qed.

Lemma call_keeps_origin op : is_emHeader op = false -> keeps same_origin (call op).
Proof.
  apply keeps_call_but_emHeader; unfold same_origin; try done. intros; congruence.
Qed.

Lemma memberHeaderV2_keeps_origin (mu : bool) id objectSize lengthCode :
  keeps same_origin (memberHeaderV2 mu id objectSize lengthCode).
Proof.
  apply keeps_memberHeaderV2; unfold same_origin; try done. intros; congruence.
Qed.

(** ** Chains of calls *)

(** From a well-formed writer every call but [emHeader] returns. *)
Lemma call_returns w op :
  wf w -> op_ok op -> is_emHeader op = false -> emits_some (call op) w.
Proof.
  intros Hw Hok Hop.
  assert (Hwide : forall A BPE (bits : A -> Z) (scalar : A -> M unit) value wl,
            0 <= BPE -> (forall x w1, wf w1 -> emits_some (scalar x) w1) ->
            emits_some (wideArray BPE bits scalar value wl) w).
  { intros. by apply wideArray_emits_some. }
  destruct op; try done;
    try (apply scalar_emits_some; [done | simpl; by eexists]).
  - by apply string_emits_some.
  - by apply uint32_emits_some.
  - by apply sentinelHeader_emits_some.
  - by apply uint32_emits_some.
  - by apply byteArray_emits_some.
  - by apply byteArray_emits_some.
  - apply Hwide; [lia|]. intros x w1 Hw1. eexists. by apply int16_emits.
  - apply Hwide; [lia|]. intros x w1 Hw1. eexists. by apply uint16_emits.
  - apply Hwide; [lia|]. intros x w1 Hw1. eexists. by apply int32_emits.
  - apply Hwide; [lia|]. intros x w1 Hw1. eexists. by apply uint32_emits.
  - apply Hwide; [lia|]. intros x w1 Hw1. eexists. by apply int64_emits.
  - apply Hwide; [lia|]. intros x w1 Hw1. eexists. by apply uint64_emits.
  - apply Hwide; [lia|]. intros x w1 Hw1. eexists. by apply float32_emits.
  - apply Hwide; [lia|]. intros x w1 Hw1. eexists. by apply float64_emits.
  - destruct Hok as [Hs Hb]. by apply align_emits_some.
Qed.

(** What [emHeader] throws, and when. *)
Lemma emHeader_throws w (mu : bool) id objectSize lengthCode e w' :
  wf w -> emHeader mu id objectSize lengthCode w = (inl e, w') ->
  isCDR2 w = true /\ (e = IdTooLarge \/ e = BadLengthCode).
Proof.
  intros Hw Hrun. rewrite emHeader_dispatch in Hrun. destruct (isCDR2 w).
  - split; [done|]. destruct (Z.lt_ge_cases 0x0FFFFFFF id) as [Hid|Hid].
    + rewrite memberHeaderV2_too_large in Hrun by done. injection Hrun as <- _. by left.
    + destruct (memberHeaderV2_run w mu id objectSize lengthCode Hw ltac:(lia))
        as (w1 & _ & Hw1 & Hal & Hsw).
      rewrite Hsw in Hrun.
      destruct (switch_outcome (default (getLengthCodeForObjectSize objectSize) lengthCode)
                  objectSize w1 Hw1 Hal) as [(bs & w2 & Hok & _) | Herr].
      * rewrite Hok in Hrun. discriminate.
      * rewrite Herr in Hrun. injection Hrun as <- _. by right.
  - destruct (memberHeaderV1_run w mu id objectSize Hw) as (w1 & Hok & _).
    rewrite Hok in Hrun. discriminate.
Qed.

Lemma extends_refl w : wf w -> extends w w.
Proof. intros Hw. unfold extends. split; [done|]. split; [lia | done]. Qed.

Lemma extends_trans a b c : wf a -> extends a b -> extends b c -> extends a c.
Proof.
  intros Ha (Hb & Hab & Hfab) (Hc & Hbc & Hfbc). unfold extends.
  split; [done|]. split; [lia|].
  rewrite <- Hfab.
  replace (Z.to_nat (offset a)) with (Z.to_nat (offset a) `min` Z.to_nat (offset b))%nat by lia.
  rewrite <- !take_take. by rewrite Hfbc.
Qed.

Lemma call_extends w op : wf w -> op_ok op -> extends w (snd (call op w)).
Proof.
  intros Hw Hok. destruct (call_post w op Hw Hok) as (H1 & _ & H3 & H4 & _).
  by unfold extends.
Qed.

Lemma calls_extends ops w : wf w -> Forall op_ok ops -> extends w (snd (calls ops w)).
Proof.
  unfold calls. intros Hw Hok. revert w Hw.
  induction Hok as [|op ops Hop Hops IH]; intros w Hw; simpl.
  - by apply extends_refl.
  - pose proof (call_extends w op Hw Hop) as Hext. unfold bind.
    destruct (call op w) as [[e|[]] w1]; [done|]. simpl in Hext.
    eapply extends_trans; [done | done |]. apply IH. apply Hext.
Qed.


(** ** The sentinel *)

Lemma sentinelHeader_emits w :
  wf w -> isCDR2 w = false ->
  emits sentinelHeader w
    (zeros (padding w 4)
     ++ JS.encode (littleEndian w) 2 SENTINEL_PID ++ JS.encode (littleEndian w) 2 0).
Proof.
  intros Hw Hv. pose proof Hw as (_ & [Ho _] & _).
  destruct (padding_spec w 4 Ho ltac:(lia)) as [Hp Hmod].
  unfold sentinelHeader. apply bind_this_emits. rewrite Hv. cbn [negb].
  apply emits_bind_wf; [done | by apply align_emits |].
  intros w1 Hw1 (Hle & _) Ho1 Hg1. rewrite byteLength_zeros in Ho1 by lia.
  rewrite <- Hle.
  apply emits_bind_wf; [done| |].
  - apply (uint16_emits_aligned w1 SENTINEL_PID); [done|].
    apply mod_4_2. by rewrite Ho1, Hg1.
  - intros w2 Hw2 (Hle2 & _) Ho2 Hg2. rewrite byteLength_encode in Ho2.
    rewrite <- Hle2. apply (uint16_emits_aligned w2 0); [done|].
    replace (offset w2 - origin w2) with ((offset w + padding w 4 - origin w) + 2) by lia.
    apply mod_add_multiple; [lia | by apply mod_4_2 | done].
Qed.

(** ** The constructor, when the buffer is large enough *)

Lemma constructor_ok isBigEndian options buffer0 :
  initial_buffer options = inr buffer0 ->
  4 <= byteLength buffer0 ->
  let k := default CDR_LE (opt_kind options) in
  let info := getEncapsulationKindInfo k in
  constructor isBigEndian options
  = inr {| littleEndian := info_littleEndian info;
           hostLittleEndian := negb isBigEndian;
           isCDR2 := info_isCDR2 info;
           eightByteAlignment := if info_isCDR2 info then 4 else 8;
           buffer := [0; kind_byte k; 0; 0] ++ drop 4 buffer0;
           offset := 4;
           origin := 4 |}.
Proof.
  intros Hinit Hlen k info. unfold constructor. rewrite Hinit. fold k. fold info.
  cbn [resizeIfNeeded_at].
  rewrite view_store_ok by (rewrite ?byteLength_encode; lia).
  rewrite view_store_ok by (rewrite ?byteLength_inserts, ?byteLength_encode; lia).
  rewrite view_store_ok by (rewrite ?byteLength_inserts, ?byteLength_encode; lia).
  do 2 f_equal.
  destruct buffer0 as [|a [|b [|c [|d rest]]]];
    try (unfold byteLength in Hlen; simpl in Hlen; lia).
  assert (Hk : JS.encode true 1 (JS.ToUint8 (kind_byte k)) = [kind_byte k]).
  { clearbody k. by destruct k. }
  rewrite Hk. reflexivity.
Qed.

(** ** Alignment, twice *)

Lemma aligned_again w size btw :
  wf w -> 0 < size -> 0 <= btw ->
  padding (aligned size btw w) size = 0.
Proof.
  intros Hw Hs Hb. pose proof Hw as (_ & [Ho _] & _).
  destruct (padding_spec w size Ho Hs) as [Hp Hmod].
  destruct (aligned_spec w size btw Hw ltac:(lia) Hb) as [Happ _].
  pose proof (appended_wf _ _ _ Hw Happ) as (_ & [Ho1 _] & _).
  destruct Happ as (_ & Hoff & _ & Hg & _).
  rewrite byteLength_zeros in Hoff by lia.
  apply padding_aligned; [done | done |]. by rewrite Hoff, Hg.
Qed.

(** ** Arrays and strings, byte by byte *)

Lemma length_prefix_emits w (writeLength : bool) n :
  wf w ->
  emits (if writeLength then sequenceLength n else ret tt) w (length_prefix w writeLength n).
Proof.
  intros Hw. unfold length_prefix. destruct writeLength.
  - by apply uint32_emits.
  - apply emits_ret. apply Hw.
Qed.

Lemma byteArray_emits w (value : ArrayArg Z) (writeLength : bool) :
  wf w ->
  emits ((if writeLength then sequenceLength (array_length value) else ret tt) ;;
         resizeIfNeeded (array_length value) ;; w1 <- this ;;
         on_buffer (array_store (elements value) (offset w1)) ;;
         advance (array_length value))
        w (length_prefix w writeLength (array_length value)
           ++ map JS.ToUint8 (elements value)).
Proof.
  intros Hw. apply emits_bind_wf; [done | by apply length_prefix_emits |].
  intros w1 Hw1 _ _ _. by apply room_array_store_emits.
Qed.

(** The bytes [string_body] appends: what the encoder stored, the bytes of
    the buffer it left alone, the terminator. *)
Lemma string_body_stale w value :
  wf w ->
  let n := Z.of_nat (length value) in
  let enc := JS.encodeInto value n in
  let buf1 := resizeIfNeeded_at (Some (offset w)) (n + 1) (buffer w) in
  let stale := take (Z.to_nat n - length enc)
                 (drop (Z.to_nat (offset w) + length enc) buf1) in
  byteLength (enc ++ stale) = n
  /\ emits (string_body value) w (enc ++ stale ++ [0]).
Proof.
  intros Hw n enc0 buf0 stale0. subst enc0 buf0 stale0.
  destruct (string_body_run w value Hw) as [Hrun Hroom].
  pose proof (string_buffer_frame w value Hw) as Hframe.
  pose proof Hw as (H0 & [H1 H2] & H8).
  pose proof (byteLength_encodeInto_points (JS.code_points value) n ltac:(lia)) as Henc.
  fold (JS.encodeInto value n) in Henc.
  unfold string_buffer in *. fold n in Hrun, Hroom, Hframe.
  set (enc := JS.encodeInto value n) in *.
  set (buf1 := resizeIfNeeded_at (Some (offset w)) (n + 1) (buffer w)) in *.
  rewrite !byteLength_inserts in Hroom.
  set (off := Z.to_nat (offset w)) in *.
  assert (Hoff : Z.of_nat off = offset w) by (unfold off; lia).
  unfold byteLength in *.
  assert (Hstale : length (take (Z.to_nat n - length enc) (drop (off + length enc) buf1))
                   = (Z.to_nat n - length enc)%nat).
  { rewrite length_take, length_drop. lia. }
  split; [rewrite length_app, Hstale; lia|].
  eexists. split; [exact Hrun|].
  unfold appended, same_config, data. cbn [offset buffer origin littleEndian
    hostLittleEndian isCDR2 eightByteAlignment set_offset set_buffer].
  unfold byteLength. rewrite !length_app, Hstale, !length_inserts. cbn [length].
  repeat split; try done; try lia.
  replace (Z.to_nat (offset w + (n + 1)))
    with (Z.to_nat (offset w + n) + length [0%Z])%nat by (simpl; lia).
  rewrite take_inserts_end by (rewrite length_inserts; simpl; lia).
  rewrite !app_assoc. f_equal. rewrite <- app_assoc.
  rewrite list_inserts_split by lia.
  replace (Z.to_nat (offset w + n)) with (off + Z.to_nat n)%nat by lia.
  rewrite take_app_add' by (rewrite length_take; lia).
  f_equal.
  - fold off. rewrite <- Hframe. by rewrite !take_inserts_below by lia.
  - replace (Z.to_nat n) with (length enc + (Z.to_nat n - length enc))%nat at 1 by lia.
    by rewrite take_app_add'.
Qed.

Lemma string_body_emits w value :
  wf w ->
  let n := Z.of_nat (length value) in
  exists stale,
    byteLength (JS.encodeInto value n ++ stale) = n
    /\ emits (string_body value) w (JS.encodeInto value n ++ stale ++ [0]).
Proof. intros Hw n. eexists. by apply string_body_stale. Qed.

Lemma string_emits w value (writeLength : bool) :
  wf w ->
  let n := Z.of_nat (length value) in
  exists stale,
    byteLength (JS.encodeInto value n ++ stale) = n
    /\ emits (string value writeLength) w
         (length_prefix w writeLength (n + 1) ++ JS.encodeInto value n ++ stale ++ [0]).
Proof.
  intros Hw n.
  assert (Hpre := length_prefix_emits w writeLength (n + 1) Hw).
  destruct Hpre as (w1 & Hrun1 & Happ1).
  pose proof (appended_wf _ _ _ Hw Happ1) as Hw1.
  destruct (string_body_emits w1 value Hw1) as (stale & Hlen & (w2 & Hrun2 & Happ2)).
  exists stale. split; [done|]. exists w2. split.
  - rewrite string_unfold. fold n. unfold sequenceLength in Hrun1.
    by rewrite (bind_ok _ _ w tt w1 Hrun1).
  - by eapply appended_trans.
Qed.

Lemma string_ascii_any w value (writeLength : bool) :
  wf w -> ascii value ->
  emits (string value writeLength) w
    (length_prefix w writeLength (Z.of_nat (length value) + 1) ++ value ++ [0]).
Proof.
  intros Hw Ha. rewrite string_unfold.
  apply emits_bind_wf; [done | by apply length_prefix_emits |].
  intros w1 Hw1 _ _ _. by apply string_body_emits_ascii.
Qed.

(** ** The array methods of width two and more, byte by byte *)

Lemma host_bytes_element_bytes {A} le BPE (bits : A -> Z) (l : list A) :
  host_bytes le BPE bits l = element_bytes le BPE (map bits l).
Proof.
  unfold host_bytes, element_bytes. induction l as [|x l IH]; simpl; [done|].
  by rewrite IH.
Qed.

(** The loop when the scalar aligns to [Al], a divisor of the width, from
    an aligned cursor. *)
Lemma forEach_emits_from_aligned {A} w BPE Al (bits : A -> Z) (scalar : A -> M unit)
    (l : list A) :
  0 < BPE -> 0 < Al -> BPE mod Al = 0 ->
  (forall x w1, wf w1 -> same_config w w1 ->
     emits (scalar x) w1
       (zeros (padding w1 Al) ++ JS.encode (littleEndian w1) (Z.to_nat BPE) (bits x))) ->
  wf w -> (offset w - origin w) mod Al = 0 ->
  emits (forEach scalar l) w (host_bytes (littleEndian w) BPE bits l).
Proof.
  intros HB HA Hdiv. revert w. induction l as [|x l IH]; intros w Hs Hw Hal.
  - apply emits_ret. apply Hw.
  - change (host_bytes (littleEndian w) BPE bits (x :: l))
      with (JS.encode (littleEndian w) (Z.to_nat BPE) (bits x)
            ++ host_bytes (littleEndian w) BPE bits l).
    cbn [forEach]. apply emits_bind_wf; [done| |].
    + pose proof (Hs x w Hw ltac:(by unfold same_config)) as H.
      pose proof Hw as (_ & [Ho _] & _).
      by rewrite (padding_aligned w Al Ho HA Hal) in H.
    + intros w1 Hw1 Hc Ho Hg. rewrite byteLength_encode in Ho.
      destruct Hc as (Hle & Hc').
      rewrite <- Hle. apply IH; [|done|].
      * intros y w2 Hw2 (H1 & H2 & H3 & H4). apply Hs; [done|].
        destruct Hc' as (? & ? & ?). unfold same_config. repeat split; congruence.
      * replace (offset w1 - origin w1) with ((offset w - origin w) + BPE) by lia.
        by apply mod_add_multiple.
Qed.

(** The loop from any cursor: nothing for no element, else the padding of
    the first element and the elements. *)
Lemma forEach_emits_exact {A} w BPE Al (bits : A -> Z) (scalar : A -> M unit)
    (l : list A) :
  0 < BPE -> 0 < Al -> BPE mod Al = 0 ->
  (forall x w1, wf w1 -> same_config w w1 ->
     emits (scalar x) w1
       (zeros (padding w1 Al) ++ JS.encode (littleEndian w1) (Z.to_nat BPE) (bits x))) ->
  wf w ->
  emits (forEach scalar l) w
    (match l with
     | [] => []
     | _ => zeros (padding w Al) ++ host_bytes (littleEndian w) BPE bits l
     end).
Proof.
  intros HB HA Hdiv Hs Hw. destruct l as [|x l].
  { apply emits_ret. apply Hw. }
  change (host_bytes (littleEndian w) BPE bits (x :: l))
    with (JS.encode (littleEndian w) (Z.to_nat BPE) (bits x)
          ++ host_bytes (littleEndian w) BPE bits l).
  rewrite app_assoc. cbn [forEach].
  pose proof Hw as (_ & [Ho _] & _).
  destruct (padding_spec w Al Ho HA) as [Hp Hmod].
  apply emits_bind_wf; [done | by apply Hs |].
  intros w1 Hw1 Hc Hoff Hg.
  rewrite byteLength_app, byteLength_zeros, byteLength_encode in Hoff by lia.
  destruct Hc as (Hle & Hc').
  rewrite <- Hle. apply (forEach_emits_from_aligned w1 BPE Al); try done.
  - intros y w2 Hw2 (H1 & H2 & H3 & H4). apply Hs; [done|].
    destruct Hc' as (? & ? & ?). unfold same_config. repeat split; congruence.
  - replace (offset w1 - origin w1)
      with ((offset w + padding w Al - origin w) + BPE) by lia.
    by apply mod_add_multiple.
Qed.

(** An array method of width two and more, on either path. *)
Lemma wideArray_emits {A} w BPE Al (bits : A -> Z) (scalar : A -> M unit)
    (value : ArrayArg A) (writeLength : bool) :
  0 < BPE -> 0 < Al -> BPE mod Al = 0 ->
  (forall x w1, wf w1 -> same_config w w1 ->
     emits (scalar x) w1
       (zeros (padding w1 Al) ++ JS.encode (littleEndian w1) (Z.to_nat BPE) (bits x))) ->
  wf w ->
  let count := length_prefix w writeLength (array_length value) in
  let P := if fast_path w value then BPE else Al in
  emits (wideArray BPE bits scalar value writeLength) w
    (count ++
     match elements value with
     | [] => []
     | _ => zeros (padding_after w (byteLength count) P)
            ++ element_bytes (littleEndian w) BPE (map bits (elements value))
     end).
Proof.
  intros HB HA Hdiv Hs Hw count P. unfold wideArray.
  apply emits_bind_wf; [done | by apply length_prefix_emits |].
  fold count. intros w1 Hw1 Hc Hoff Hg. pose proof Hc as (Hle & Hhost & _).
  apply bind_this_emits.
  assert (Hpad : forall size, padding w1 size = padding_after w (byteLength count) size).
  { intros size. unfold padding_after, padding. cbn [offset origin set_offset].
    by rewrite Hoff, Hg. }
  assert (Hs1 : forall x w2, wf w2 -> same_config w1 w2 ->
     emits (scalar x) w2
       (zeros (padding w2 Al) ++ JS.encode (littleEndian w2) (Z.to_nat BPE) (bits x))).
  { intros x w2 Hw2 Hc2. apply Hs; [done|]. by eapply same_config_trans. }
  rewrite <- host_bytes_element_bytes.
  change (instanceof_typed value && eqb (littleEndian w1) (hostLittleEndian w1)
          && (array_length value >=? BUFFER_COPY_THRESHOLD))
    with (fast_path w1 value).
  assert (Hfast : fast_path w1 value = fast_path w value).
  { unfold fast_path. by rewrite Hle, Hhost. }
  rewrite Hfast. unfold P. destruct (fast_path w value) eqn:Efast.
  - unfold fast_path in Efast.
    apply andb_prop in Efast as [Efast Hn]. apply andb_prop in Efast as [_ Hend].
    apply eqb_prop in Hend.
    assert (Hn' : BUFFER_COPY_THRESHOLD <= array_length value).
    { destruct (Z.geb_spec (array_length value) BUFFER_COPY_THRESHOLD); [lia | done]. }
    destruct (elements value) as [|x l] eqn:El.
    { unfold array_length, BUFFER_COPY_THRESHOLD in Hn'. rewrite El in Hn'. simpl in Hn'. lia. }
    rewrite <- El, <- Hpad, <- Hle.
    replace (host_bytes (littleEndian w1) BPE bits (elements value))
      with (map JS.ToUint8 (host_bytes (hostLittleEndian w1) BPE bits (elements value))).
    2:{ rewrite map_ToUint8_range by apply host_bytes_range.
        by rewrite Hhost, Hle, Hend. }
    apply (fast_path_emits w1 BPE (array_length value * BPE)
             (fun w2 => host_bytes (hostLittleEndian w2) BPE bits (elements value)));
      try done; try lia.
    + unfold array_length. lia.
    + by intros w2 (_ & -> & _).
    + rewrite byteLength_host_bytes by lia. done.
  - pose proof (forEach_emits_exact w1 BPE Al bits scalar (elements value)
                  HB HA Hdiv Hs1 Hw1) as H.
    rewrite Hpad, Hle in H. exact H.
Qed.

(** The same, in terms of the bit patterns of the elements. *)
Lemma wideArray_run {A} w BPE Al (bits : A -> Z) (scalar : A -> M unit)
    (value : ArrayArg A) (writeLength : bool) :
  0 < BPE -> 0 < Al -> BPE mod Al = 0 ->
  (forall x w1, wf w1 -> same_config w w1 ->
     emits (scalar x) w1
       (zeros (padding w1 Al) ++ JS.encode (littleEndian w1) (Z.to_nat BPE) (bits x))) ->
  wf w ->
  let patterns := map bits (elements value) in
  let count := length_prefix w writeLength (Z.of_nat (length patterns)) in
  let P := if fast_path w value then BPE else Al in
  let body := match patterns with
              | [] => []
              | _ => zeros (padding_after w (byteLength count) P)
                     ++ element_bytes (littleEndian w) BPE patterns
              end in
  exists w',
    wideArray BPE bits scalar value writeLength w = (inr tt, w')
    /\ data w' = data w ++ count ++ body
    /\ offset w' = offset w + byteLength count + byteLength body
    /\ origin w' = origin w.
Proof.
  intros HB HA Hdiv Hs Hw patterns count P body.
  destruct (wideArray_emits w BPE Al bits scalar value writeLength HB HA Hdiv Hs Hw)
    as (w' & Hrun & Hd & Ho & _ & Hg & _).
  assert (Hcount : length_prefix w writeLength (array_length value) = count).
  { unfold count, patterns, array_length. by rewrite length_map. }
  rewrite Hcount in Hd, Ho. fold P in Hd, Ho. fold patterns in Hd, Ho.
  assert (Hbody : match elements value with
                  | [] => []
                  | _ => zeros (padding_after w (byteLength count) P)
                         ++ element_bytes (littleEndian w) BPE patterns
                  end = body).
  { unfold body, patterns. by destruct (elements value). }
  rewrite Hbody in Hd, Ho. rewrite byteLength_app in Ho.
  exists w'. repeat split; try done. lia.
Qed.

(** ** The capacity a write leaves *)

Lemma byteLength_array_fill value start end_ buf :
  byteLength (array_fill value start end_ buf) = byteLength buf.
Proof. unfold array_fill. apply byteLength_inserts. Qed.







(** ** The written bytes, whatever [align] is given *)



(** ** The bytes a string leaves in place *)

Lemma drop_inserts_above (i m : nat) (k l : list Z) :
  (i + length k <= m)%nat -> drop m (list_inserts i k l) = drop m l.
Proof.
  intros H. apply list_eq. intros j. rewrite !lookup_drop.
  apply list_lookup_inserts_ge. lia.
Qed.

Lemma zeros_add a b : 0 <= a -> 0 <= b -> zeros a ++ zeros b = zeros (a + b).
Proof.
  intros Ha Hb. unfold zeros. rewrite <- replicate_add. f_equal. lia.
Qed.

(** Reading a buffer that was grown reads the old buffer, and zero past its
    end, however much it was grown. *)
Lemma bytes_at_zeros buf from len k :
  0 <= from -> 0 <= len -> from + len <= byteLength buf + k ->
  take (Z.to_nat len) (drop (Z.to_nat from) (buf ++ zeros k)) = bytes_at buf from len.
Proof.
  intros Hf Hl Hk. unfold bytes_at. apply list_eq. intros j.
  destruct (decide (j < Z.to_nat len)%nat) as [Hj|Hj].
  - rewrite !lookup_take_lt by done. rewrite !lookup_drop.
    destruct (decide (Z.to_nat from + j < length buf)%nat) as [Hb|Hb].
    + by rewrite !lookup_app_l.
    + rewrite !lookup_app_r by lia. unfold zeros.
      rewrite !lookup_replicate_2; [done | lia | unfold byteLength in *; lia].
  - by rewrite !lookup_take_ge by lia.
Qed.

(** The writer [uint32] leaves. *)
Lemma uint32_run w v :
  wf w ->
  let a := aligned 4 4 w in
  uint32 v w
  = (inr tt,
     set_offset (offset a + 4)
       (set_buffer (list_inserts (Z.to_nat (offset a))
                      (JS.encode (littleEndian w) 4 (JS.ToUint32 v)) (buffer a)) a)).
Proof.
  intros Hw a.
  destruct (aligned_spec w 4 4 Hw ltac:(lia) ltac:(lia)) as [Happ Hroom].
  pose proof (appended_wf _ _ _ Hw Happ) as (H0 & [H1 H2] & _).
  fold a in Hroom, H0, H1, H2.
  unfold uint32, setUint32.
  rewrite (bind_ok _ _ w tt a (align_run 4 None w)).
  rewrite bind_this.
  rewrite (bind_ok _ _ a tt
             (set_buffer (list_inserts (Z.to_nat (offset a))
                            (JS.encode (littleEndian w) 4 (JS.ToUint32 v)) (buffer a)) a)).
  - reflexivity.
  - apply on_buffer_ok. apply view_store_ok; [lia | rewrite byteLength_encode; lia].
Qed.

(** The count of a string or an array leaves the bytes after it as they
    were, apart from growing the buffer. *)
Lemma length_prefix_tail w (writeLength : bool) n w1 :
  wf w ->
  (if writeLength then sequenceLength n else ret tt) w = (inr tt, w1) ->
  exists k, 0 <= k
    /\ byteLength (buffer w1) = byteLength (buffer w) + k
    /\ drop (Z.to_nat (offset w1)) (buffer w1)
       = drop (Z.to_nat (offset w1)) (buffer w ++ zeros k).
Proof.
  intros Hw Hrun. pose proof Hw as (H0 & [H1 H2] & _). destruct writeLength.
  - unfold sequenceLength in Hrun.
    pose proof (uint32_run w n Hw) as Hr. cbv zeta in Hr.
    assert (Hw1 : w1 = set_offset (offset (aligned 4 4 w) + 4)
                    (set_buffer
                       (list_inserts (Z.to_nat (offset (aligned 4 4 w)))
                          (JS.encode (littleEndian w) 4 (JS.ToUint32 n))
                          (buffer (aligned 4 4 w))) (aligned 4 4 w)))
      by congruence.
    clear Hr Hrun. subst w1.
    pose proof (padding_nonneg w 4 H1 ltac:(lia)) as Hp.
    unfold aligned. cbv zeta. cbn [offset buffer set_offset set_buffer].
    set (p := padding w 4) in *.
    destruct (resizeIfNeeded_at_extends (offset w) (p + 4) (buffer w))
      as (k & Hk & -> & Hroom).
    assert (Hlen : byteLength (buffer w ++ zeros k) = byteLength (buffer w) + k).
    { by rewrite byteLength_app, byteLength_zeros. }
    exists k. split; [done|].
    rewrite byteLength_inserts, byteLength_array_fill. split; [done|].
    rewrite array_fill_zeros by lia.
    pose proof (byteLength_encode (littleEndian w) 4 (JS.ToUint32 n)) as He.
    unfold byteLength in He.
    rewrite !drop_inserts_above; [done | |].
    + unfold zeros. rewrite length_replicate. lia.
    + lia.
  - injection Hrun as <-. exists 0. unfold zeros. simpl. rewrite app_nil_r.
    split; [lia|]. split; [lia | done].
Qed.

(** The bytes [string] appends, with the bytes the encoder did not reach
    read from the buffer the call found. *)
Lemma string_emits_stale w value (writeLength : bool) :
  wf w ->
  let n := Z.of_nat (length value) in
  let count := length_prefix w writeLength (n + 1) in
  let enc := JS.encodeInto value n in
  let stale := bytes_at (buffer w) (offset w + byteLength count + byteLength enc)
                 (n - byteLength enc) in
  byteLength (enc ++ stale) = n
  /\ emits (string value writeLength) w (count ++ enc ++ stale ++ [0]).
Proof.
  intros Hw n count enc stale.
  destruct (length_prefix_emits w writeLength (n + 1) Hw) as (w1 & Hrun1 & Happ1).
  pose proof (appended_wf _ _ _ Hw Happ1) as Hw1.
  destruct (length_prefix_tail w writeLength (n + 1) w1 Hw Hrun1)
    as (k1 & Hk1 & Hlen1 & Htail).
  destruct (string_body_stale w1 value Hw1) as [Hlen (w2 & Hrun2 & Happ2)].
  fold n enc in Hlen, Happ2.
  pose proof Hw as (H0 & [H1 H2] & _). pose proof Hw1 as (H0' & [H1' H2'] & _).
  pose proof (byteLength_encodeInto_points (JS.code_points value) n ltac:(lia)) as Henc.
  fold (JS.encodeInto value n) in Henc. fold enc in Henc.
  pose proof (byteLength_nonneg enc) as Henc0.
  pose proof Happ1 as (Hd1 & Ho1 & _). fold count in Hd1, Ho1.
  assert (Hst : take (Z.to_nat n - length enc)
                  (drop (Z.to_nat (offset w1) + length enc)
                     (resizeIfNeeded_at (Some (offset w1)) (n + 1) (buffer w1)))
                = stale).
  { destruct (resizeIfNeeded_at_extends (offset w1) (n + 1) (buffer w1))
      as (k2 & Hk2 & -> & Hroom).
    rewrite <- drop_drop.
    rewrite drop_app_le by (unfold byteLength in H2'; lia).
    rewrite Htail.
    rewrite <- drop_app_le
      by (rewrite length_app; unfold zeros; rewrite length_replicate;
          unfold byteLength in *; lia).
    rewrite drop_drop, <- app_assoc, zeros_add by lia.
    replace (Z.to_nat (offset w1) + length enc)%nat
      with (Z.to_nat (offset w + byteLength count + byteLength enc))
      by (unfold byteLength in *; lia).
    replace (Z.to_nat n - length enc)%nat with (Z.to_nat (n - byteLength enc))
      by (unfold byteLength in *; lia).
    apply bytes_at_zeros; lia. }
  rewrite Hst in Hlen, Happ2.
  split; [done|]. exists w2. split.
  - rewrite string_unfold. fold n. unfold sequenceLength in Hrun1.
    by rewrite (bind_ok _ _ w tt w1 Hrun1).
  - eapply appended_trans; [exact Happ1 | exact Happ2].
Qed.

(** C1, on the string "é" (one UTF-16 code unit, U+00E9, two bytes in
    UTF-8).  The claim asks for the length 3 and the bytes [C3 A9 00]; the
    writer emits the length 2, one byte the encoder did not store, since the
    character does not fit in the one byte it was given, and the
    terminator. *)
Theorem string_counts_code_units :
  let value := [0xE9] in
  let w := fresh CDR_LE in
  let w' := snd (string value true w) in
  JS.utf8 value = [0xC3; 0xA9]
  /\ fst (string value true w) = inr tt
  /\ data w' = data w ++ [0x02; 0x00; 0x00; 0x00] ++ [0x00] ++ [0x00]
  /\ data w' <> data w ++ JS.encode true 4 (byteLength (JS.utf8 value) + 1)
                  ++ JS.utf8 value ++ [0x00].
Proof. repeat split. discriminate. Qed.

(** C10.  In the constructor, [#resizeIfNeeded(4)] reads [#offset] before
    it is assigned and leaves the buffer as it is, whatever its length.  So
    with an initial buffer of fewer than 4 bytes the header stores throw a
    RangeError, and a writer the constructor returns has the capacity of
    its initial buffer, at least 4 bytes. *)
Theorem constructor_never_grows (isBigEndian : bool) (options : CdrWriterOpts)
    (buffer0 : list Z) :
  initial_buffer options = inr buffer0 ->
  resizeIfNeeded_at None 4 buffer0 = buffer0
  /\ (byteLength buffer0 < 4 -> constructor isBigEndian options = inl RangeError)
  /\ (forall w, constructor isBigEndian options = inr w ->
                byteLength (buffer w) = byteLength buffer0 /\ 4 <= byteLength (buffer w)).
Proof.
  intros Hinit. split; [done|].
  unfold constructor. rewrite Hinit. simpl resizeIfNeeded_at.
  destruct (view_store 0 _ buffer0) as [e2|buffer2] eqn:E2.
  { apply view_store_inl in E2 as [-> _]. split; [done | by intros]. }
  destruct (view_store 1 _ buffer2) as [e3|buffer3] eqn:E3.
  { apply view_store_inl in E3 as [-> _]. split; [done | by intros]. }
  destruct (view_store 2 _ buffer3) as [e4|buffer4] eqn:E4.
  { apply view_store_inl in E4 as [-> _]. split; [done | by intros]. }
  apply view_store_inr in E2 as (-> & _ & _).
  apply view_store_inr in E3 as (-> & _ & _).
  apply view_store_inr in E4 as (-> & _ & H).
  rewrite !byteLength_inserts, byteLength_encode in H.
  split; [lia|]. intros w [= <-]. cbn [buffer].
  unfold byteLength in *. rewrite !length_insert. lia.
Qed.

(** [new CdrWriter({ size: 3 })] throws; the default writer has its 16
    bytes. *)
Lemma constructor_never_grows_witness :
  constructor false {| opt_buffer := None; opt_size := Some 3; opt_kind := None |}
  = inl RangeError
  /\ byteLength (buffer (fresh CDR_LE)) = byteLength (replicate 16 0) 
  /\ 4 <= byteLength (buffer (fresh CDR_LE)).
Proof.
  split.
  - apply (constructor_never_grows false
             {| opt_buffer := None; opt_size := Some 3; opt_kind := None |}
             (replicate 3 0) eq_refl).
    unfold byteLength. simpl. lia.
  - apply (constructor_never_grows false
             {| opt_buffer := None; opt_size := None; opt_kind := None |}
             (replicate 16 0) eq_refl).
    reflexivity.
Defined.

(** C2, on a typed array of ten 64-bit integers written with its length to
    a fresh XCDR2 little-endian writer on a little-endian host.  The fast
    path is taken and aligns to the element width, 8: four padding bytes
    follow the length.  Element by element, each [int64] aligns to 4 and
    nothing follows the length.  The two outputs differ. *)
Theorem int64Array_fast_path_xcdr2 :
  let elems := [1; 2; 3; 4; 5; 6; 7; 8; 9; 10] in
  let w := fresh CDR2_LE in
  let fast := snd (int64Array (TypedArray elems) true w) in
  let slow := snd (int64Array (GenericArray elems) true w) in
  isCDR2 w = true
  /\ littleEndian w = hostLittleEndian w
  /\ array_length (TypedArray elems) >= BUFFER_COPY_THRESHOLD
  /\ data fast = data w ++ [0x0A; 0x00; 0x00; 0x00] ++ zeros 4
                 ++ host_bytes true 8 JS.ToBigUint64 elems
  /\ data slow = data w ++ [0x0A; 0x00; 0x00; 0x00]
                 ++ host_bytes true 8 JS.ToBigUint64 elems
  /\ data fast <> data slow.
Proof.
  repeat split; try reflexivity.
  - discriminate.
  - vm_compute. discriminate.
Qed.




(** C4.  Under an XCDR2 encapsulation, [emHeader] with an id above
    [0x0FFFFFFF] throws IdTooLarge.  Otherwise, with [lc] the length code
    given or else selected from the size (0 for 1, 1 for 2, 2 for 4, 3 for
    8, otherwise 4), it appends the padding to a multiple of 4 and the
    uint32 [(mustUnderstand ? 0x80000000 : 0) | (lc << 28) | id]; then for
    [lc] 0 to 3 it returns if [objectSize] is 1, 2, 4, 8 respectively and
    throws BadLengthCode otherwise; for 4 and 5 it appends the uint32
    [objectSize]; for 6 (for 7) it throws BadLengthCode unless
    [objectSize % 4 = 0] ([% 8]) and else appends the uint32
    [objectSize >> 2] ([>> 3]), the quotient by 4 (by 8) for a size below
    2^31. *)
Theorem emHeader_xcdr2 (w : CdrWriter) (mustUnderstand : bool) (id objectSize : Z)
    (lengthCode : option Z) :
  wf w -> isCDR2 w = true ->
  let lc := default (getLengthCodeForObjectSize objectSize) lengthCode in
  let le := littleEndian w in
  let word := Z.lor (Z.lor (if mustUnderstand then 0x80000000 else 0) (Z.shiftl lc 28)) id
              mod 2 ^ 32 in
  let first := zeros (padding w 4) ++ JS.encode le 4 word in
  let run := emHeader mustUnderstand id objectSize lengthCode w in
  (forall given, lengthCode = Some given -> lc = given)
  /\ (lengthCode = None ->
        (objectSize = 1 -> lc = 0) /\ (objectSize = 2 -> lc = 1)
        /\ (objectSize = 4 -> lc = 2) /\ (objectSize = 8 -> lc = 3)
        /\ (objectSize <> 1 -> objectSize <> 2 -> objectSize <> 4 -> objectSize <> 8 ->
            lc = 4))
  /\ (0x0FFFFFFF < id -> run = (inl IdTooLarge, w))
  /\ (id <= 0x0FFFFFFF ->
        exists w1,
          appended w w1 first
          /\ (0 <= lc <= 3 ->
                run = (if objectSize =? 2 ^ lc then inr tt else inl BadLengthCode, w1))
          /\ (4 <= lc <= 5 ->
                exists w2, run = (inr tt, w2)
                           /\ appended w1 w2 (JS.encode le 4 (objectSize mod 2 ^ 32)))
          /\ (lc = 6 ->
                if Z.rem objectSize 4 =? 0
                then exists w2, run = (inr tt, w2)
                       /\ appended w1 w2 (JS.encode le 4 (JS.sar objectSize 2 mod 2 ^ 32))
                else run = (inl BadLengthCode, w1))
          /\ (lc = 7 ->
                if Z.rem objectSize 8 =? 0
                then exists w2, run = (inr tt, w2)
                       /\ appended w1 w2 (JS.encode le 4 (JS.sar objectSize 3 mod 2 ^ 32))
                else run = (inl BadLengthCode, w1)))
  /\ (0 <= objectSize < 2 ^ 31 ->
        JS.sar objectSize 2 = objectSize / 4 /\ JS.sar objectSize 3 = objectSize / 8).
Proof.
  intros Hw Hv2 lc le word first run.
  assert (Hrun : run = memberHeaderV2 mustUnderstand id objectSize lengthCode w).
  { unfold run. by rewrite emHeader_dispatch, Hv2. }
  split; [by intros given ->|].
  split.
  { intros ->. unfold lc. simpl. unfold getLengthCodeForObjectSize.
    repeat split; intros; subst; try done.
    repeat match goal with
           | |- context [objectSize =? ?k] => destruct (Z.eqb_spec objectSize k); [lia|]
           end.
    done. }
  split; [intros Hid; rewrite Hrun; by apply memberHeaderV2_too_large|].
  split.
  2:{ intros Hsz. split; [apply (sar_small objectSize 2) | apply (sar_small objectSize 3)]; lia. }
  intros Hid.
  destruct (memberHeaderV2_run w mustUnderstand id objectSize lengthCode Hw Hid)
    as (w1 & Happ & Hw1 & Hal & Hsw).
  fold lc in Happ, Hsw. rewrite <- Hrun in Hsw.
  assert (Hle : littleEndian w1 = le) by (destruct Happ as (_ & _ & _ & _ & ? & _); done).
  assert (Hnext : forall v, exists w2, uint32 v w1 = (inr tt, w2)
                    /\ appended w1 w2 (JS.encode le 4 (v mod 2 ^ 32))).
  { intros v. rewrite <- Hle. by apply uint32_emits_aligned. }
  exists w1. split; [done|]. rewrite Hsw.
  split; [by apply switch_fixed|].
  split; [intros Hlc; rewrite switch_nextint by done; apply Hnext|].
  split.
  - intros ->. rewrite switch_6. destruct (Z.rem objectSize 4 =? 0); [apply Hnext | done].
  - intros ->. rewrite switch_7. destruct (Z.rem objectSize 8 =? 0); [apply Hnext | done].
Qed.

(** [emHeader(false, 0x1234, 12, 6)] on a fresh PL_CDR2_LE writer:
    [34 12 00 60], then [03 00 00 00]. *)
Lemma emHeader_xcdr2_witness :
  exists w1 w2,
    appended (fresh PL_CDR2_LE) w1 ([] ++ [0x34; 0x12; 0x00; 0x60])
    /\ emHeader false 0x1234 12 (Some 6) (fresh PL_CDR2_LE) = (inr tt, w2)
    /\ appended w1 w2 [0x03; 0x00; 0x00; 0x00].
Proof.
  destruct (emHeader_xcdr2 (fresh PL_CDR2_LE) false 0x1234 12 (Some 6)
              ltac:(unfold wf, cursor_inv, byteLength; simpl; lia) eq_refl)
    as (_ & _ & _ & Hfit & _).
  destruct (Hfit ltac:(simpl; lia)) as (w1 & Happ & _ & _ & H6 & _).
  destruct (H6 eq_refl) as (w2 & Hrun & Happ2).
  exists w1, w2. repeat split; try apply Happ; try apply Happ2; exact Hrun.
Defined.

(** C5.  Under an XCDR1 encapsulation [emHeader] returns normally, whatever
    the arguments.  It appends the padding to a multiple of 4 from the
    origin, then the short header, 4 bytes, when [id <= 0x3F00] and
    [objectSize <= 0xFFFF]: the uint16 [(mustUnderstand ? 0x4000 : 0) | id]
    and the uint16 [objectSize]; otherwise the extended header, 12 bytes:
    the uint16 [(mustUnderstand ? 0x4000 : 0) | EXTENDED_PID], the uint16 8,
    the uint32 [id] and the uint32 [objectSize].  Afterwards the origin is
    the cursor. *)
Theorem emHeader_xcdr1 (w : CdrWriter) (mustUnderstand : bool) (id objectSize : Z)
    (lengthCode : option Z) :
  wf w -> isCDR2 w = false ->
  let pad := padding w 4 in
  let le := littleEndian w in
  let flag := if mustUnderstand then 0x4000 else 0 in
  let short := (id <=? 0x3F00) && (objectSize <=? 0xFFFF) in
  let header :=
    if short
    then JS.encode le 2 (Z.lor flag id mod 2 ^ 16)
         ++ JS.encode le 2 (objectSize mod 2 ^ 16)
    else JS.encode le 2 (Z.lor flag EXTENDED_PID)
         ++ JS.encode le 2 8
         ++ JS.encode le 4 (id mod 2 ^ 32)
         ++ JS.encode le 4 (objectSize mod 2 ^ 32) in
  exists w',
    emHeader mustUnderstand id objectSize lengthCode w = (inr tt, w')
    /\ 0 <= pad < 4 /\ (offset w + pad - origin w) mod 4 = 0
    /\ data w' = data w ++ zeros pad ++ header
    /\ byteLength header = (if short then 4 else 12)
    /\ offset w' = offset w + pad + byteLength header
    /\ origin w' = offset w'.
Proof.
  intros Hw Hv1 pad le flag short header.
  change header with (emheader1 le mustUnderstand id objectSize).
  pose proof Hw as (_ & [Ho _] & _).
  destruct (padding_spec w 4 Ho ltac:(lia)) as [Hp Hmod].
  destruct (memberHeaderV1_run w mustUnderstand id objectSize Hw)
    as (w1 & Hrun & Hd & Hoff & _).
  exists (set_origin (offset w1) w1).
  rewrite emHeader_dispatch, Hv1.
  rewrite byteLength_app, byteLength_zeros in Hoff by lia.
  pose proof (byteLength_emheader1 le mustUnderstand id objectSize) as Hlen.
  fold short in Hlen.
  split; [done|]. split; [lia|]. split; [done|]. split; [done|].
  split; [done|]. split; [|done].
  change (offset (set_origin (offset w1) w1)) with (offset w1).
  subst pad le. lia.
Qed.

(** [emHeader(true, 0x12, 4)] on a fresh PL_CDR_LE writer: [12 40 04 00],
    and the origin moves to 8. *)
Lemma emHeader_xcdr1_witness :
  exists w',
    emHeader true 0x12 4 None (fresh PL_CDR_LE) = (inr tt, w')
    /\ data w' = data (fresh PL_CDR_LE) ++ [] ++ [0x12; 0x40; 0x04; 0x00]
    /\ offset w' = 8 /\ origin w' = offset w'.
Proof.
  destruct (emHeader_xcdr1 (fresh PL_CDR_LE) true 0x12 4 None
              ltac:(unfold wf, cursor_inv, byteLength; simpl; lia) eq_refl)
    as (w' & Hrun & _ & _ & Hd & _ & Ho & Hg).
  exists w'. repeat split; assumption.
Defined.

(** C6, as the spec states it, fails: [emHeader(false, 1, 3, 0)] on a fresh
    PL_CDR2_LE writer throws after the cursor has moved from 4 to 8. *)
Lemma emHeader_error_moves_cursor :
  ~ error_leaves_cursor (emHeader false 1 3 (Some 0)) (fresh PL_CDR2_LE).
Proof.
  intros H.
  destruct (H BadLengthCode
              (set_offset 8
                 (set_buffer [0; 0x13; 0; 0; 1; 0; 0; 0; 0; 0; 0; 0; 0; 0; 0; 0]
                    (fresh PL_CDR2_LE)))
              eq_refl) as [Hoff _].
  discriminate Hoff.
Qed.

(** C6, amended.  When [emHeader] throws, either the error is IdTooLarge,
    the id is above [0x0FFFFFFF] and the writer is as before the call, or
    the error is BadLengthCode and the padding and the first word of the
    header have been appended: the cursor has advanced by the padding plus
    4 and the bytes before the old cursor are unchanged. *)
Theorem emHeader_error_state (w : CdrWriter) (mustUnderstand : bool) (id objectSize : Z)
    (lengthCode : option Z) (e : Error) (w' : CdrWriter) :
  wf w ->
  emHeader mustUnderstand id objectSize lengthCode w = (inl e, w') ->
  let lc := default (getLengthCodeForObjectSize objectSize) lengthCode in
  (e = IdTooLarge /\ 0x0FFFFFFF < id /\ w' = w)
  \/ (e = BadLengthCode /\ id <= 0x0FFFFFFF
      /\ data w' = data w ++ zeros (padding w 4)
                   ++ JS.encode (littleEndian w) 4 (emheader2_word mustUnderstand lc id)
      /\ offset w' = offset w + padding w 4 + 4
      /\ take (Z.to_nat (offset w)) (buffer w') = take (Z.to_nat (offset w)) (buffer w)).
Proof.
  intros Hw Hrun lc. rewrite emHeader_dispatch in Hrun.
  destruct (isCDR2 w).
  - destruct (Z.lt_ge_cases 0x0FFFFFFF id) as [Hid|Hid].
    + rewrite memberHeaderV2_too_large in Hrun by done.
      injection Hrun as <- <-. by left.
    + right.
      destruct (memberHeaderV2_run w mustUnderstand id objectSize lengthCode Hw ltac:(lia))
        as (w1 & Happ & Hw1 & Hal & Hsw).
      fold lc in Happ, Hsw. rewrite Hsw in Hrun.
      destruct (switch_outcome lc objectSize w1 Hw1 Hal) as [(bs & w2 & Hok & _) | Herr].
      * rewrite Hok in Hrun. discriminate.
      * rewrite Herr in Hrun. injection Hrun as <- <-.
        pose proof Hw as (H0 & [H1 H2] & _).
        pose proof (appended_frame w w1 _ ltac:(lia) Happ) as Hframe.
        destruct Happ as (Hd & Ho & _).
        pose proof (padding_nonneg w 4 H1 ltac:(lia)).
        rewrite byteLength_app, byteLength_zeros, byteLength_encode in Ho by lia.
        repeat split; try done; lia.
  - destruct (memberHeaderV1_run w mustUnderstand id objectSize Hw) as (w1 & Hok & _).
    rewrite Hok in Hrun. discriminate.
Qed.

(** The failing call of the counterexample: BadLengthCode, with
    [01 00 00 00] appended and the cursor at 8. *)
Lemma emHeader_error_state_witness :
  let w' := set_offset 8
              (set_buffer [0; 0x13; 0; 0; 1; 0; 0; 0; 0; 0; 0; 0; 0; 0; 0; 0]
                 (fresh PL_CDR2_LE)) in
  emHeader false 1 3 (Some 0) (fresh PL_CDR2_LE) = (inl BadLengthCode, w')
  /\ data w' = data (fresh PL_CDR2_LE) ++ [] ++ [0x01; 0x00; 0x00; 0x00]
  /\ offset w' = 4 + 0 + 4.
Proof.
  intros w'.
  destruct (emHeader_error_state (fresh PL_CDR2_LE) false 1 3 (Some 0)
              BadLengthCode w' ltac:(unfold wf, cursor_inv, byteLength; simpl; lia) eq_refl)
    as [(H & _) | (_ & _ & Hd & Ho & _)].
  - discriminate H.
  - split; [reflexivity | split; assumption].
Defined.




(** C8, as the spec states it, fails: the stream starts with the
    encapsulation header [00 11 00 00], not with [11 00 00 00]. *)
Lemma cdr2_le_stream_starts_with_00_11 :
  new_writer CDR2_LE = inr (fresh CDR2_LE)
  /\ data (snd (calls [Uint8 1; Float64 JS.one] (fresh CDR2_LE)))
     <> [0x11; 0x00; 0x00; 0x00; 0x01; 0x00; 0x00; 0x00;
         0x00; 0x00; 0x00; 0x00; 0x00; 0x00; 0xF0; 0x3F].
Proof. split; [reflexivity | discriminate]. Qed.

(** C8, amended.  On a writer constructed with the kind CDR2_LE, whatever
    the host and the initial buffer, [uint8(1); float64(1.0)] returns and
    the stream is [00 11 00 00 | 01 00 00 00 | 00 00 00 00 00 00 F0 3F]:
    the header, the byte, three zero bytes of padding to a multiple of 4
    (not of 8) from the origin, and the double. *)
Theorem cdr2_le_uint8_float64 (isBigEndian : bool) (options : CdrWriterOpts)
    (w0 : CdrWriter) :
  opt_kind options = Some CDR2_LE ->
  constructor isBigEndian options = inr w0 ->
  exists w,
    calls [Uint8 1; Float64 JS.one] w0 = (inr tt, w)
    /\ data w = [0x00; 0x11; 0x00; 0x00; 0x01; 0x00; 0x00; 0x00;
                 0x00; 0x00; 0x00; 0x00; 0x00; 0x00; 0xF0; 0x3F]
    /\ offset w = 16 /\ origin w = 4.
Proof.
  intros Hkind Hnew.
  destruct (constructor_spec _ _ _ Hnew) as (Hw0 & Hoff & Horg & _).
  destruct (constructor_data _ _ _ Hnew) as (Hd0 & Hle0 & Hv0).
  rewrite Hkind in Hd0, Hle0, Hv0. simpl in Hd0, Hle0, Hv0.
  destruct (uint8_emits w0 1 Hw0) as (w1 & Hrun1 & Happ1).
  pose proof (appended_wf _ _ _ Hw0 Happ1) as Hw1.
  destruct Happ1 as (Hd1 & Ho1 & _ & Hg1 & Hle1 & _ & Hv1 & He1).
  destruct (float64_emits w1 JS.one Hw1) as (w2 & Hrun2 & Happ2).
  destruct Happ2 as (Hd2 & Ho2 & _ & Hg2 & _).
  assert (Hpad : padding w1 (eightByteAlignment w1) = 3).
  { destruct Hw1 as (_ & _ & ->). rewrite Hv1, Hv0.
    unfold padding. rewrite Ho1, Hg1, Hoff, Horg. reflexivity. }
  rewrite Hpad, Hle1, Hle0 in Hd2, Ho2.
  exists w2. split.
  - unfold calls. simpl forEach. simpl call.
    rewrite (bind_ok _ _ _ _ _ Hrun1), (bind_ok _ _ _ _ _ Hrun2). reflexivity.
  - rewrite Hd2, Hd1, Hd0, Ho2, Ho1, Hoff, Hg2, Hg1, Horg. by repeat split.
Qed.

(** The default buffer on a little-endian host. *)
Lemma cdr2_le_uint8_float64_witness :
  exists w,
    calls [Uint8 1; Float64 JS.one] (fresh CDR2_LE) = (inr tt, w)
    /\ data w = [0x00; 0x11; 0x00; 0x00; 0x01; 0x00; 0x00; 0x00;
                 0x00; 0x00; 0x00; 0x00; 0x00; 0x00; 0xF0; 0x3F]
    /\ offset w = 16 /\ origin w = 4.
Proof.
  exact (cdr2_le_uint8_float64 false
           {| opt_buffer := None; opt_size := None; opt_kind := Some CDR2_LE |}
           (fresh CDR2_LE) eq_refl eq_refl).
Defined.




(** X1.  The capacity never shrinks: after any chain of calls, from any
    writer and whether the chain returns or stops at a call that throws,
    the buffer is at least as long as before. *)
Theorem capacity_never_shrinks (ops : list Op) (w : CdrWriter) :
  byteLength (buffer w) <= byteLength (buffer (snd (calls ops w))).
Proof.
  destruct (calls ops w) as [r w'] eqn:E.
  apply (calls_keeps_capacity_config ops w r w' E).
Qed.

(** X2.  No method changes the byte order of the stream, the byte order
    recorded for the host, the XCDR version or the alignment of 64-bit
    values: after any chain of calls, from any writer and whatever the
    outcome, the four fields are as the constructor set them. *)
Theorem configuration_never_changes (ops : list Op) (w : CdrWriter) :
  let w' := snd (calls ops w) in
  littleEndian w' = littleEndian w
  /\ hostLittleEndian w' = hostLittleEndian w
  /\ isCDR2 w' = isCDR2 w
  /\ eightByteAlignment w' = eightByteAlignment w.
Proof.
  destruct (calls ops w) as [r w'] eqn:E.
  apply (calls_keeps_capacity_config ops w r w' E).
Qed.

(** X3.  Only [emHeader] on an XCDR1 writer moves the alignment origin:
    any other call, and [emHeader] on an XCDR2 writer, leaves the origin
    where it was, from any writer and whether the call returns or
    throws. *)
Theorem origin_moves_only_in_xcdr1_emHeader (op : Op) (w : CdrWriter) :
  is_emHeader op = false \/ isCDR2 w = true ->
  origin (snd (call op w)) = origin w.
Proof.
  intros H. destruct (call op w) as [r w'] eqn:E. simpl.
  destruct (is_emHeader op) eqn:Hop.
  - destruct H as [H|H]; [done|]. destruct op; try done.
    simpl in E. rewrite emHeader_dispatch, H in E.
    apply (memberHeaderV2_keeps_origin _ _ _ _ w r w' E).
  - apply (call_keeps_origin op Hop w r w' E).
Qed.

(** A string written to a fresh CDR_LE writer, and a member header written
    to a fresh PL_CDR2_LE writer: the origin stays at 4. *)
Lemma origin_moves_only_in_xcdr1_emHeader_witness :
  origin (snd (call (String [0x61; 0x62; 0x63] true) (fresh CDR_LE))) = origin (fresh CDR_LE)
  /\ origin (snd (call (EmHeader true 5 12 None) (fresh PL_CDR2_LE)))
     = origin (fresh PL_CDR2_LE).
Proof.
  split.
  - apply (origin_moves_only_in_xcdr1_emHeader
             (String [0x61; 0x62; 0x63] true) (fresh CDR_LE)).
    left. reflexivity.
  - apply (origin_moves_only_in_xcdr1_emHeader
             (EmHeader true 5 12 None) (fresh PL_CDR2_LE)).
    right. reflexivity.
Defined.

(** X4.  No method stores outside the buffer.  A method of the model fails
    in three ways only: a store through the DataView or the Uint8Array that
    is out of bounds, a RangeError, and the two errors [emHeader] raises
    itself.  On a constructed writer, after any chain of calls that
    returned, a call that fails is [emHeader] on an XCDR2 writer and its
    error is IdTooLarge or BadLengthCode: it is never the RangeError of a
    store, because room is made before every store.  What the platform may
    throw besides is outside the model, where allocation succeeds and the
    entries of an array are integers: [new ArrayBuffer] for a capacity it
    cannot allocate, in [#resize], and [BigInt] for a number that is not an
    integer, in the 64-bit array methods.  (An explicit [align] takes a
    byte width and a byte count, not negative.) *)
Theorem stores_stay_in_bounds (isBigEndian : bool) (options : CdrWriterOpts)
    (w0 : CdrWriter) (ops : list Op) (w : CdrWriter) (op : Op)
    (e : Error) (w' : CdrWriter) :
  constructor isBigEndian options = inr w0 ->
  Forall op_ok ops ->
  calls ops w0 = (inr tt, w) ->
  op_ok op ->
  call op w = (inl e, w') ->
  e <> RangeError
  /\ is_emHeader op = true /\ isCDR2 w = true /\ (e = IdTooLarge \/ e = BadLengthCode).
Proof.
  intros Hnew Hok Hcalls Hop Hrun.
  pose proof (reachable_wf _ _ _ _ _ Hnew Hok Hcalls) as Hw.
  destruct (is_emHeader op) eqn:E.
  - assert (H : isCDR2 w = true /\ (e = IdTooLarge \/ e = BadLengthCode)).
    { destruct op; try done. by eapply emHeader_throws. }
    destruct H as [H2 He]. split; [|done].
    by destruct He as [-> | ->].
  - destruct (call_returns w op Hw Hop E) as (bs & w1 & Hret & _).
    rewrite Hret in Hrun. discriminate.
Qed.

(** [emHeader(false, 1, 3, 0)] after [uint8(7)] on a fresh PL_CDR2_LE
    writer throws BadLengthCode. *)
Lemma stores_stay_in_bounds_witness :
  BadLengthCode <> RangeError
  /\ is_emHeader (EmHeader false 1 3 (Some 0)) = true
  /\ isCDR2 (snd (calls [Uint8 7] (fresh PL_CDR2_LE))) = true
  /\ (BadLengthCode = IdTooLarge \/ BadLengthCode = BadLengthCode).
Proof.
  refine (stores_stay_in_bounds false
            {| opt_buffer := None; opt_size := None; opt_kind := Some PL_CDR2_LE |}
            (fresh PL_CDR2_LE) [Uint8 7] _ (EmHeader false 1 3 (Some 0))
            BadLengthCode
            (snd (call (EmHeader false 1 3 (Some 0))
                    (snd (calls [Uint8 7] (fresh PL_CDR2_LE)))))
            ltac:(vm_compute; reflexivity) _ ltac:(vm_compute; reflexivity) I
            ltac:(vm_compute; reflexivity)).
  repeat constructor.
Defined.



(** X6.  The getter [kind] returns the kind the writer was constructed
    with, whatever was written since: after any chain of calls on a
    constructed writer, returned or stopped by a throw, the stream still
    starts with the header [00 kind 00 00] and [kind] reads the kind byte.
    (An explicit [align] takes a byte width and a byte count, not
    negative.) *)
Theorem kind_is_stable (isBigEndian : bool) (options : CdrWriterOpts)
    (w0 : CdrWriter) (ops : list Op) :
  constructor isBigEndian options = inr w0 ->
  Forall op_ok ops ->
  let w := snd (calls ops w0) in
  let k := kind_byte (default CDR_LE (opt_kind options)) in
  kind w = inr k /\ take 4 (data w) = [0; k; 0; 0].
Proof.
  intros Hnew Hok w k.
  destruct (constructor_spec _ _ _ Hnew) as (Hw0 & Hoff & Horg & _).
  destruct (constructor_data _ _ _ Hnew) as (Hd0 & _). fold k in Hd0.
  destruct (calls_extends ops w0 Hw0 Hok) as ((_ & [_ Hcap] & _) & Hle & Hframe).
  fold w in Hcap, Hle, Hframe. unfold data in Hd0. rewrite Hoff in Hle, Hframe, Hd0.
  change (Z.to_nat 4) with 4%nat in Hframe, Hd0.
  assert (H4 : take 4 (buffer w) = [0; k; 0; 0]) by congruence.
  split.
  - unfold kind, getUint8.
    destruct (Z.leb_spec 0 1); [|lia].
    destruct (Z.leb_spec (1 + 1) (byteLength (buffer w))); [|lia]. cbn [andb].
    rewrite <- (lookup_take_lt (buffer w) 4 (Z.to_nat 1)) by (simpl; lia).
    by rewrite H4.
  - unfold data. rewrite take_take.
    replace (4 `min` Z.to_nat (offset w))%nat with 4%nat by lia. done.
Qed.

(** A big-endian parameter-list writer after three calls. *)
Lemma kind_is_stable_witness :
  let w := snd (calls [EmHeader true 7 4 None; Uint32 9; SentinelHeader] (fresh PL_CDR_BE)) in
  kind w = inr 0x02 /\ take 4 (data w) = [0; 0x02; 0; 0].
Proof.
  refine (kind_is_stable false
            {| opt_buffer := None; opt_size := None; opt_kind := Some PL_CDR_BE |}
            (fresh PL_CDR_BE) [EmHeader true 7 4 None; Uint32 9; SentinelHeader]
            ltac:(vm_compute; reflexivity) _).
  repeat constructor.
Defined.

(** X7.  [sentinelHeader] on an XCDR2 writer does nothing at all.  On an
    XCDR1 writer it returns after appending the padding to a multiple of 4
    from the origin, the uint16 [SENTINEL_PID] and the uint16 0; unlike
    [emHeader] it leaves the origin where it was. *)
Theorem sentinelHeader_spec (w : CdrWriter) :
  wf w ->
  (isCDR2 w = true -> sentinelHeader w = (inr tt, w))
  /\ (isCDR2 w = false ->
        exists w',
          sentinelHeader w = (inr tt, w')
          /\ 0 <= padding w 4 < 4
          /\ data w' = data w ++ zeros (padding w 4)
                       ++ JS.encode (littleEndian w) 2 0x3F02
                       ++ JS.encode (littleEndian w) 2 0
          /\ offset w' = offset w + padding w 4 + 4
          /\ origin w' = origin w).
Proof.
  intros Hw. split.
  - intros Hv. unfold sentinelHeader. rewrite bind_this, Hv. reflexivity.
  - intros Hv. pose proof Hw as (_ & [Ho _] & _).
    destruct (padding_spec w 4 Ho ltac:(lia)) as [Hp _].
    destruct (sentinelHeader_emits w Hw Hv) as (w' & Hrun & Hd & Hoff & _ & Hg & _).
    exists w'. rewrite !byteLength_app, byteLength_zeros, !byteLength_encode in Hoff by lia.
    repeat split; try done; lia.
Qed.

(** On a fresh PL_CDR_LE writer: [02 3F 00 00]. *)
Lemma sentinelHeader_spec_witness :
  sentinelHeader (fresh PL_CDR2_LE) = (inr tt, fresh PL_CDR2_LE)
  /\ exists w',
       sentinelHeader (fresh PL_CDR_LE) = (inr tt, w')
       /\ data w' = data (fresh PL_CDR_LE) ++ [] ++ [0x02; 0x3F] ++ [0x00; 0x00].
Proof.
  split.
  - apply (sentinelHeader_spec (fresh PL_CDR2_LE)).
    + unfold wf, cursor_inv, byteLength; simpl; lia.
    + reflexivity.
  - destruct (sentinelHeader_spec (fresh PL_CDR_LE)
                ltac:(unfold wf, cursor_inv, byteLength; simpl; lia))
      as [_ H].
    destruct (H eq_refl) as (w' & Hrun & _ & Hd & _).
    exists w'. split; [exact Hrun | exact Hd].
Defined.

(** X8.  [align(size, bytesToWrite)] with a positive size returns after
    appending [pad] zero bytes, the least number that puts the cursor at a
    multiple of [size] from the origin, and leaves room in the buffer for
    the bytes announced.  Aligning again to the same size appends
    nothing. *)
Theorem align_pads_once (w : CdrWriter) (size : Z) (bytesToWrite : option Z) :
  wf w -> 0 < size -> 0 <= default size bytesToWrite ->
  exists w1 w2 pad,
    align size bytesToWrite w = (inr tt, w1)
    /\ 0 <= pad < size
    /\ data w1 = data w ++ zeros pad
    /\ offset w1 = offset w + pad
    /\ origin w1 = origin w
    /\ (offset w1 - origin w1) mod size = 0
    /\ offset w1 + default size bytesToWrite <= byteLength (buffer w1)
    /\ align size bytesToWrite w1 = (inr tt, w2)
    /\ data w2 = data w1 /\ offset w2 = offset w1.
Proof.
  intros Hw Hs Hb. pose proof Hw as (_ & [Ho _] & _).
  destruct (padding_spec w size Ho Hs) as [Hp Hmod].
  set (btw := default size bytesToWrite) in *.
  destruct (aligned_spec w size btw Hw ltac:(lia) Hb) as [Happ Hroom].
  pose proof (appended_wf _ _ _ Hw Happ) as Hw1.
  destruct (aligned_spec (aligned size btw w) size btw Hw1 ltac:(lia) Hb) as [Happ2 _].
  rewrite (aligned_again w size btw Hw Hs Hb) in Happ2.
  exists (aligned size btw w), (aligned size btw (aligned size btw w)), (padding w size).
  destruct Happ as (Hd & Hoff & _ & Hg & _).
  destruct Happ2 as (Hd2 & Hoff2 & _).
  rewrite byteLength_zeros in Hoff by lia.
  change (zeros 0) with (@nil Z) in Hd2, Hoff2. rewrite app_nil_r in Hd2.
  change (byteLength []) with 0 in Hoff2.
  split; [apply align_run|]. split; [done|]. split; [done|]. split; [done|].
  split; [done|]. split; [by rewrite Hoff, Hg|]. split; [done|].
  split; [apply align_run|]. split; [done | lia].
Qed.

(** [align(8)] at cursor 5 with the origin at 4: seven zero bytes. *)
Lemma align_pads_once_witness :
  let w := snd (calls [Uint8 1] (fresh CDR_LE)) in
  exists w1 w2 pad,
    align 8 None w = (inr tt, w1)
    /\ 0 <= pad < 8
    /\ data w1 = data w ++ zeros pad
    /\ offset w1 = offset w + pad
    /\ origin w1 = origin w
    /\ (offset w1 - origin w1) mod 8 = 0
    /\ offset w1 + 8 <= byteLength (buffer w1)
    /\ align 8 None w1 = (inr tt, w2)
    /\ data w2 = data w1 /\ offset w2 = offset w1.
Proof.
  apply (align_pads_once (snd (calls [Uint8 1] (fresh CDR_LE))) 8 None).
  - unfold wf, cursor_inv, byteLength; simpl; lia.
  - lia.
  - simpl; lia.
Defined.

(** X9.  The constructor returns a writer as soon as the initial buffer, the
    one supplied or the one allocated, has 4 bytes: the first four bytes
    are [00 kind 00 00] and everything after them is left as it was, both
    cursors are at 4, the byte order and the XCDR version are those of the
    kind (CDR_LE when none is given), the alignment of 64-bit values is 4
    under XCDR2 and 8 under XCDR1, and the capacity is the length of the
    initial buffer. *)
Theorem constructor_returns (isBigEndian : bool) (options : CdrWriterOpts)
    (buffer0 : list Z) :
  initial_buffer options = inr buffer0 ->
  4 <= byteLength buffer0 ->
  let k := default CDR_LE (opt_kind options) in
  exists w,
    constructor isBigEndian options = inr w
    /\ buffer w = [0; kind_byte k; 0; 0] ++ drop 4 buffer0
    /\ byteLength (buffer w) = byteLength buffer0
    /\ offset w = 4 /\ origin w = 4
    /\ littleEndian w = info_littleEndian (getEncapsulationKindInfo k)
    /\ isCDR2 w = info_isCDR2 (getEncapsulationKindInfo k)
    /\ eightByteAlignment w = (if isCDR2 w then 4 else 8)
    /\ hostLittleEndian w = negb isBigEndian.
Proof.
  intros Hinit Hlen k. eexists. split; [by apply constructor_ok|].
  cbn [buffer offset origin littleEndian isCDR2 eightByteAlignment hostLittleEndian].
  fold k. repeat split.
  unfold byteLength in *. rewrite length_app, length_drop. simpl. lia.
Qed.

(** A supplied buffer of six bytes: the last two are kept. *)
Lemma constructor_returns_witness :
  exists w,
    constructor true {| opt_buffer := Some [9; 9; 9; 9; 9; 9]; opt_size := Some 0;
                        opt_kind := Some CDR2_BE |} = inr w
    /\ buffer w = [0; 0x10; 0; 0] ++ [9; 9]
    /\ byteLength (buffer w) = 6
    /\ offset w = 4 /\ origin w = 4
    /\ littleEndian w = false
    /\ isCDR2 w = true
    /\ eightByteAlignment w = (if isCDR2 w then 4 else 8)
    /\ hostLittleEndian w = false.
Proof.
  apply (constructor_returns true
           {| opt_buffer := Some [9; 9; 9; 9; 9; 9]; opt_size := Some 0;
              opt_kind := Some CDR2_BE |} [9; 9; 9; 9; 9; 9] eq_refl).
  unfold byteLength; simpl; lia.
Defined.

(** X10.  After [emHeader] on an XCDR1 writer the member body starts at
    alignment zero: the scalar written next gets no padding, whatever its
    width and wherever the cursor is in the buffer. *)
Theorem member_body_starts_aligned (w : CdrWriter) (mustUnderstand : bool)
    (id objectSize : Z) (lengthCode : option Z) (op : Op) (width W : Z) :
  wf w -> isCDR2 w = false ->
  scalar_shape false op = Some (width, W) ->
  exists w1 w2,
    emHeader mustUnderstand id objectSize lengthCode w = (inr tt, w1)
    /\ call op w1 = (inr tt, w2)
    /\ data w2 = data w1 ++ scalar_value w op
    /\ offset w2 = offset w1 + width
    /\ origin w2 = offset w1.
Proof.
  intros Hw Hv Hshape.
  destruct (memberHeaderV1_run w mustUnderstand id objectSize Hw) as (w1 & Hrun & Happ).
  destruct (reset_post w w1 _ Hw Happ) as (Hw1 & Hc & _).
  set (w1' := set_origin (offset w1) w1) in *.
  assert (Hv1 : isCDR2 w1' = false) by (destruct Hc as (_ & _ & -> & _); done).
  assert (Hle : littleEndian w1' = littleEndian w) by apply Hc.
  rewrite <- Hv1 in Hshape.
  destruct (scalar_shape_divides _ _ _ _ Hshape) as [HW _].
  destruct (scalar_call_emits w1' op width W Hw1 Hshape) as (w2 & Hrun2 & Hd & Ho & _ & Hg & _).
  assert (Hpad : padding w1' W = 0).
  { apply padding_aligned; [simpl; lia | done |]. simpl. by rewrite Z.sub_diag. }
  rewrite Hpad in Hd, Ho. change (zeros 0) with (@nil Z) in Hd, Ho.
  cbn [app] in Hd, Ho.
  assert (Hval : scalar_value w1' op = scalar_value w op).
  { destruct op; cbn [scalar_value]; rewrite ?Hle; done. }
  rewrite Hval in Hd, Ho.
  rewrite (byteLength_scalar_value w op width W) in Ho by (by rewrite Hv, <- Hv1).
  exists w1', w2. rewrite emHeader_dispatch, Hv.
  repeat split; try done.
Qed.

(** A double right after a member header on a fresh writer: the header
    takes the bytes 4 to 8 and the double follows at 8 with no padding,
    though 8 is not a multiple of 8 from the old origin, 4. *)
Lemma member_body_starts_aligned_witness :
  let w := fresh PL_CDR_LE in
  exists w1 w2,
    emHeader true 0x12 8 None w = (inr tt, w1)
    /\ call (Float64 JS.one) w1 = (inr tt, w2)
    /\ data w2 = data w1 ++ scalar_value w (Float64 JS.one)
    /\ offset w2 = offset w1 + 8
    /\ origin w2 = offset w1.
Proof.
  apply (member_body_starts_aligned (fresh PL_CDR_LE)
           true 0x12 8 None (Float64 JS.one) 8 8).
  - unfold wf, cursor_inv, byteLength; simpl; lia.
  - reflexivity.
  - reflexivity.
Defined.

(** X11.  [int8Array] and [uint8Array] do the same thing and always return:
    they append the count as an aligned uint32 when [writeLength] is set,
    then one byte per element, the element modulo 256, with no alignment
    and no padding; the origin stays. *)
Theorem byte_arrays (w : CdrWriter) (value : ArrayArg Z) (writeLength : bool) :
  wf w ->
  let n := Z.of_nat (length (elements value)) in
  let count := if writeLength
               then zeros (padding w 4) ++ JS.encode (littleEndian w) 4 (n mod 2 ^ 32)
               else [] in
  exists w',
    int8Array value writeLength w = (inr tt, w')
    /\ uint8Array value writeLength w = (inr tt, w')
    /\ data w' = data w ++ count ++ map (fun v => v mod 256) (elements value)
    /\ offset w' = offset w + byteLength count + n
    /\ origin w' = origin w.
Proof.
  intros Hw n count.
  destruct (byteArray_emits w value writeLength Hw) as (w' & Hrun & Hd & Ho & _ & Hg & _).
  exists w'. rewrite byteLength_app in Ho. unfold byteLength at 2 in Ho.
  rewrite length_map in Ho.
  change (length_prefix w writeLength (array_length value)) with count in Hd, Ho.
  repeat split; try done. subst n. lia.
Qed.

(** Eleven bytes with their count on a fresh CDR_LE writer:
    [0B 00 00 00 | 01 02 ... 0B]. *)
Lemma byte_arrays_witness :
  exists w',
    int8Array (GenericArray [1; 2; 3; 4; 5; 6; 7; 8; 9; 10; 267]) true (fresh CDR_LE)
    = (inr tt, w')
    /\ uint8Array (GenericArray [1; 2; 3; 4; 5; 6; 7; 8; 9; 10; 267]) true (fresh CDR_LE)
       = (inr tt, w')
    /\ data w' = data (fresh CDR_LE) ++ ([] ++ [0x0B; 0; 0; 0])
                 ++ [1; 2; 3; 4; 5; 6; 7; 8; 9; 10; 11]
    /\ offset w' = 4 + 4 + 11
    /\ origin w' = 4.
Proof.
  apply (byte_arrays (fresh CDR_LE)
           (GenericArray [1; 2; 3; 4; 5; 6; 7; 8; 9; 10; 267]) true).
  unfold wf, cursor_inv, byteLength; simpl; lia.
Defined.

(** X12.  For a string of ASCII characters, [string] writes the counted,
    null-terminated UTF-8 encoding: the aligned uint32 [length + 1] when
    [writeLength] is set, the characters, a zero byte; with
    [writeLength = false] nothing precedes the characters, not even
    padding. *)
Theorem string_of_ascii (w : CdrWriter) (value : list Z) (writeLength : bool) :
  wf w -> ascii value ->
  let n := byteLength (JS.utf8 value) in
  let count := if writeLength
               then zeros (padding w 4)
                    ++ JS.encode (littleEndian w) 4 ((n + 1) mod 2 ^ 32)
               else [] in
  exists w',
    string value writeLength w = (inr tt, w')
    /\ JS.utf8 value = value
    /\ data w' = data w ++ count ++ JS.utf8 value ++ [0]
    /\ offset w' = offset w + byteLength count + n + 1
    /\ origin w' = origin w.
Proof.
  intros Hw Ha. cbv zeta. rewrite !utf8_ascii by done.
  destruct (string_ascii_any w value writeLength Hw Ha) as (w' & Hrun & Hd & Ho & _ & Hg & _).
  exists w'. rewrite !byteLength_app in Ho. change (byteLength [0]) with 1 in Ho.
  change (length_prefix w writeLength (Z.of_nat (length value) + 1))
    with (if writeLength
          then zeros (padding w 4)
               ++ JS.encode (littleEndian w) 4 ((byteLength value + 1) mod 2 ^ 32)
          else []) in Hd, Ho.
  repeat split; try done. lia.
Qed.

(** ["hi"] without its length after one byte: [68 69 00] at cursor 5. *)
Lemma string_of_ascii_witness :
  let w := snd (calls [Uint8 1] (fresh CDR_BE)) in
  exists w',
    string [0x68; 0x69] false w = (inr tt, w')
    /\ JS.utf8 [0x68; 0x69] = [0x68; 0x69]
    /\ data w' = data w ++ [] ++ [0x68; 0x69] ++ [0]
    /\ offset w' = 5 + 0 + 2 + 1
    /\ origin w' = 4.
Proof.
  apply (string_of_ascii (snd (calls [Uint8 1] (fresh CDR_BE))) [0x68; 0x69] false).
  - unfold wf, cursor_inv, byteLength; simpl; lia.
  - unfold ascii. repeat constructor; lia.
Defined.

(** X13.  Whatever the string, [string] returns, and after the optional
    count, which is the number of UTF-16 code units plus one, it takes
    exactly that many bytes: the UTF-8 encoding of the whole characters
    that fit in [value.length] bytes, then the bytes the encoder did not
    reach, which are the bytes the buffer held at those positions before
    the call (zero where the buffer had to grow), then a zero byte. *)
Theorem string_takes_length_plus_one (w : CdrWriter) (value : list Z) (writeLength : bool) :
  wf w ->
  let n := Z.of_nat (length value) in
  let count := if writeLength
               then zeros (padding w 4)
                    ++ JS.encode (littleEndian w) 4 ((n + 1) mod 2 ^ 32)
               else [] in
  let enc := JS.encodeInto value n in
  let stale := bytes_at (buffer w) (offset w + byteLength count + byteLength enc)
                 (n - byteLength enc) in
  exists w',
    string value writeLength w = (inr tt, w')
    /\ data w' = data w ++ count ++ enc ++ stale ++ [0]
    /\ byteLength (enc ++ stale) = n
    /\ offset w' = offset w + byteLength count + n + 1
    /\ origin w' = origin w.
Proof.
  intros Hw n count enc stale.
  destruct (string_emits_stale w value writeLength Hw)
    as (Hlen & w' & Hrun & Hd & Ho & _ & Hg & _).
  change (length_prefix w writeLength (Z.of_nat (length value) + 1)) with count in *.
  fold n enc in Hlen, Hd, Ho. fold stale in Hlen, Hd, Ho.
  exists w'.
  rewrite byteLength_app, app_assoc, byteLength_app, Hlen in Ho.
  change (byteLength [0]) with 1 in Ho.
  repeat split; try done. lia.
Qed.

(** ["aé"], two code units and three bytes of UTF-8, written into a buffer
    that held [AA] everywhere after its header: the count is 3, ["a"] is
    stored, ["é"] does not fit in the second byte, which still holds
    [AA]. *)
Lemma string_takes_length_plus_one_witness :
  let w := set_buffer ([0; 1; 0; 0] ++ replicate 12 0xAA) (fresh CDR_LE) in
  exists w',
    string [0x61; 0xE9] true w = (inr tt, w')
    /\ data w' = data w ++ ([] ++ [0x03; 0; 0; 0]) ++ [0x61] ++ [0xAA] ++ [0]
    /\ byteLength ([0x61] ++ [0xAA]) = 2
    /\ offset w' = 4 + 4 + 2 + 1
    /\ origin w' = 4.
Proof.
  intros w.
  apply (string_takes_length_plus_one w [0x61; 0xE9] true).
  unfold wf, cursor_inv, byteLength; simpl; lia.
Defined.

(** X14.  The array methods of width two and more always return, and this
    is what they append: the count of elements as an aligned uint32 when
    [writeLength] is set; then, if there is an element at all, padding and
    the elements, [BPE] bytes each in the byte order of the stream, with
    nothing between them.  The padding is to the element width on the fast
    path and to the alignment of the scalar of the element type on the
    slow path.  The two are the same for the 16- and 32-bit arrays and for
    the 64-bit arrays under XCDR1: there the output does not depend on the
    path, on the kind of array passed or on the byte order of the host. *)
Theorem wide_arrays (w : CdrWriter) (op : Op) (BPE Al : Z) (patterns : list Z)
    (fast writeLength : bool) :
  wf w ->
  array_parts w op = Some (BPE, Al, patterns, fast, writeLength) ->
  let n := Z.of_nat (length patterns) in
  let count := if writeLength
               then zeros (padding w 4) ++ JS.encode (littleEndian w) 4 (n mod 2 ^ 32)
               else [] in
  let P := if fast then BPE else Al in
  let body := match patterns with
              | [] => []
              | _ => zeros (padding_after w (byteLength count) P)
                     ++ element_bytes (littleEndian w) BPE patterns
              end in
  exists w',
    call op w = (inr tt, w')
    /\ data w' = data w ++ count ++ body
    /\ offset w' = offset w + byteLength count + byteLength body
    /\ origin w' = origin w
    /\ (BPE <= 4 \/ isCDR2 w = false -> Al = BPE).
Proof.
  intros Hw Hparts n count P body.
  pose proof Hw as (_ & _ & H8).
  assert (H64 : 0 < eightByteAlignment w /\ 8 mod eightByteAlignment w = 0).
  { rewrite H8. by destruct (isCDR2 w). }
  assert (Hal64 : 8 <= 4 \/ isCDR2 w = false -> eightByteAlignment w = 8).
  { intros [?| Hv]; [lia|]. by rewrite H8, Hv. }
  assert (Hrepack : forall A B C D : Prop,
             A /\ B /\ C /\ D -> (BPE <= 4 \/ isCDR2 w = false -> Al = BPE) ->
             A /\ B /\ C /\ D /\ (BPE <= 4 \/ isCDR2 w = false -> Al = BPE)) by tauto.
  destruct op; simpl in Hparts; try discriminate;
    injection Hparts as <- <- <- <- <-; cbn [call].
  - destruct (wideArray_run w 2 2 JS.ToUint16 int16 value writeLength0) as (w' & H);
      try done. { intros x w1 Hw1 _. by apply int16_emits. }
    exists w'. by apply Hrepack.
  - destruct (wideArray_run w 2 2 JS.ToUint16 uint16 value writeLength0) as (w' & H);
      try done. { intros x w1 Hw1 _. by apply uint16_emits. }
    exists w'. by apply Hrepack.
  - destruct (wideArray_run w 4 4 JS.ToUint32 int32 value writeLength0) as (w' & H);
      try done. { intros x w1 Hw1 _. by apply int32_emits. }
    exists w'. by apply Hrepack.
  - destruct (wideArray_run w 4 4 JS.ToUint32 uint32 value writeLength0) as (w' & H);
      try done. { intros x w1 Hw1 _. by apply uint32_emits. }
    exists w'. by apply Hrepack.
  - destruct (wideArray_run w 8 (eightByteAlignment w) JS.ToBigUint64 int64 value writeLength0)
      as (w' & H); try done; try apply H64.
    { intros x w1 Hw1 (_ & _ & _ & <-). by apply int64_emits. }
    exists w'. by apply Hrepack.
  - destruct (wideArray_run w 8 (eightByteAlignment w) JS.ToBigUint64 uint64 value writeLength0)
      as (w' & H); try done; try apply H64.
    { intros x w1 Hw1 (_ & _ & _ & <-). by apply uint64_emits. }
    exists w'. by apply Hrepack.
  - destruct (wideArray_run w 4 4 JS.float32_bits float32 value writeLength0) as (w' & H);
      try done. { intros x w1 Hw1 _. by apply float32_emits. }
    exists w'. by apply Hrepack.
  - destruct (wideArray_run w 8 (eightByteAlignment w) JS.float64_bits float64 value writeLength0)
      as (w' & H); try done; try apply H64.
    { intros x w1 Hw1 (_ & _ & _ & <-). by apply float64_emits. }
    exists w'. by apply Hrepack.
Qed.

(** A typed array of ten 16-bit integers after one byte, without its
    count, on a little-endian host and a little-endian XCDR2 stream: the
    fast path; one byte of padding, then twenty bytes. *)
Lemma wide_arrays_witness :
  let w := snd (calls [Uint8 1] (fresh CDR2_LE)) in
  let patterns := [1; 2; 3; 4; 5; 6; 7; 8; 9; 65535] in
  exists w',
    call (Int16Array (TypedArray [1; 2; 3; 4; 5; 6; 7; 8; 9; -1]) false) w = (inr tt, w')
    /\ data w' = data w ++ [] ++ (zeros 1 ++ element_bytes true 2 patterns)
    /\ offset w' = 5 + 0 + 21
    /\ origin w' = 4
    /\ (2 <= 4 \/ isCDR2 w = false -> 2 = 2).
Proof.
  apply (wide_arrays (snd (calls [Uint8 1] (fresh CDR2_LE)))
           (Int16Array (TypedArray [1; 2; 3; 4; 5; 6; 7; 8; 9; -1]) false)
           2 2 [1; 2; 3; 4; 5; 6; 7; 8; 9; 65535] true false).
  - unfold wf, cursor_inv, byteLength; simpl; lia.
  - reflexivity.
Defined.
